(** * Verification of the Veeam net-perf log parser

    A shallow embedding of [veeam-netperf-parser.py]: Python strings are lists
    of Unicode code points, the [re] patterns of the script are terms of a small
    regular-expression syntax run by a backtracking matcher with the priorities
    of Python's engine (leftmost start, greedy and lazy quantifiers, first
    alternative first), exceptions are an explicit result type, and the two
    loops of the script ([parse_events] and the validate branch of [main]) are
    recursive functions over the lines they read.  The files the script reads
    are a tree of files and folders, the bytes of a file are decoded as the
    script asks for, and the two commands of [main] are functions of the
    input they are given.

    Conventions of the model:
    - [int] is Python's arbitrary-precision integer, [Z]; the interpreter's
      configurable cap on the number of digits of an [int]/[str] conversion is
      taken as switched off;
    - [float] is IEEE binary64 with round-to-nearest-even, computed exactly
      over [Z];
    - the Unicode tables ([\d], [\w], [\s]) are those of Unicode 14.0. *)

From Stdlib Require Import List NArith ZArith Bool String Ascii Lia.
Import ListNotations.

Open Scope N_scope.

(** ** Characters *)

(** A Python [str] is a sequence of code points. *)
Definition str := list N.

(** The code points of a literal of this file (ASCII only). *)
Definition lit (s : string) : str := map N_of_ascii (list_ascii_of_string s).

Definition in_range (lo hi c : N) : bool := (lo <=? c) && (c <=? hi).

Definition in_ranges (t : list (N * N)) (c : N) : bool :=
  existsb (fun r => in_range (fst r) (snd r) c) t.

(** [str.isspace], which is also the class [\s] of a [str] pattern. *)
Definition space_ranges : list (N * N) :=
  [ (0x9, 0xD); (0x1C, 0x20); (0x85, 0x85); (0xA0, 0xA0); (0x1680, 0x1680);
    (0x2000, 0x200A); (0x2028, 0x2029); (0x202F, 0x202F); (0x205F, 0x205F);
    (0x3000, 0x3000) ].

Definition is_space (c : N) : bool := in_ranges space_ranges c.

(** The decimal digits (category Nd): each entry is the digit zero of a run of
    ten consecutive digits 0..9. *)
Definition decimal_zeros : list N :=
  [
    0x30; 0x660; 0x6F0; 0x7C0; 0x966; 0x9E6; 0xA66; 0xAE6; 0xB66; 0xBE6;
    0xC66; 0xCE6; 0xD66; 0xDE6; 0xE50; 0xED0; 0xF20; 0x1040; 0x1090; 0x17E0;
    0x1810; 0x1946; 0x19D0; 0x1A80; 0x1A90; 0x1B50; 0x1BB0; 0x1C40; 0x1C50; 0xA620;
    0xA8D0; 0xA900; 0xA9D0; 0xA9F0; 0xAA50; 0xABF0; 0xFF10; 0x104A0; 0x10D30; 0x11066;
    0x110F0; 0x11136; 0x111D0; 0x112F0; 0x11450; 0x114D0; 0x11650; 0x116C0; 0x11730; 0x118E0;
    0x11950; 0x11C50; 0x11D50; 0x11DA0; 0x16A60; 0x16AC0; 0x16B50; 0x1D7CE; 0x1D7D8; 0x1D7E2;
    0x1D7EC; 0x1D7F6; 0x1E140; 0x1E2F0; 0x1E950; 0x1FBF0 ].

(** [unicodedata.decimal]: the value of a decimal digit. *)
Definition decimal_value (c : N) : option N :=
  match find (fun z => in_range z (z + 9) c) decimal_zeros with
  | Some z => Some (c - z)
  | None => None
  end.

(** [str.isdecimal] on one code point, the class [\d] of a [str] pattern. *)
Definition is_decimal (c : N) : bool :=
  match decimal_value c with Some _ => true | None => false end.

(** [str.isalnum] on one code point. *)
Definition alnum_ranges : list (N * N) :=
  [
    (0x30, 0x39); (0x41, 0x5A); (0x61, 0x7A); (0xAA, 0xAA); (0xB2, 0xB3);
    (0xB5, 0xB5); (0xB9, 0xBA); (0xBC, 0xBE); (0xC0, 0xD6); (0xD8, 0xF6);
    (0xF8, 0x2C1); (0x2C6, 0x2D1); (0x2E0, 0x2E4); (0x2EC, 0x2EC); (0x2EE, 0x2EE);
    (0x370, 0x374); (0x376, 0x377); (0x37A, 0x37D); (0x37F, 0x37F); (0x386, 0x386);
    (0x388, 0x38A); (0x38C, 0x38C); (0x38E, 0x3A1); (0x3A3, 0x3F5); (0x3F7, 0x481);
    (0x48A, 0x52F); (0x531, 0x556); (0x559, 0x559); (0x560, 0x588); (0x5D0, 0x5EA);
    (0x5EF, 0x5F2); (0x620, 0x64A); (0x660, 0x669); (0x66E, 0x66F); (0x671, 0x6D3);
    (0x6D5, 0x6D5); (0x6E5, 0x6E6); (0x6EE, 0x6FC); (0x6FF, 0x6FF); (0x710, 0x710);
    (0x712, 0x72F); (0x74D, 0x7A5); (0x7B1, 0x7B1); (0x7C0, 0x7EA); (0x7F4, 0x7F5);
    (0x7FA, 0x7FA); (0x800, 0x815); (0x81A, 0x81A); (0x824, 0x824); (0x828, 0x828);
    (0x840, 0x858); (0x860, 0x86A); (0x870, 0x887); (0x889, 0x88E); (0x8A0, 0x8C9);
    (0x904, 0x939); (0x93D, 0x93D); (0x950, 0x950); (0x958, 0x961); (0x966, 0x96F);
    (0x971, 0x980); (0x985, 0x98C); (0x98F, 0x990); (0x993, 0x9A8); (0x9AA, 0x9B0);
    (0x9B2, 0x9B2); (0x9B6, 0x9B9); (0x9BD, 0x9BD); (0x9CE, 0x9CE); (0x9DC, 0x9DD);
    (0x9DF, 0x9E1); (0x9E6, 0x9F1); (0x9F4, 0x9F9); (0x9FC, 0x9FC); (0xA05, 0xA0A);
    (0xA0F, 0xA10); (0xA13, 0xA28); (0xA2A, 0xA30); (0xA32, 0xA33); (0xA35, 0xA36);
    (0xA38, 0xA39); (0xA59, 0xA5C); (0xA5E, 0xA5E); (0xA66, 0xA6F); (0xA72, 0xA74);
    (0xA85, 0xA8D); (0xA8F, 0xA91); (0xA93, 0xAA8); (0xAAA, 0xAB0); (0xAB2, 0xAB3);
    (0xAB5, 0xAB9); (0xABD, 0xABD); (0xAD0, 0xAD0); (0xAE0, 0xAE1); (0xAE6, 0xAEF);
    (0xAF9, 0xAF9); (0xB05, 0xB0C); (0xB0F, 0xB10); (0xB13, 0xB28); (0xB2A, 0xB30);
    (0xB32, 0xB33); (0xB35, 0xB39); (0xB3D, 0xB3D); (0xB5C, 0xB5D); (0xB5F, 0xB61);
    (0xB66, 0xB6F); (0xB71, 0xB77); (0xB83, 0xB83); (0xB85, 0xB8A); (0xB8E, 0xB90);
    (0xB92, 0xB95); (0xB99, 0xB9A); (0xB9C, 0xB9C); (0xB9E, 0xB9F); (0xBA3, 0xBA4);
    (0xBA8, 0xBAA); (0xBAE, 0xBB9); (0xBD0, 0xBD0); (0xBE6, 0xBF2); (0xC05, 0xC0C);
    (0xC0E, 0xC10); (0xC12, 0xC28); (0xC2A, 0xC39); (0xC3D, 0xC3D); (0xC58, 0xC5A);
    (0xC5D, 0xC5D); (0xC60, 0xC61); (0xC66, 0xC6F); (0xC78, 0xC7E); (0xC80, 0xC80);
    (0xC85, 0xC8C); (0xC8E, 0xC90); (0xC92, 0xCA8); (0xCAA, 0xCB3); (0xCB5, 0xCB9);
    (0xCBD, 0xCBD); (0xCDD, 0xCDE); (0xCE0, 0xCE1); (0xCE6, 0xCEF); (0xCF1, 0xCF2);
    (0xD04, 0xD0C); (0xD0E, 0xD10); (0xD12, 0xD3A); (0xD3D, 0xD3D); (0xD4E, 0xD4E);
    (0xD54, 0xD56); (0xD58, 0xD61); (0xD66, 0xD78); (0xD7A, 0xD7F); (0xD85, 0xD96);
    (0xD9A, 0xDB1); (0xDB3, 0xDBB); (0xDBD, 0xDBD); (0xDC0, 0xDC6); (0xDE6, 0xDEF);
    (0xE01, 0xE30); (0xE32, 0xE33); (0xE40, 0xE46); (0xE50, 0xE59); (0xE81, 0xE82);
    (0xE84, 0xE84); (0xE86, 0xE8A); (0xE8C, 0xEA3); (0xEA5, 0xEA5); (0xEA7, 0xEB0);
    (0xEB2, 0xEB3); (0xEBD, 0xEBD); (0xEC0, 0xEC4); (0xEC6, 0xEC6); (0xED0, 0xED9);
    (0xEDC, 0xEDF); (0xF00, 0xF00); (0xF20, 0xF33); (0xF40, 0xF47); (0xF49, 0xF6C);
    (0xF88, 0xF8C); (0x1000, 0x102A); (0x103F, 0x1049); (0x1050, 0x1055); (0x105A, 0x105D);
    (0x1061, 0x1061); (0x1065, 0x1066); (0x106E, 0x1070); (0x1075, 0x1081); (0x108E, 0x108E);
    (0x1090, 0x1099); (0x10A0, 0x10C5); (0x10C7, 0x10C7); (0x10CD, 0x10CD); (0x10D0, 0x10FA);
    (0x10FC, 0x1248); (0x124A, 0x124D); (0x1250, 0x1256); (0x1258, 0x1258); (0x125A, 0x125D);
    (0x1260, 0x1288); (0x128A, 0x128D); (0x1290, 0x12B0); (0x12B2, 0x12B5); (0x12B8, 0x12BE);
    (0x12C0, 0x12C0); (0x12C2, 0x12C5); (0x12C8, 0x12D6); (0x12D8, 0x1310); (0x1312, 0x1315);
    (0x1318, 0x135A); (0x1369, 0x137C); (0x1380, 0x138F); (0x13A0, 0x13F5); (0x13F8, 0x13FD);
    (0x1401, 0x166C); (0x166F, 0x167F); (0x1681, 0x169A); (0x16A0, 0x16EA); (0x16EE, 0x16F8);
    (0x1700, 0x1711); (0x171F, 0x1731); (0x1740, 0x1751); (0x1760, 0x176C); (0x176E, 0x1770);
    (0x1780, 0x17B3); (0x17D7, 0x17D7); (0x17DC, 0x17DC); (0x17E0, 0x17E9); (0x17F0, 0x17F9);
    (0x1810, 0x1819); (0x1820, 0x1878); (0x1880, 0x1884); (0x1887, 0x18A8); (0x18AA, 0x18AA);
    (0x18B0, 0x18F5); (0x1900, 0x191E); (0x1946, 0x196D); (0x1970, 0x1974); (0x1980, 0x19AB);
    (0x19B0, 0x19C9); (0x19D0, 0x19DA); (0x1A00, 0x1A16); (0x1A20, 0x1A54); (0x1A80, 0x1A89);
    (0x1A90, 0x1A99); (0x1AA7, 0x1AA7); (0x1B05, 0x1B33); (0x1B45, 0x1B4C); (0x1B50, 0x1B59);
    (0x1B83, 0x1BA0); (0x1BAE, 0x1BE5); (0x1C00, 0x1C23); (0x1C40, 0x1C49); (0x1C4D, 0x1C7D);
    (0x1C80, 0x1C88); (0x1C90, 0x1CBA); (0x1CBD, 0x1CBF); (0x1CE9, 0x1CEC); (0x1CEE, 0x1CF3);
    (0x1CF5, 0x1CF6); (0x1CFA, 0x1CFA); (0x1D00, 0x1DBF); (0x1E00, 0x1F15); (0x1F18, 0x1F1D);
    (0x1F20, 0x1F45); (0x1F48, 0x1F4D); (0x1F50, 0x1F57); (0x1F59, 0x1F59); (0x1F5B, 0x1F5B);
    (0x1F5D, 0x1F5D); (0x1F5F, 0x1F7D); (0x1F80, 0x1FB4); (0x1FB6, 0x1FBC); (0x1FBE, 0x1FBE);
    (0x1FC2, 0x1FC4); (0x1FC6, 0x1FCC); (0x1FD0, 0x1FD3); (0x1FD6, 0x1FDB); (0x1FE0, 0x1FEC);
    (0x1FF2, 0x1FF4); (0x1FF6, 0x1FFC); (0x2070, 0x2071); (0x2074, 0x2079); (0x207F, 0x2089);
    (0x2090, 0x209C); (0x2102, 0x2102); (0x2107, 0x2107); (0x210A, 0x2113); (0x2115, 0x2115);
    (0x2119, 0x211D); (0x2124, 0x2124); (0x2126, 0x2126); (0x2128, 0x2128); (0x212A, 0x212D);
    (0x212F, 0x2139); (0x213C, 0x213F); (0x2145, 0x2149); (0x214E, 0x214E); (0x2150, 0x2189);
    (0x2460, 0x249B); (0x24EA, 0x24FF); (0x2776, 0x2793); (0x2C00, 0x2CE4); (0x2CEB, 0x2CEE);
    (0x2CF2, 0x2CF3); (0x2CFD, 0x2CFD); (0x2D00, 0x2D25); (0x2D27, 0x2D27); (0x2D2D, 0x2D2D);
    (0x2D30, 0x2D67); (0x2D6F, 0x2D6F); (0x2D80, 0x2D96); (0x2DA0, 0x2DA6); (0x2DA8, 0x2DAE);
    (0x2DB0, 0x2DB6); (0x2DB8, 0x2DBE); (0x2DC0, 0x2DC6); (0x2DC8, 0x2DCE); (0x2DD0, 0x2DD6);
    (0x2DD8, 0x2DDE); (0x2E2F, 0x2E2F); (0x3005, 0x3007); (0x3021, 0x3029); (0x3031, 0x3035);
    (0x3038, 0x303C); (0x3041, 0x3096); (0x309D, 0x309F); (0x30A1, 0x30FA); (0x30FC, 0x30FF);
    (0x3105, 0x312F); (0x3131, 0x318E); (0x3192, 0x3195); (0x31A0, 0x31BF); (0x31F0, 0x31FF);
    (0x3220, 0x3229); (0x3248, 0x324F); (0x3251, 0x325F); (0x3280, 0x3289); (0x32B1, 0x32BF);
    (0x3400, 0x4DBF); (0x4E00, 0xA48C); (0xA4D0, 0xA4FD); (0xA500, 0xA60C); (0xA610, 0xA62B);
    (0xA640, 0xA66E); (0xA67F, 0xA69D); (0xA6A0, 0xA6EF); (0xA717, 0xA71F); (0xA722, 0xA788);
    (0xA78B, 0xA7CA); (0xA7D0, 0xA7D1); (0xA7D3, 0xA7D3); (0xA7D5, 0xA7D9); (0xA7F2, 0xA801);
    (0xA803, 0xA805); (0xA807, 0xA80A); (0xA80C, 0xA822); (0xA830, 0xA835); (0xA840, 0xA873);
    (0xA882, 0xA8B3); (0xA8D0, 0xA8D9); (0xA8F2, 0xA8F7); (0xA8FB, 0xA8FB); (0xA8FD, 0xA8FE);
    (0xA900, 0xA925); (0xA930, 0xA946); (0xA960, 0xA97C); (0xA984, 0xA9B2); (0xA9CF, 0xA9D9);
    (0xA9E0, 0xA9E4); (0xA9E6, 0xA9FE); (0xAA00, 0xAA28); (0xAA40, 0xAA42); (0xAA44, 0xAA4B);
    (0xAA50, 0xAA59); (0xAA60, 0xAA76); (0xAA7A, 0xAA7A); (0xAA7E, 0xAAAF); (0xAAB1, 0xAAB1);
    (0xAAB5, 0xAAB6); (0xAAB9, 0xAABD); (0xAAC0, 0xAAC0); (0xAAC2, 0xAAC2); (0xAADB, 0xAADD);
    (0xAAE0, 0xAAEA); (0xAAF2, 0xAAF4); (0xAB01, 0xAB06); (0xAB09, 0xAB0E); (0xAB11, 0xAB16);
    (0xAB20, 0xAB26); (0xAB28, 0xAB2E); (0xAB30, 0xAB5A); (0xAB5C, 0xAB69); (0xAB70, 0xABE2);
    (0xABF0, 0xABF9); (0xAC00, 0xD7A3); (0xD7B0, 0xD7C6); (0xD7CB, 0xD7FB); (0xF900, 0xFA6D);
    (0xFA70, 0xFAD9); (0xFB00, 0xFB06); (0xFB13, 0xFB17); (0xFB1D, 0xFB1D); (0xFB1F, 0xFB28);
    (0xFB2A, 0xFB36); (0xFB38, 0xFB3C); (0xFB3E, 0xFB3E); (0xFB40, 0xFB41); (0xFB43, 0xFB44);
    (0xFB46, 0xFBB1); (0xFBD3, 0xFD3D); (0xFD50, 0xFD8F); (0xFD92, 0xFDC7); (0xFDF0, 0xFDFB);
    (0xFE70, 0xFE74); (0xFE76, 0xFEFC); (0xFF10, 0xFF19); (0xFF21, 0xFF3A); (0xFF41, 0xFF5A);
    (0xFF66, 0xFFBE); (0xFFC2, 0xFFC7); (0xFFCA, 0xFFCF); (0xFFD2, 0xFFD7); (0xFFDA, 0xFFDC);
    (0x10000, 0x1000B); (0x1000D, 0x10026); (0x10028, 0x1003A); (0x1003C, 0x1003D); (0x1003F, 0x1004D);
    (0x10050, 0x1005D); (0x10080, 0x100FA); (0x10107, 0x10133); (0x10140, 0x10178); (0x1018A, 0x1018B);
    (0x10280, 0x1029C); (0x102A0, 0x102D0); (0x102E1, 0x102FB); (0x10300, 0x10323); (0x1032D, 0x1034A);
    (0x10350, 0x10375); (0x10380, 0x1039D); (0x103A0, 0x103C3); (0x103C8, 0x103CF); (0x103D1, 0x103D5);
    (0x10400, 0x1049D); (0x104A0, 0x104A9); (0x104B0, 0x104D3); (0x104D8, 0x104FB); (0x10500, 0x10527);
    (0x10530, 0x10563); (0x10570, 0x1057A); (0x1057C, 0x1058A); (0x1058C, 0x10592); (0x10594, 0x10595);
    (0x10597, 0x105A1); (0x105A3, 0x105B1); (0x105B3, 0x105B9); (0x105BB, 0x105BC); (0x10600, 0x10736);
    (0x10740, 0x10755); (0x10760, 0x10767); (0x10780, 0x10785); (0x10787, 0x107B0); (0x107B2, 0x107BA);
    (0x10800, 0x10805); (0x10808, 0x10808); (0x1080A, 0x10835); (0x10837, 0x10838); (0x1083C, 0x1083C);
    (0x1083F, 0x10855); (0x10858, 0x10876); (0x10879, 0x1089E); (0x108A7, 0x108AF); (0x108E0, 0x108F2);
    (0x108F4, 0x108F5); (0x108FB, 0x1091B); (0x10920, 0x10939); (0x10980, 0x109B7); (0x109BC, 0x109CF);
    (0x109D2, 0x10A00); (0x10A10, 0x10A13); (0x10A15, 0x10A17); (0x10A19, 0x10A35); (0x10A40, 0x10A48);
    (0x10A60, 0x10A7E); (0x10A80, 0x10A9F); (0x10AC0, 0x10AC7); (0x10AC9, 0x10AE4); (0x10AEB, 0x10AEF);
    (0x10B00, 0x10B35); (0x10B40, 0x10B55); (0x10B58, 0x10B72); (0x10B78, 0x10B91); (0x10BA9, 0x10BAF);
    (0x10C00, 0x10C48); (0x10C80, 0x10CB2); (0x10CC0, 0x10CF2); (0x10CFA, 0x10D23); (0x10D30, 0x10D39);
    (0x10E60, 0x10E7E); (0x10E80, 0x10EA9); (0x10EB0, 0x10EB1); (0x10F00, 0x10F27); (0x10F30, 0x10F45);
    (0x10F51, 0x10F54); (0x10F70, 0x10F81); (0x10FB0, 0x10FCB); (0x10FE0, 0x10FF6); (0x11003, 0x11037);
    (0x11052, 0x1106F); (0x11071, 0x11072); (0x11075, 0x11075); (0x11083, 0x110AF); (0x110D0, 0x110E8);
    (0x110F0, 0x110F9); (0x11103, 0x11126); (0x11136, 0x1113F); (0x11144, 0x11144); (0x11147, 0x11147);
    (0x11150, 0x11172); (0x11176, 0x11176); (0x11183, 0x111B2); (0x111C1, 0x111C4); (0x111D0, 0x111DA);
    (0x111DC, 0x111DC); (0x111E1, 0x111F4); (0x11200, 0x11211); (0x11213, 0x1122B); (0x11280, 0x11286);
    (0x11288, 0x11288); (0x1128A, 0x1128D); (0x1128F, 0x1129D); (0x1129F, 0x112A8); (0x112B0, 0x112DE);
    (0x112F0, 0x112F9); (0x11305, 0x1130C); (0x1130F, 0x11310); (0x11313, 0x11328); (0x1132A, 0x11330);
    (0x11332, 0x11333); (0x11335, 0x11339); (0x1133D, 0x1133D); (0x11350, 0x11350); (0x1135D, 0x11361);
    (0x11400, 0x11434); (0x11447, 0x1144A); (0x11450, 0x11459); (0x1145F, 0x11461); (0x11480, 0x114AF);
    (0x114C4, 0x114C5); (0x114C7, 0x114C7); (0x114D0, 0x114D9); (0x11580, 0x115AE); (0x115D8, 0x115DB);
    (0x11600, 0x1162F); (0x11644, 0x11644); (0x11650, 0x11659); (0x11680, 0x116AA); (0x116B8, 0x116B8);
    (0x116C0, 0x116C9); (0x11700, 0x1171A); (0x11730, 0x1173B); (0x11740, 0x11746); (0x11800, 0x1182B);
    (0x118A0, 0x118F2); (0x118FF, 0x11906); (0x11909, 0x11909); (0x1190C, 0x11913); (0x11915, 0x11916);
    (0x11918, 0x1192F); (0x1193F, 0x1193F); (0x11941, 0x11941); (0x11950, 0x11959); (0x119A0, 0x119A7);
    (0x119AA, 0x119D0); (0x119E1, 0x119E1); (0x119E3, 0x119E3); (0x11A00, 0x11A00); (0x11A0B, 0x11A32);
    (0x11A3A, 0x11A3A); (0x11A50, 0x11A50); (0x11A5C, 0x11A89); (0x11A9D, 0x11A9D); (0x11AB0, 0x11AF8);
    (0x11C00, 0x11C08); (0x11C0A, 0x11C2E); (0x11C40, 0x11C40); (0x11C50, 0x11C6C); (0x11C72, 0x11C8F);
    (0x11D00, 0x11D06); (0x11D08, 0x11D09); (0x11D0B, 0x11D30); (0x11D46, 0x11D46); (0x11D50, 0x11D59);
    (0x11D60, 0x11D65); (0x11D67, 0x11D68); (0x11D6A, 0x11D89); (0x11D98, 0x11D98); (0x11DA0, 0x11DA9);
    (0x11EE0, 0x11EF2); (0x11FB0, 0x11FB0); (0x11FC0, 0x11FD4); (0x12000, 0x12399); (0x12400, 0x1246E);
    (0x12480, 0x12543); (0x12F90, 0x12FF0); (0x13000, 0x1342E); (0x14400, 0x14646); (0x16800, 0x16A38);
    (0x16A40, 0x16A5E); (0x16A60, 0x16A69); (0x16A70, 0x16ABE); (0x16AC0, 0x16AC9); (0x16AD0, 0x16AED);
    (0x16B00, 0x16B2F); (0x16B40, 0x16B43); (0x16B50, 0x16B59); (0x16B5B, 0x16B61); (0x16B63, 0x16B77);
    (0x16B7D, 0x16B8F); (0x16E40, 0x16E96); (0x16F00, 0x16F4A); (0x16F50, 0x16F50); (0x16F93, 0x16F9F);
    (0x16FE0, 0x16FE1); (0x16FE3, 0x16FE3); (0x17000, 0x187F7); (0x18800, 0x18CD5); (0x18D00, 0x18D08);
    (0x1AFF0, 0x1AFF3); (0x1AFF5, 0x1AFFB); (0x1AFFD, 0x1AFFE); (0x1B000, 0x1B122); (0x1B150, 0x1B152);
    (0x1B164, 0x1B167); (0x1B170, 0x1B2FB); (0x1BC00, 0x1BC6A); (0x1BC70, 0x1BC7C); (0x1BC80, 0x1BC88);
    (0x1BC90, 0x1BC99); (0x1D2E0, 0x1D2F3); (0x1D360, 0x1D378); (0x1D400, 0x1D454); (0x1D456, 0x1D49C);
    (0x1D49E, 0x1D49F); (0x1D4A2, 0x1D4A2); (0x1D4A5, 0x1D4A6); (0x1D4A9, 0x1D4AC); (0x1D4AE, 0x1D4B9);
    (0x1D4BB, 0x1D4BB); (0x1D4BD, 0x1D4C3); (0x1D4C5, 0x1D505); (0x1D507, 0x1D50A); (0x1D50D, 0x1D514);
    (0x1D516, 0x1D51C); (0x1D51E, 0x1D539); (0x1D53B, 0x1D53E); (0x1D540, 0x1D544); (0x1D546, 0x1D546);
    (0x1D54A, 0x1D550); (0x1D552, 0x1D6A5); (0x1D6A8, 0x1D6C0); (0x1D6C2, 0x1D6DA); (0x1D6DC, 0x1D6FA);
    (0x1D6FC, 0x1D714); (0x1D716, 0x1D734); (0x1D736, 0x1D74E); (0x1D750, 0x1D76E); (0x1D770, 0x1D788);
    (0x1D78A, 0x1D7A8); (0x1D7AA, 0x1D7C2); (0x1D7C4, 0x1D7CB); (0x1D7CE, 0x1D7FF); (0x1DF00, 0x1DF1E);
    (0x1E100, 0x1E12C); (0x1E137, 0x1E13D); (0x1E140, 0x1E149); (0x1E14E, 0x1E14E); (0x1E290, 0x1E2AD);
    (0x1E2C0, 0x1E2EB); (0x1E2F0, 0x1E2F9); (0x1E7E0, 0x1E7E6); (0x1E7E8, 0x1E7EB); (0x1E7ED, 0x1E7EE);
    (0x1E7F0, 0x1E7FE); (0x1E800, 0x1E8C4); (0x1E8C7, 0x1E8CF); (0x1E900, 0x1E943); (0x1E94B, 0x1E94B);
    (0x1E950, 0x1E959); (0x1EC71, 0x1ECAB); (0x1ECAD, 0x1ECAF); (0x1ECB1, 0x1ECB4); (0x1ED01, 0x1ED2D);
    (0x1ED2F, 0x1ED3D); (0x1EE00, 0x1EE03); (0x1EE05, 0x1EE1F); (0x1EE21, 0x1EE22); (0x1EE24, 0x1EE24);
    (0x1EE27, 0x1EE27); (0x1EE29, 0x1EE32); (0x1EE34, 0x1EE37); (0x1EE39, 0x1EE39); (0x1EE3B, 0x1EE3B);
    (0x1EE42, 0x1EE42); (0x1EE47, 0x1EE47); (0x1EE49, 0x1EE49); (0x1EE4B, 0x1EE4B); (0x1EE4D, 0x1EE4F);
    (0x1EE51, 0x1EE52); (0x1EE54, 0x1EE54); (0x1EE57, 0x1EE57); (0x1EE59, 0x1EE59); (0x1EE5B, 0x1EE5B);
    (0x1EE5D, 0x1EE5D); (0x1EE5F, 0x1EE5F); (0x1EE61, 0x1EE62); (0x1EE64, 0x1EE64); (0x1EE67, 0x1EE6A);
    (0x1EE6C, 0x1EE72); (0x1EE74, 0x1EE77); (0x1EE79, 0x1EE7C); (0x1EE7E, 0x1EE7E); (0x1EE80, 0x1EE89);
    (0x1EE8B, 0x1EE9B); (0x1EEA1, 0x1EEA3); (0x1EEA5, 0x1EEA9); (0x1EEAB, 0x1EEBB); (0x1F100, 0x1F10C);
    (0x1FBF0, 0x1FBF9); (0x20000, 0x2A6DF); (0x2A700, 0x2B738); (0x2B740, 0x2B81D); (0x2B820, 0x2CEA1);
    (0x2CEB0, 0x2EBE0); (0x2F800, 0x2FA1D); (0x30000, 0x3134A) ].

(** The class [\w] of a [str] pattern: alphanumeric or underscore. *)
Definition is_word (c : N) : bool := in_ranges alnum_ranges c || (c =? 0x5F).

(** Case folding as the engine applies it under [re.I] to a literal that is an
    ASCII character: upper and lower case letter agree, and so do the four
    code points beyond ASCII whose case mapping meets an ASCII letter
    (U+0130 and U+0131 with i, U+017F with s, U+212A with k). *)
Definition fold_case (c : N) : N :=
  if in_range 0x41 0x5A c then c + 32
  else if (c =? 0x130) || (c =? 0x131) then 0x69
  else if c =? 0x17F then 0x73
  else if c =? 0x212A then 0x6B
  else c.

(** [str.upper] on one code point, as far as a lookup in the table of
    [parse_size] can tell: ASCII letters are raised; every other code point is
    kept, since none has an upper case made of the letters K, M, G, T, B
    alone. *)
Definition upper_char (c : N) : N :=
  if in_range 0x61 0x7A c then c - 32 else c.

Definition upper (s : str) : str := map upper_char s.

(** ** String methods *)

(** [s.lstrip()], [s.rstrip()], [s.strip()]. *)
Fixpoint lstrip (s : str) : str :=
  match s with
  | c :: r => if is_space c then lstrip r else s
  | [] => []
  end.

Definition rstrip (s : str) : str := rev (lstrip (rev s)).

Definition strip (s : str) : str := rstrip (lstrip s).

(** [s.split()]: the maximal runs of characters that are not whitespace.
    [tok] is the run being read, last character first. *)
Fixpoint split_from (tok : str) (s : str) : list str :=
  match s with
  | [] => match tok with [] => [] | _ => [rev tok] end
  | c :: r =>
      if is_space c
      then match tok with [] => split_from [] r | _ => rev tok :: split_from [] r end
      else split_from (c :: tok) r
  end.

Definition split (s : str) : list str := split_from [] s.

(** [s.split(sep)] for a separator of one character: the fields between the
    separators, empty ones included. *)
Fixpoint split_on_from (sep : N) (tok : str) (s : str) : list str :=
  match s with
  | [] => [rev tok]
  | c :: r =>
      if c =? sep then rev tok :: split_on_from sep [] r
      else split_on_from sep (c :: tok) r
  end.

Definition split_on (sep : N) (s : str) : list str := split_on_from sep [] s.

(** ** Exceptions *)

Inductive exn := ValueError | KeyError | OverflowError | TypeError | AttributeError.

Inductive res (A : Type) : Type :=
| Ok (a : A)
| Raise (e : exn).

Arguments Ok {A} a.
Arguments Raise {A} e.

Definition bind {A B : Type} (m : res A) (f : A -> res B) : res B :=
  match m with
  | Ok a => f a
  | Raise e => Raise e
  end.

Notation "x <- m ;; k" := (bind m (fun x => k))
  (at level 61, m at next level, right associativity).
Notation "' p <- m ;; k" := (bind m (fun x => match x with p => k end))
  (at level 61, p pattern, m at next level, right associativity).

(** [[f(x) for x in l]] for an [f] that may raise. *)
Fixpoint map_res {A B : Type} (f : A -> res B) (l : list A) : res (list B) :=
  match l with
  | [] => Ok []
  | x :: r => y <- f x ;; ys <- map_res f r ;; Ok (y :: ys)
  end.

(** ** [int(str)] and [float(str)] *)

(** Both conversions first bring the text to ASCII: code points below 127 are
    kept, other whitespace becomes a blank, other decimal digits become the
    ASCII digit of their value, and anything else becomes [?], which no
    number contains. *)
Definition to_ascii_number (c : N) : N :=
  if c <? 127 then c
  else if is_space c then 0x20
  else match decimal_value c with
       | Some d => 0x30 + d
       | None => 0x3F
       end.

(** C's [isspace] in the C locale. *)
Definition is_c_space (c : N) : bool := in_range 0x9 0xD c || (c =? 0x20).

Fixpoint lstrip_c (s : str) : str :=
  match s with
  | c :: r => if is_c_space c then lstrip_c r else s
  | [] => []
  end.

Definition strip_c (s : str) : str := rev (lstrip_c (rev (lstrip_c s))).

Definition is_ascii_digit (c : N) : bool := in_range 0x30 0x39 c.

Definition digit_val (c : N) : Z := Z.of_N (c - 0x30).

(** The value of a run of ASCII digits read after [acc]. *)
Definition digits_value (acc : Z) (s : str) : Z :=
  fold_left (fun v c => 10 * v + digit_val c)%Z s acc.

(** The digits of an integer literal in base 10: at least one digit, single
    underscores allowed between digits only.  The result is the run of digits
    with the underscores removed. *)
Fixpoint int_digits (prev_digit : bool) (s : str) : option str :=
  match s with
  | [] => if prev_digit then Some [] else None
  | c :: r =>
      if is_ascii_digit c then option_map (cons c) (int_digits true r)
      else if (c =? 0x5F) && prev_digit
      then match r with
           | d :: _ => if is_ascii_digit d then int_digits false r else None
           | [] => None
           end
      else None
  end.

(** A leading sign. *)
Definition take_sign (s : str) : bool * str :=
  match s with
  | c :: r =>
      if c =? 0x2D then (true, r)
      else if c =? 0x2B then (false, r)
      else (false, s)
  | [] => (false, s)
  end.

(** [int(s)] for a string [s]. *)
Definition py_int (s : str) : res Z :=
  let t := strip_c (map to_ascii_number s) in
  let '(neg, t) := take_sign t in
  match int_digits false t with
  | Some ds => let v := digits_value 0 ds in Ok (if neg then (- v)%Z else v)
  | None => Raise ValueError
  end.

(** *** Binary64 floats *)

(** A [float]: not-a-number, an infinity, or the finite value
    [(-1)^neg * m * 2^e] with [0 <= m <= 2^53] and [-1074 <= e]. *)
Inductive pyfloat :=
| FNan
| FInf (neg : bool)
| FFin (neg : bool) (m e : Z).

Open Scope Z_scope.

(** The fraction [n / (d * 2^e)] as a pair of integers. *)
Definition scale2 (n d e : Z) : Z * Z :=
  if 0 <=? e then (n, d * 2 ^ e) else (n * 2 ^ (- e), d).

(** [n / d] rounded to the nearest integer, ties to even. *)
Definition round_half_even (n d : Z) : Z :=
  let q := n / d in
  match 2 * (n mod d) ?= d with
  | Lt => q
  | Gt => q + 1
  | Eq => if Z.even q then q else q + 1
  end.

(** The binary64 value nearest to [n / d], for [0 <= n] and [0 < d], as a
    significand [m <= 2^53] and an exponent [e >= -1074], before the test for
    overflow.  The exponent is that of the last bit of a 53-bit significand,
    held at -1074 in the subnormal range. *)
Definition b64_round (n d : Z) : Z * Z :=
  if n =? 0 then (0, 0)
  else
    let l := Z.log2 n - Z.log2 d in
    let '(n1, d1) := scale2 n d l in
    let e0 := if n1 <? d1 then l - 1 else l in
    let e := Z.max (e0 - 52) (-1074) in
    let '(n2, d2) := scale2 n d e in
    (round_half_even n2 d2, e).

(** [m * 2^e < 2^1024]: the rounded value is finite. *)
Definition b64_finite (m e : Z) : bool := (m =? 0) || (m <? 2 ^ (1024 - e)).

(** The float nearest to [(-1)^neg * n / d]. *)
Definition float_of_ratio (neg : bool) (n d : Z) : pyfloat :=
  let '(m, e) := b64_round n d in
  if b64_finite m e then FFin neg m e else FInf neg.

(** [float(z)] for an [int]. *)
Definition float_of_int (z : Z) : res pyfloat :=
  match float_of_ratio (z <? 0) (Z.abs z) 1 with
  | FFin s m e => Ok (FFin s m e)
  | _ => Raise OverflowError
  end.

(** [x * y] on floats: the exact product, rounded. *)
Definition fmul (x y : pyfloat) : pyfloat :=
  match x, y with
  | FNan, _ | _, FNan => FNan
  | FInf s, FInf t => FInf (xorb s t)
  | FInf s, FFin t m _ | FFin t m _, FInf s =>
      if m =? 0 then FNan else FInf (xorb s t)
  | FFin s m1 e1, FFin t m2 e2 =>
      let '(n, d) := scale2 (m1 * m2) 1 (- (e1 + e2)) in
      float_of_ratio (xorb s t) n d
  end.

(** [int(x)] for a float: truncation towards zero. *)
Definition int_of_float (x : pyfloat) : res Z :=
  match x with
  | FNan => Raise ValueError
  | FInf _ => Raise OverflowError
  | FFin neg m e => let v := Z.shiftl m e in Ok (if neg then - v else v)
  end.

Open Scope N_scope.

(** Underscores of a numeric literal, as [float] checks them: allowed only
    between two digits; the result is the text without them.  [prev] is the
    character before [s]. *)
Fixpoint drop_underscores (prev : N) (s : str) : option str :=
  match s with
  | [] => if prev =? 0x5F then None else Some []
  | c :: r =>
      if c =? 0x5F
      then if is_ascii_digit prev then drop_underscores c r else None
      else if (prev =? 0x5F) && negb (is_ascii_digit c) then None
      else option_map (cons c) (drop_underscores c r)
  end.

(** The leading ASCII digits of [s] and what follows them. *)
Fixpoint span_digits (s : str) : str * str :=
  match s with
  | c :: r =>
      if is_ascii_digit c
      then let '(ds, t) := span_digits r in (c :: ds, t)
      else ([], s)
  | [] => ([], [])
  end.

(** A decimal literal without sign: digits, an optional point and more
    digits, at least one digit in all, and an optional exponent.  The result
    [(D, x)] stands for [D * 10^x]. *)
Definition parse_decimal (s : str) : option (Z * Z) :=
  let '(ip, r1) := span_digits s in
  let '(fp, r2) := match r1 with
                   | c :: r => if c =? 0x2E then span_digits r else ([], r1)
                   | [] => ([], r1)
                   end in
  match ip ++ fp with
  | [] => None
  | ds =>
      let D := digits_value 0 ds in
      let flen := Z.of_nat (List.length fp) in
      match r2 with
      | [] => Some (D, (- flen)%Z)
      | c :: r3 =>
          if (c =? 0x65) || (c =? 0x45)
          then
            let '(eneg, r4) := take_sign r3 in
            match span_digits r4 with
            | ((_ :: _) as ed, []) =>
                let x := digits_value 0 ed in
                Some (D, ((if eneg then - x else x) - flen)%Z)
            | _ => None
            end
          else None
      end
  end.

(** The float nearest to [(-1)^neg * D * 10^x]. *)
Definition float_of_decimal (neg : bool) (D x : Z) : pyfloat :=
  if (0 <=? x)%Z then float_of_ratio neg (D * 10 ^ x)%Z 1%Z
  else float_of_ratio neg D (10 ^ (- x))%Z.

(** [float(s)] for a string [s]. *)
Definition py_float (s : str) : res pyfloat :=
  match drop_underscores 0 (map to_ascii_number s) with
  | None => Raise ValueError
  | Some t =>
      let '(neg, u) := take_sign (strip_c t) in
      let w := map fold_case u in
      if list_eq_dec N.eq_dec w (lit "inf") then Ok (FInf neg)
      else if list_eq_dec N.eq_dec w (lit "infinity") then Ok (FInf neg)
      else if list_eq_dec N.eq_dec w (lit "nan") then Ok FNan
      else match parse_decimal u with
           | Some (D, x) => Ok (float_of_decimal neg D x)
           | None => Raise ValueError
           end
  end.

(** ** Regular expressions *)

(** The code point of an ASCII character. *)
Definition chr (a : ascii) : N := N_of_ascii a.

(** The members of a character class. *)
Inductive citem :=
| CChar (c : N)            (* a single character *)
| CRange (lo hi : N)       (* lo-hi *)
| CDigit                   (* \d *)
| CSpace                   (* \s *)
| CAny.                    (* . outside brackets: anything but a newline *)

Definition cset := list citem.

Definition in_citem (i : citem) (c : N) : bool :=
  match i with
  | CChar x => c =? x
  | CRange lo hi => in_range lo hi c
  | CDigit => is_decimal c
  | CSpace => is_space c
  | CAny => negb (c =? 0xA)
  end.

(** The classes of the script hold no cased character, so membership is the
    same with and without [re.I]. *)
Definition in_cset (cs : cset) (c : N) : bool := existsb (fun i => in_citem i c) cs.

(** The constructs the patterns of the script are made of. *)
Inductive regex :=
| Lit (s : str)                                         (* literal text *)
| Cls (cs : cset)                                       (* one character of a class *)
| Rep (greedy : bool) (lo : nat) (hi : option nat) (cs : cset)
                                                        (* cs{lo,hi}, cs{lo,hi}? *)
| Opt (r : regex)                                       (* r? *)
| Seq (r1 r2 : regex)                                   (* r1r2 *)
| Alt (r1 r2 : regex)                                   (* r1|r2 *)
| Grp (name : string) (r : regex)                       (* (?P<name>r) *)
| Bos                                                   (* ^ *)
| WordB.                                                (* \b *)

Arguments Rep greedy lo%_nat hi cs.

Infix ">>" := Seq (at level 55, right associativity).

(** A compiled pattern: the expression and the flag [re.I]. *)
Record pattern := { re : regex; ignorecase : bool }.

(** The named groups matched so far, latest first. *)
Definition caps := list (string * str).

Fixpoint lookup (name : string) (c : caps) : option str :=
  match c with
  | [] => None
  | (n, v) :: r => if String.eqb n name then Some v else lookup name r
  end.

(** The matcher walks the subject from left to right.  A position is the
    character before it ([None] at the start of the subject) and the text
    from it on.  A continuation receives the position reached and the groups,
    and returns the groups and the text left at the end of the whole match,
    or [None] to make the matcher try its next choice. *)
Definition cont := option N -> str -> caps -> option (caps * str).

Definition char_eqb (ci : bool) (a b : N) : bool :=
  if ci then fold_case a =? fold_case b else a =? b.

(** Literal text [l] at the head of [s]: the position after it. *)
Fixpoint match_lit (ci : bool) (l : str) (prev : option N) (s : str)
  : option (option N * str) :=
  match l with
  | [] => Some (prev, s)
  | a :: l' =>
      match s with
      | b :: s' => if char_eqb ci a b then match_lit ci l' (Some b) s' else None
      | [] => None
      end
  end.

(** The continuation of a repetition: the groups do not change in it. *)
Definition rcont := option N -> str -> option (caps * str).

(** May a repetition with [hi] iterations left take one more? *)
Definition can_more (hi : option nat) : bool :=
  match hi with Some O => false | _ => true end.

(** A greedy repetition of a class, with [lo] iterations still required and
    [hi] still allowed: one more character first, the continuation when that
    fails. *)
Fixpoint rep_greedy (cs : cset) (lo : nat) (hi : option nat)
    (prev : option N) (s : str) (k : rcont)
  : option (caps * str) :=
  let stop := match lo with O => k prev s | S _ => None end in
  match s with
  | a :: s' =>
      if can_more hi && in_cset cs a
      then match rep_greedy cs (pred lo) (option_map pred hi) (Some a) s' k with
           | Some m => Some m
           | None => stop
           end
      else stop
  | [] => stop
  end.

(** A lazy repetition: the continuation first, one more character when that
    fails. *)
Fixpoint rep_lazy (cs : cset) (lo : nat) (hi : option nat)
    (prev : option N) (s : str) (k : rcont)
  : option (caps * str) :=
  let more :=
    match s with
    | a :: s' =>
        if can_more hi && in_cset cs a
        then rep_lazy cs (pred lo) (option_map pred hi) (Some a) s' k
        else None
    | [] => None
    end in
  match lo with
  | O => match k prev s with
         | Some m => Some m
         | None => more
         end
  | S _ => more
  end.

Definition is_word_at (c : option N) : bool :=
  match c with Some x => is_word x | None => false end.

(** [rmatch ci r prev s c k]: match [r] at the position [(prev, s)] with the
    groups [c], then go on with [k]; the first choice that makes [k] succeed
    wins. *)
Fixpoint rmatch (ci : bool) (r : regex) (prev : option N) (s : str) (c : caps)
    (k : cont) : option (caps * str) :=
  match r with
  | Lit l =>
      match match_lit ci l prev s with
      | Some (prev', s') => k prev' s' c
      | None => None
      end
  | Cls cs =>
      match s with
      | a :: s' => if in_cset cs a then k (Some a) s' c else None
      | [] => None
      end
  | Rep true lo hi cs => rep_greedy cs lo hi prev s (fun p t => k p t c)
  | Rep false lo hi cs => rep_lazy cs lo hi prev s (fun p t => k p t c)
  | Opt r1 =>
      match rmatch ci r1 prev s c k with
      | Some m => Some m
      | None => k prev s c
      end
  | Seq r1 r2 => rmatch ci r1 prev s c (fun p t c' => rmatch ci r2 p t c' k)
  | Alt r1 r2 =>
      match rmatch ci r1 prev s c k with
      | Some m => Some m
      | None => rmatch ci r2 prev s c k
      end
  | Grp name r1 =>
      rmatch ci r1 prev s c
        (fun p t c' => k p t ((name, firstn (List.length s - List.length t) s) :: c'))
  | Bos => match prev with None => k prev s c | Some _ => None end
  | WordB =>
      if xorb (is_word_at prev) (is_word_at (hd_error s)) then k prev s c else None
  end.

(** A match object: where the match starts and ends in the subject, and its
    named groups. *)
Record match_obj := { m_start : nat; m_end : nat; m_groups : caps }.

(** The match of [p] that starts at the position [(prev, s)], which is at
    offset [pos] of the subject. *)
Definition match_here (p : pattern) (prev : option N) (s : str) (pos : nat)
  : option match_obj :=
  match rmatch (ignorecase p) (re p) prev s [] (fun _ t c => Some (c, t)) with
  | Some (c, t) =>
      Some {| m_start := pos; m_end := pos + (List.length s - List.length t);
              m_groups := c |}
  | None => None
  end.

(** [p.match(s)]: a match at the start of the subject only. *)
Definition re_match (p : pattern) (s : str) : option match_obj :=
  match_here p None s 0.

(** [p.search(s)]: the start positions are tried from left to right. *)
Fixpoint search_from (p : pattern) (prev : option N) (s : str) (pos : nat)
  : option match_obj :=
  match match_here p prev s pos with
  | Some m => Some m
  | None =>
      match s with
      | a :: s' => search_from p (Some a) s' (S pos)
      | [] => None
      end
  end.

Definition re_search (p : pattern) (s : str) : option match_obj :=
  search_from p None s 0.

(** [m[name]]: the text of a named group, [None] when the group took no part
    in the match. *)
Definition group (m : match_obj) (name : string) : option str :=
  lookup name (m_groups m).

(** ** The script *)

Open Scope string_scope.
Open Scope list_scope.
Open Scope N_scope.

(** *** Timestamp *)

Definition ws_star : regex := Rep true 0 None [CSpace].

(** [^(?P<ts>[0-9:.\-\s]{19,26})\s+] *)
Definition TS : pattern :=
  {| re := Bos
           >> Grp "ts" (Rep true 19 (Some 26%nat)
                          [CRange (chr "0") (chr "9"); CChar (chr ":");
                           CChar (chr "."); CChar (chr "-"); CSpace])
           >> Rep true 1 None [CSpace];
     ignorecase := false |}.

Definition parse_ts_prefix (line : str) : option str * str :=
  match re_match TS line with
  | None => (None, line)
  | Some m => (group m "ts", skipn (m_end m) line)
  end.

(** *** Sizes and durations *)

Definition mult : list (str * Z) :=
  [ (lit "KB", 2 ^ 10); (lit "MB", 2 ^ 20); (lit "GB", 2 ^ 30); (lit "TB", 2 ^ 40) ]%Z.

(** [d[key]] for a dictionary held as a list of items. *)
Fixpoint getitem (d : list (str * Z)) (key : str) : res Z :=
  match d with
  | [] => Raise KeyError
  | (k, v) :: r => if list_eq_dec N.eq_dec k key then Ok v else getitem r key
  end.

(** The body of the [try] of [parse_size]. *)
Definition parse_size_body (text : str) : res Z :=
  match split (strip text) with
  | [num; unit] =>
      x <- py_float num ;;
      v <- getitem mult (upper unit) ;;
      y <- float_of_int v ;;
      int_of_float (fmul x y)
  | _ => Raise ValueError
  end.

Definition parse_size (text : str) : option Z :=
  match parse_size_body text with
  | Ok v => Some v
  | Raise _ => None
  end.

Definition parse_dur (hms : str) : res Z :=
  l <- map_res py_int (split_on (chr ":") hms) ;;
  match l with
  | [h; m; s] => Ok (h * 3600 + m * 60 + s)%Z
  | _ => Raise ValueError
  end.

(** *** Patterns *)

Definition digit_dot_plus : regex := Rep true 1 None [CDigit; CChar (chr ".")].

Definition lazy_any : regex := Rep false 0 None [CAny].

(** [Bottleneck:\s*Network:\s*(?P<pct>\d{1,3})%], [re.I] *)
Definition BOTTLE : pattern :=
  {| re := Lit (lit "Bottleneck:") >> ws_star >> Lit (lit "Network:") >> ws_star
           >> Grp "pct" (Rep true 1 (Some 3%nat) [CDigit]) >> Lit (lit "%");
     ignorecase := true |}.

(** [Transfer(?:red)?:\s*(?P<bytes>[\d.]+\s*(?:KB|MB|GB|TB))] *)
Definition xfer_size : regex :=
  Lit (lit "Transfer") >> Opt (Lit (lit "red")) >> Lit (lit ":") >> ws_star
  >> Grp "bytes" (digit_dot_plus >> ws_star
                  >> Alt (Lit (lit "KB")) (Alt (Lit (lit "MB"))
                       (Alt (Lit (lit "GB")) (Lit (lit "TB"))))).

Definition two_digits : regex := Rep true 2 (Some 2%nat) [CDigit].

(** [Duration:\s*(?P<dur>\d{2}:\d{2}:\d{2})] *)
Definition xfer_dur : regex :=
  Lit (lit "Duration:") >> ws_star
  >> Grp "dur" (two_digits >> Lit (lit ":") >> two_digits >> Lit (lit ":") >> two_digits).

(** [Avg speed:\s*(?P<spd>[\d.]+\s*(?:KB|MB|GB)/s)] *)
Definition xfer_spd : regex :=
  Lit (lit "Avg speed:") >> ws_star
  >> Grp "spd" (digit_dot_plus >> ws_star
                >> Alt (Lit (lit "KB")) (Alt (Lit (lit "MB")) (Lit (lit "GB")))
                >> Lit (lit "/s")).

(** The three parts above with [.*?] between them, [re.I]. *)
Definition XFER : pattern :=
  {| re := xfer_size >> lazy_any >> xfer_dur >> lazy_any >> xfer_spd;
     ignorecase := true |}.

(** [WAN Accelerator.*?(?:hit|cache hit)[:=]?\s*(?P<hit>\d{1,3})%], [re.I] *)
Definition WAN : pattern :=
  {| re := Lit (lit "WAN Accelerator") >> lazy_any
           >> Alt (Lit (lit "hit")) (Lit (lit "cache hit"))
           >> Opt (Cls [CChar (chr ":"); CChar (chr "=")]) >> ws_star
           >> Grp "hit" (Rep true 1 (Some 3%nat) [CDigit]) >> Lit (lit "%");
     ignorecase := true |}.

(** [\b(?:retry|retries)\s*[:=]?\s*(?P<retries>\d+)\b], [re.I] *)
Definition RETRY : pattern :=
  {| re := WordB >> Alt (Lit (lit "retry")) (Lit (lit "retries")) >> ws_star
           >> Opt (Cls [CChar (chr ":"); CChar (chr "=")]) >> ws_star
           >> Grp "retries" (Rep true 1 None [CDigit]) >> WordB;
     ignorecase := true |}.

(** *** Parsing *)

(** The dictionary [row] of [parse_events]: its seven keys are fixed. *)
Record row := {
  event_time : option str;
  bytes_sent : option Z;
  duration_s : option Z;
  network_bottleneck_pct : option Z;
  wan_cache_hit_pct : option Z;
  retries : option Z;
  message : str
}.

Definition set_bytes_sent (v : option Z) (r : row) : row :=
  {| event_time := event_time r; bytes_sent := v; duration_s := duration_s r;
     network_bottleneck_pct := network_bottleneck_pct r;
     wan_cache_hit_pct := wan_cache_hit_pct r; retries := retries r;
     message := message r |}.

Definition set_duration_s (v : option Z) (r : row) : row :=
  {| event_time := event_time r; bytes_sent := bytes_sent r; duration_s := v;
     network_bottleneck_pct := network_bottleneck_pct r;
     wan_cache_hit_pct := wan_cache_hit_pct r; retries := retries r;
     message := message r |}.

Definition set_network_bottleneck_pct (v : option Z) (r : row) : row :=
  {| event_time := event_time r; bytes_sent := bytes_sent r;
     duration_s := duration_s r; network_bottleneck_pct := v;
     wan_cache_hit_pct := wan_cache_hit_pct r; retries := retries r;
     message := message r |}.

Definition set_wan_cache_hit_pct (v : option Z) (r : row) : row :=
  {| event_time := event_time r; bytes_sent := bytes_sent r;
     duration_s := duration_s r;
     network_bottleneck_pct := network_bottleneck_pct r;
     wan_cache_hit_pct := v; retries := retries r; message := message r |}.

Definition set_retries (v : option Z) (r : row) : row :=
  {| event_time := event_time r; bytes_sent := bytes_sent r;
     duration_s := duration_s r;
     network_bottleneck_pct := network_bottleneck_pct r;
     wan_cache_hit_pct := wan_cache_hit_pct r; retries := v;
     message := message r |}.

(** [int(m[name])]: the conversion raises on a group that took no part. *)
Definition int_group (m : match_obj) (name : string) : res Z :=
  match group m name with
  | Some v => py_int v
  | None => Raise TypeError
  end.

(** The four steps of the loop body on the state [(row, hit)]. *)
Definition step_bottle (msg : str) (st : row * bool) : res (row * bool) :=
  match re_search BOTTLE msg with
  | Some m =>
      v <- int_group m "pct" ;;
      Ok (set_network_bottleneck_pct (Some v) (fst st), true)
  | None => Ok st
  end.

Definition step_xfer (msg : str) (st : row * bool) : res (row * bool) :=
  match re_search XFER msg with
  | Some m =>
      let b := match group m "bytes" with
               | Some t => parse_size t
               | None => None
               end in
      d <- match group m "dur" with
           | Some t => parse_dur t
           | None => Raise AttributeError
           end ;;
      Ok (set_duration_s (Some d) (set_bytes_sent b (fst st)), true)
  | None => Ok st
  end.

Definition step_wan (msg : str) (st : row * bool) : res (row * bool) :=
  match re_search WAN msg with
  | Some m =>
      v <- int_group m "hit" ;;
      Ok (set_wan_cache_hit_pct (Some v) (fst st), true)
  | None => Ok st
  end.

Definition step_retry (msg : str) (st : row * bool) : res (row * bool) :=
  match re_search RETRY msg with
  | Some m =>
      v <- int_group m "retries" ;;
      Ok (set_retries (Some v) (fst st), true)
  | None => Ok st
  end.

(** One turn of the loop of [parse_events]: the row to append, if any. *)
Definition parse_line (raw : str) : res (option row) :=
  let '(ts_text, msg) := parse_ts_prefix raw in
  let row0 :=
    {| event_time := ts_text; bytes_sent := None; duration_s := None;
       network_bottleneck_pct := None; wan_cache_hit_pct := None;
       retries := None; message := msg |} in
  st <- step_bottle msg (row0, false) ;;
  st <- step_xfer msg st ;;
  st <- step_wan msg st ;;
  st <- step_retry msg st ;;
  Ok (if snd st then Some (fst st) else None).

(** The loop of [parse_events], with [out] the list built so far. *)
Fixpoint parse_events_from (out : list row) (lines : list str) : res (list row) :=
  match lines with
  | [] => Ok out
  | raw :: rest =>
      r <- parse_line raw ;;
      parse_events_from (match r with Some x => out ++ [x] | None => out end) rest
  end.

Definition parse_events (lines : list str) : res (list row) :=
  parse_events_from [] lines.

(** *** Validate mode *)

(** Does a search find anything (the truth value of a match object or [None])? *)
Definition found (p : pattern) (msg : str) : bool :=
  match re_search p msg with Some _ => true | None => false end.

(** [any([BOTTLE.search(msg), XFER.search(msg), WAN.search(msg), RETRY.search(msg)])] *)
Definition any_match (msg : str) : bool :=
  existsb (fun p => found p msg) [BOTTLE; XFER; WAN; RETRY].

Definition no_match_notice : str :=
  lit "No recognizable lines found. Share a few sample lines to tune the patterns.".

(** The loop of the validate branch of [main] over the lines the source still
    has to yield: the lines printed so far, the counter [shown], and, at the
    end, the lines that were never asked for. *)
Fixpoint validate_loop (limit : Z) (shown : Z) (printed : list str)
    (lines : list str) : Z * list str * list str :=
  match lines with
  | [] => (shown, printed, [])
  | line :: rest =>
      let '(_, msg) := parse_ts_prefix line in
      if any_match msg
      then
        let printed := printed ++ [line] in
        let shown := (shown + 1)%Z in
        if (limit <=? shown)%Z then (shown, printed, rest)
        else validate_loop limit shown printed rest
      else validate_loop limit shown printed rest
  end.

(** The validate branch: what is printed, and the lines left unread. *)
Definition validate (limit : Z) (lines : list str) : list str * list str :=
  let '(shown, printed, unread) := validate_loop limit 0 [] lines in
  (if (shown =? 0)%Z then printed ++ [no_match_notice] else printed, unread).

(** *** CSV output *)

(** [str(n)] for an [int]. *)
Fixpoint digits_of (fuel : nat) (n : N) (acc : str) : str :=
  match fuel with
  | O => acc
  | S f =>
      let acc' := (0x30 + n mod 10) :: acc in
      if n <? 10 then acc' else digits_of f (n / 10) acc'
  end.

Definition str_of_N (n : N) : str := digits_of (S (N.to_nat (N.log2 n))) n [].

Definition str_of_int (z : Z) : str :=
  if (z <? 0)%Z then chr "-" :: str_of_N (Z.abs_N z) else str_of_N (Z.abs_N z).

(** The value under a key of a row. *)
Inductive value :=
| VNone
| VStr (s : str)
| VInt (z : Z).

Definition opt_str (o : option str) : value :=
  match o with Some s => VStr s | None => VNone end.

Definition opt_int (o : option Z) : value :=
  match o with Some z => VInt z | None => VNone end.

(** [rowdict.get(key, restval)] with the default [restval] of [DictWriter],
    the empty string. *)
Definition row_get (r : row) (key : string) : value :=
  if String.eqb key "event_time" then opt_str (event_time r)
  else if String.eqb key "bytes_sent" then opt_int (bytes_sent r)
  else if String.eqb key "duration_s" then opt_int (duration_s r)
  else if String.eqb key "network_bottleneck_pct" then opt_int (network_bottleneck_pct r)
  else if String.eqb key "wan_cache_hit_pct" then opt_int (wan_cache_hit_pct r)
  else if String.eqb key "retries" then opt_int (retries r)
  else if String.eqb key "message" then VStr (message r)
  else VStr [].

Definition headers : list string :=
  [ "event_time"; "bytes_sent"; "duration_s"; "network_bottleneck_pct";
    "wan_cache_hit_pct"; "retries"; "message" ].

Definition comma : N := 0x2C.
Definition dquote : N := 0x22.
Definition CR : N := 0xD.
Definition LF : N := 0xA.

(** The text of a cell as the writer sees it: [None] is the empty string, an
    [int] is its decimal form. *)
Definition cell_text (v : value) : str :=
  match v with
  | VNone => []
  | VStr s => s
  | VInt z => str_of_int z
  end.

(** The writer of the [excel] dialect quotes a field that holds the
    delimiter, the quote character or a character of the line terminator,
    and doubles the quote characters inside. *)
Definition needs_quotes (c : N) : bool :=
  (c =? comma) || (c =? dquote) || (c =? CR) || (c =? LF).

Definition double_quotes (s : str) : str :=
  flat_map (fun c => if c =? dquote then [dquote; dquote] else [c]) s.

Definition csv_field (s : str) : str :=
  if existsb needs_quotes s then dquote :: double_quotes s ++ [dquote] else s.

Fixpoint join (sep : N) (fields : list str) : str :=
  match fields with
  | [] => []
  | [f] => f
  | f :: r => f ++ sep :: join sep r
  end.

(** [writer.writerow(fields)] for a row of more than one field. *)
Definition csv_writerow (fields : list str) : str :=
  join comma (map csv_field fields) ++ [CR; LF].

(** The fields of a row as [DictWriter] hands them to the writer. *)
Definition row_fields (r : row) : list str :=
  map (fun k => cell_text (row_get r k)) headers.

(** The text [write_csv] leaves in the file: the header row, then one row per
    record. *)
Definition write_csv (rows : list row) : str :=
  csv_writerow (map lit headers)
  ++ flat_map (fun r => csv_writerow (row_fields r)) rows.

(** *** Reading the CSV back *)

(** Modelled from the spec: the reader of the round trip, which the script
    does not contain.  It is Python's [csv.DictReader] on the text of the file
    opened with [newline=''], followed by the decoding of the cells the spec
    asks for: an empty cell is null, a cell of an integer column is read with
    [int]. *)
Inductive rstate :=
| StartRecord           (* before the first character of a record *)
| StartField            (* before the first character of a field *)
| InField               (* inside an unquoted field *)
| InQuoted              (* inside a quoted field *)
| QuoteInQuoted         (* after a quote character inside a quoted field *)
| AfterCR.              (* after a carriage return that ended a record *)

(** The reader's state: the automaton state, the field and the record being
    read (last item first), and the records read (last first). *)
Record reader := {
  r_state : rstate;
  r_field : str;
  r_record : list str;
  r_records : list (list str)
}.

Definition add_char (c : N) (st : rstate) (r : reader) : reader :=
  {| r_state := st; r_field := c :: r_field r; r_record := r_record r;
     r_records := r_records r |}.

Definition save_field (st : rstate) (r : reader) : reader :=
  {| r_state := st; r_field := []; r_record := rev (r_field r) :: r_record r;
     r_records := r_records r |}.

Definition end_record (st : rstate) (r : reader) : reader :=
  {| r_state := st; r_field := []; r_record := [];
     r_records := rev (r_record r) :: r_records r |}.

Definition set_state (st : rstate) (r : reader) : reader :=
  {| r_state := st; r_field := r_field r; r_record := r_record r;
     r_records := r_records r |}.

(** The end of an unquoted line: the field and the record are complete. *)
Definition end_line (c : N) (r : reader) : reader :=
  end_record (if c =? CR then AfterCR else StartRecord) (save_field StartRecord r).

Definition read_char (r : reader) (c : N) : reader :=
  let start_field (r : reader) :=
    if (c =? CR) || (c =? LF) then end_line c r
    else if c =? dquote then set_state InQuoted r
    else if c =? comma then save_field StartField r
    else add_char c InField r in
  let start_record (r : reader) :=
    if c =? CR then end_record AfterCR r
    else if c =? LF then end_record StartRecord r
    else start_field r in
  match r_state r with
  | StartRecord => start_record r
  | AfterCR => if c =? LF then set_state StartRecord r else start_record r
  | StartField => start_field r
  | InField =>
      if (c =? CR) || (c =? LF) then end_line c r
      else if c =? comma then save_field StartField r
      else add_char c InField r
  | InQuoted =>
      if c =? dquote then set_state QuoteInQuoted r else add_char c InQuoted r
  | QuoteInQuoted =>
      if c =? dquote then add_char c InQuoted r
      else if c =? comma then save_field StartField r
      else if (c =? CR) || (c =? LF) then end_line c r
      else add_char c InField r
  end.

(** The end of the text completes a record that is under way. *)
Definition read_end (r : reader) : list (list str) :=
  match r_state r with
  | StartRecord | AfterCR => rev (r_records r)
  | _ => rev (r_records (end_record StartRecord (save_field StartRecord r)))
  end.

(** [list(csv.reader(f))] *)
Definition csv_records (text : str) : list (list str) :=
  read_end (fold_left read_char text
              {| r_state := StartRecord; r_field := []; r_record := [];
                 r_records := [] |}).

(** A record as read back: every cell may be null. *)
Record cells := {
  c_event_time : option str;
  c_bytes_sent : option Z;
  c_duration_s : option Z;
  c_network_bottleneck_pct : option Z;
  c_wan_cache_hit_pct : option Z;
  c_retries : option Z;
  c_message : option str
}.

(** [dict(zip(fieldnames, record))[key]], [None] for a key without cell. *)
Fixpoint cell_of (names : list str) (record : list str) (key : str) : option str :=
  match names, record with
  | n :: ns, v :: vs => if list_eq_dec N.eq_dec n key then Some v else cell_of ns vs key
  | _, _ => None
  end.

(** An empty cell is null. *)
Definition text_cell (c : option str) : option str :=
  match c with
  | Some ((_ :: _) as s) => Some s
  | _ => None
  end.

Definition int_cell (c : option str) : res (option Z) :=
  match text_cell c with
  | Some s => v <- py_int s ;; Ok (Some v)
  | None => Ok None
  end.

Definition decode_record (names record : list str) : res cells :=
  let get k := cell_of names record (lit k) in
  b <- int_cell (get "bytes_sent") ;;
  d <- int_cell (get "duration_s") ;;
  n <- int_cell (get "network_bottleneck_pct") ;;
  w <- int_cell (get "wan_cache_hit_pct") ;;
  t <- int_cell (get "retries") ;;
  Ok {| c_event_time := text_cell (get "event_time"); c_bytes_sent := b;
        c_duration_s := d; c_network_bottleneck_pct := n;
        c_wan_cache_hit_pct := w; c_retries := t;
        c_message := text_cell (get "message") |}.

(** The records of the text under the names of its first row; rows without
    any field are skipped, as [DictReader] does. *)
Definition read_csv (text : str) : res (list cells) :=
  match filter (fun rec => match rec with [] => false | _ => true end)
          (csv_records text) with
  | [] => Ok []
  | names :: records => map_res (decode_record names) records
  end.

(** The cells a row should come back as. *)
Definition cells_of_row (r : row) : cells :=
  {| c_event_time := event_time r; c_bytes_sent := bytes_sent r;
     c_duration_s := duration_s r;
     c_network_bottleneck_pct := network_bottleneck_pct r;
     c_wan_cache_hit_pct := wan_cache_hit_pct r; c_retries := retries r;
     c_message := Some (message r) |}.

(** ** What a pattern matches *)

(** The character before the position reached after reading [w] from a
    position with [prev] before it. *)
Definition last_char (prev : option N) (w : str) : option N :=
  fold_left (fun _ c => Some c) w prev.

(** A number of iterations within the upper bound of a repetition. *)
Definition within (hi : option nat) (n : nat) : Prop :=
  match hi with Some h => (n <= h)%nat | None => True end.

(** [matches ci r prev w t c c']: the expression [r] matches the text [w] when
    [prev] is the character before [w] and [t] the text after it, and the
    groups [c] become [c'].  This is the meaning of the expressions, without
    the order in which the engine tries the choices. *)
Inductive matches (ci : bool)
  : regex -> option N -> str -> str -> caps -> caps -> Prop :=
| M_Lit l prev w t c :
    Forall2 (fun a b => char_eqb ci a b = true) l w ->
    matches ci (Lit l) prev w t c c
| M_Cls cs prev a t c :
    in_cset cs a = true ->
    matches ci (Cls cs) prev [a] t c c
| M_Rep g lo hi cs prev w t c :
    Forall (fun a => in_cset cs a = true) w ->
    (lo <= List.length w)%nat ->
    within hi (List.length w) ->
    matches ci (Rep g lo hi cs) prev w t c c
| M_Opt_some r prev w t c c' :
    matches ci r prev w t c c' ->
    matches ci (Opt r) prev w t c c'
| M_Opt_none r prev t c :
    matches ci (Opt r) prev [] t c c
| M_Seq r1 r2 prev w1 w2 t c c1 c2 :
    matches ci r1 prev w1 (w2 ++ t) c c1 ->
    matches ci r2 (last_char prev w1) w2 t c1 c2 ->
    matches ci (Seq r1 r2) prev (w1 ++ w2) t c c2
| M_Alt_l r1 r2 prev w t c c' :
    matches ci r1 prev w t c c' ->
    matches ci (Alt r1 r2) prev w t c c'
| M_Alt_r r1 r2 prev w t c c' :
    matches ci r2 prev w t c c' ->
    matches ci (Alt r1 r2) prev w t c c'
| M_Grp name r prev w t c c' :
    matches ci r prev w t c c' ->
    matches ci (Grp name r) prev w t c ((name, w) :: c')
| M_Bos t c :
    matches ci Bos None [] t c c
| M_WordB prev t c :
    xorb (is_word_at prev) (is_word_at (hd_error t)) = true ->
    matches ci WordB prev [] t c c.

(** An occurrence of the pattern [p] in [pre ++ w ++ post]: the pattern
    matches [w] there, with the groups [c]. *)
Definition occurrence (p : pattern) (pre w post : str) (c : caps) : Prop :=
  matches (ignorecase p) (re p) (last_char None pre) w post [] c.


(** ** The notions the properties are stated with *)

(** A character a timestamp may be made of: a digit, a colon, a period, a
    hyphen or whitespace. *)
Definition ts_char (c : N) : bool :=
  in_range (chr "0") (chr "9") c || (c =? chr ":") || (c =? chr ".")
  || (c =? chr "-") || is_space c.

(** The first [n] characters of [line] are a run of 19 to 26 timestamp
    characters, and a whitespace character follows them. *)
Definition ts_run (line : str) (n : nat) : Prop :=
  (19 <= n <= 26)%nat
  /\ List.length (firstn n line) = n
  /\ Forall (fun c => ts_char c = true) (firstn n line)
  /\ exists c, nth_error line n = Some c /\ is_space c = true.

(** [n] characters may be taken by a repetition of the class [cs] with [lo]
    iterations required and [hi] allowed at the head of [s]. *)
Definition admissible (cs : cset) (lo : nat) (hi : option nat) (s : str)
    (n : nat) : Prop :=
  (lo <= n)%nat /\ within hi n /\ (n <= List.length s)%nat
  /\ Forall (fun a => in_cset cs a = true) (firstn n s).

(** The class of the timestamp group of [TS], and what follows the group in
    the pattern: whitespace, then the end of the match. *)
Definition ts_class_items : cset :=
  [CRange (chr "0") (chr "9"); CChar (chr ":"); CChar (chr "."); CChar (chr "-");
   CSpace].

Definition ts_cont (line : str) : rcont :=
  fun p t =>
    rep_greedy [CSpace] 1 None p t
      (fun _ t' => Some ([("ts", firstn (List.length line - List.length t) line)], t')).

(** [ts_run] as a test. *)
Definition ts_runb (line : str) (n : nat) : bool :=
  (19 <=? n)%nat && (n <=? 26)%nat
  && (List.length (firstn n line) =? n)%nat
  && forallb ts_char (firstn n line)
  && match nth_error line n with Some c => is_space c | None => false end.

(** All the characters of [s] are whitespace. *)
Definition all_space (s : str) : Prop := Forall (fun c => is_space c = true) s.

(** A token: not empty, no whitespace inside. *)
Definition token (s : str) : Prop :=
  s <> [] /\ Forall (fun c => is_space c = false) s.

(** [D * 10^x * 2^k] truncated to an integer, in exact arithmetic. *)
Definition exact_size (D x k : Z) : Z :=
  if (0 <=? x)%Z then (D * 10 ^ x * 2 ^ k)%Z
  else ((D * 2 ^ k) / 10 ^ (- x))%Z.

(** The character [c] is the capital letter [u] or its small form. *)
Definition same_letter (u c : N) : Prop := c = u \/ c = u + 32.

(** [unit] is one of KB, MB, GB, TB in any mix of cases, and [k] the exponent
    of its multiplier [2^k]. *)
Definition unit_of (unit : str) (k : Z) : Prop :=
  (Forall2 same_letter (lit "KB") unit /\ k = 10%Z)
  \/ (Forall2 same_letter (lit "MB") unit /\ k = 20%Z)
  \/ (Forall2 same_letter (lit "GB") unit /\ k = 30%Z)
  \/ (Forall2 same_letter (lit "TB") unit /\ k = 40%Z).

(** A decimal numeral: digits, then maybe a point and more digits. *)
Definition numeral (ip : str) (frac : option str) : str :=
  ip ++ match frac with Some fp => chr "." :: fp | None => [] end.

Definition frac_digits (frac : option str) : str :=
  match frac with Some fp => fp | None => [] end.

(** A character of a numeral brought to ASCII: a digit or the point. *)
Definition num_char (c : N) : Prop := is_ascii_digit c = true \/ c = 0x2E.

(** The size the script computes for the number [D / 10^f] and the unit
    [2^k]: the binary64 value nearest to the number, times [2^k], truncated to
    an integer; nothing when the product is beyond the range of binary64. *)
Definition b64_size (D : Z) (f : nat) (k : Z) : option Z :=
  let '(m, e) := b64_round D (10 ^ Z.of_nat f) in
  if b64_finite m (e + k) then Some (Z.shiftl m (e + k)) else None.

(** [n / d < 2^e] *)
Definition below (n d e : Z) : Prop :=
  if (0 <=? e)%Z then (n < d * 2 ^ e)%Z else (n * 2 ^ (- e) < d)%Z.

(** The number a run of decimal digits stands for. *)
Definition number_of (w : str) : Z :=
  fold_left (fun v c => match decimal_value c with
                        | Some d => 10 * v + Z.of_N d
                        | None => v
                        end)%Z w 0%Z.

(** A run of decimal digits, not empty. *)
Definition digits (w : str) : Prop :=
  w <> [] /\ Forall (fun c => is_decimal c = true) w.

(** A line the validate mode and [parse_events] recognise. *)
Definition recognised (line : str) : bool :=
  any_match (snd (parse_ts_prefix line)).

(** The value an extractor records for an integer field: the group [name] of
    the match that [search] returns, read with [int]. *)
Definition extracted (p : pattern) (name : string) (msg : str) : option Z :=
  match re_search p msg with
  | Some m => match int_group m name with Ok v => Some v | Raise _ => None end
  | None => None
  end.

(** The values the transfer extractor records. *)
Definition extracted_size (msg : str) : option Z :=
  match re_search XFER msg with
  | Some m => match group m "bytes" with Some t => parse_size t | None => None end
  | None => None
  end.

Definition extracted_duration (msg : str) : option Z :=
  match re_search XFER msg with
  | Some m =>
      match group m "dur" with
      | Some t => match parse_dur t with Ok v => Some v | Raise _ => None end
      | None => None
      end
  | None => None
  end.

(** The row of a recognised line: each field comes from its own extractor. *)
Definition row_of (raw : str) : row :=
  let msg := snd (parse_ts_prefix raw) in
  {| event_time := fst (parse_ts_prefix raw);
     bytes_sent := extracted_size msg;
     duration_s := extracted_duration msg;
     network_bottleneck_pct := extracted BOTTLE "pct" msg;
     wan_cache_hit_pct := extracted WAN "hit" msg;
     retries := extracted RETRY "retries" msg;
     message := msg |}.

(** The message holds, in this order and with any text between them, a
    transfer size, a duration and an average speed, as the three parts of
    [XFER] describe them. *)
Definition transfer_parts (msg : str) : Prop :=
  exists pre a g1 b g2 d post c1 c2 c3 c4 c5 c6,
    msg = pre ++ a ++ g1 ++ b ++ g2 ++ d ++ post
    /\ matches true xfer_size (last_char None pre) a
         (g1 ++ b ++ g2 ++ d ++ post) c1 c2
    /\ matches true xfer_dur (last_char None (pre ++ a ++ g1)) b
         (g2 ++ d ++ post) c3 c4
    /\ matches true xfer_spd (last_char None (pre ++ a ++ g1 ++ b ++ g2)) d
         post c5 c6.

(** Does an expression hold a group? *)
Fixpoint has_group (r : regex) : bool :=
  match r with
  | Grp _ _ => true
  | Opt r1 => has_group r1
  | Seq r1 r2 | Alt r1 r2 => has_group r1 || has_group r2
  | _ => false
  end.

(** A row as it comes out of [parse_events]: one of its lines made it. *)
Definition event_record (r : row) : Prop :=
  exists line, parse_line line = Ok (Some r).

(** The text fields of the row are not empty: its message, and its timestamp
    when it has one. *)
Definition text_filled (r : row) : Prop :=
  message r <> [] /\ event_time r <> Some [].

(** A reader state. *)
Definition mk_reader (st : rstate) (fld : str) (rcd : list str)
    (rcds : list (list str)) : reader :=
  {| r_state := st; r_field := fld; r_record := rcd; r_records := rcds |}.

(** ** Proof steps *)

(** Splits the hypothesis [M], a match of a sequence, by the inversion lemma
    [L] into the match of its head and the match of its tail, which stays
    [M]. *)
Ltac split_by L M :=
  let w1 := fresh "w" in
  let w2 := fresh "w" in
  let c1 := fresh "c" in
  let E := fresh "E" in
  let M1 := fresh "M" in
  apply L in M; destruct M as (w1 & w2 & c1 & E & M1 & M); try subst.

(** Uses the hypothesis [M], a match of an expression without groups, by the
    lemma [L] that such a match leaves the groups as they are. *)
Ltac plain_by L M := apply L in M; [subst | reflexivity].

(** ** Sample lines *)

(** A timestamp of 19 characters, two blanks, a message. *)
Definition line_two_blanks : str := lit "2024-05-01 10:00:00  job started".

Definition line_no_timestamp : str := lit "job started".

Definition line_bottleneck : str := lit "Bottleneck: Network: 87%".

Definition line_retry_bottleneck : str :=
  lit "2024-05-01 10:00:00 Bottleneck: Network: 87% retries: 3".


Definition line_two_transfers : str :=
  lit "Transfer: 1 KB Duration: 00:00:01 Avg speed: 1 KB/s "
  ++ lit "Transfer: 2 KB Duration: 00:00:02 Avg speed: 2 KB/s".


Definition line_two_retries : str := lit "retry 1 retry 2".

(** ** Reading the logs *)

(** *** The text of a file *)

(** The files are opened with [encoding="utf-8", errors="ignore"]: the bytes
    are decoded as UTF-8, and a byte that cannot start a character, or a
    character cut short by a byte that cannot continue it or by the end of
    the data, is dropped.  A byte is a number below 256. *)
Definition is_cont (b : N) : bool := in_range 0x80 0xBF b.

(** The bounds of the second byte after the first byte [b0] of a character of
    three or four bytes: they keep out the overlong forms, the surrogates and
    the code points beyond U+10FFFF. *)
Definition second_lo (b0 : N) : N :=
  if b0 =? 0xE0 then 0xA0 else if b0 =? 0xF0 then 0x90 else 0x80.

Definition second_hi (b0 : N) : N :=
  if b0 =? 0xED then 0x9F else if b0 =? 0xF4 then 0x8F else 0xBF.

Fixpoint utf8_decode (data : list N) : str :=
  match data with
  | [] => []
  | b0 :: r =>
      if b0 <? 0x80 then b0 :: utf8_decode r
      else if b0 <? 0xC2 then utf8_decode r
      else if b0 <? 0xE0 then
        match r with
        | [] => []
        | b1 :: r1 =>
            if is_cont b1
            then (b0 * 64 + b1 - (0xC0 * 64 + 0x80)) :: utf8_decode r1
            else utf8_decode r
        end
      else if b0 <? 0xF0 then
        match r with
        | [] => []
        | b1 :: r1 =>
            if in_range (second_lo b0) (second_hi b0) b1
            then match r1 with
                 | [] => []
                 | b2 :: r2 =>
                     if is_cont b2
                     then (b0 * 4096 + b1 * 64 + b2
                           - (0xE0 * 4096 + 0x80 * 64 + 0x80)) :: utf8_decode r2
                     else utf8_decode r1
                 end
            else utf8_decode r
        end
      else if b0 <? 0xF5 then
        match r with
        | [] => []
        | b1 :: r1 =>
            if in_range (second_lo b0) (second_hi b0) b1
            then match r1 with
                 | [] => []
                 | b2 :: r2 =>
                     if is_cont b2
                     then match r2 with
                          | [] => []
                          | b3 :: r3 =>
                              if is_cont b3
                              then (b0 * 262144 + b1 * 4096 + b2 * 64 + b3
                                    - (0xF0 * 262144 + 0x80 * 4096 + 0x80 * 64 + 0x80))
                                   :: utf8_decode r3
                              else utf8_decode r2
                          end
                     else utf8_decode r1
                 end
            else utf8_decode r
        end
      else utf8_decode r
  end.

(** The files are opened without a [newline] argument: a carriage return
    followed by a line feed, and a carriage return alone, are read as one
    line feed. *)
Fixpoint translate_newlines (s : str) : str :=
  match s with
  | [] => []
  | c :: r =>
      if c =? CR
      then LF :: match r with
                 | d :: r' => if d =? LF then translate_newlines r'
                              else translate_newlines r
                 | [] => []
                 end
      else c :: translate_newlines r
  end.

(** [for line in fh]: the lines of the text, each with the line feed that
    ends it; the last line has none when the text does not end with one.
    [cur] is the line being read, last character first. *)
Fixpoint readlines_from (cur : str) (s : str) : list str :=
  match s with
  | [] => match cur with [] => [] | _ => [rev cur] end
  | c :: r =>
      if c =? LF then rev (c :: cur) :: readlines_from [] r
      else readlines_from (c :: cur) r
  end.

Definition readlines (s : str) : list str := readlines_from [] s.

(** [s.lstrip(chars)] and [s.rstrip(chars)]. *)
Fixpoint lstrip_chars (chars : str) (s : str) : str :=
  match s with
  | c :: r => if existsb (N.eqb c) chars then lstrip_chars chars r else s
  | [] => []
  end.

Definition rstrip_chars (chars : str) (s : str) : str :=
  rev (lstrip_chars chars (rev s)).

(** The lines [yield_lines] yields for one file with the bytes [data]. *)
Definition file_lines (data : list N) : list str :=
  map (rstrip_chars [LF]) (readlines (translate_newlines (utf8_decode data))).

(** *** Files and folders *)

(** What a path leads to: a file, with its bytes when it can be opened for
    reading, or a folder with its entries under their names, in the order in
    which the system lists them.  A path that leads to nothing is a file that
    cannot be opened.  Symbolic links are left out, and so are failures in the
    middle of reading a file that was opened. *)
#[warnings="-register-all"]
Inductive entry :=
| File (data : option (list N))
| Folder (items : list (str * entry)).

(** Two texts are the same, up to the case of the letters when [ci] is set. *)
Fixpoint same_text (ci : bool) (a b : str) : bool :=
  match a, b with
  | [], [] => true
  | x :: a', y :: b' => char_eqb ci x y && same_text ci a' b'
  | _, _ => false
  end.

(** The name matches the pattern [*.log]: it ends with [.log].  [ci] is set
    where the names of the file system are compared without their case (on
    Windows). *)
Definition fnmatch_log (ci : bool) (name : str) : bool :=
  same_text ci (lit ".log") (skipn (List.length name - 4) name).

(** [path.rglob("*.log")] on a folder: the entries of the folder whose name
    matches, files and folders alike, and then those of its sub-folders, each
    sub-folder in turn. *)
Fixpoint rglob_log (ci : bool) (e : entry) : list entry :=
  match e with
  | File _ => []
  | Folder items =>
      map snd (filter (fun it => fnmatch_log ci (fst it)) items)
      ++ flat_map (fun it => rglob_log ci (snd it)) items
  end.

(** What the script can fail with: an error of the operating system, or one
    of the exceptions of the parsing functions. *)
Inductive error :=
| OSError
| Python (e : exn).

Inductive outcome (A : Type) : Type :=
| Returns (a : A)
| Fails (e : error).

Arguments Returns {A} a.
Arguments Fails {A} e.

(** [with f.open("r", encoding="utf-8", errors="ignore") as fh:] and the loop
    over the lines of [fh]; opening a folder, or a file that cannot be read,
    fails. *)
Definition open_lines (f : entry) : outcome (list str) :=
  match f with
  | File (Some data) => Returns (file_lines data)
  | File None => Fails OSError
  | Folder _ => Fails OSError
  end.

(** [yield_lines]: all the lines the generator yields.  In a folder, an entry
    that fails is passed over. *)
Definition yield_lines (ci : bool) (path : entry) : outcome (list str) :=
  match path with
  | Folder _ =>
      Returns (flat_map (fun f => match open_lines f with
                                  | Returns ls => ls
                                  | Fails _ => []
                                  end)
                 (rglob_log ci path))
  | File _ => open_lines path
  end.

(** *** The two commands *)

(** The input of a command: the last component of the path given
    ([p.name]) and what the path leads to. *)
Record input := { p_name : str; p_entry : entry }.


(** [name.rfind(".")]: the offset of the last period of [name]. *)
Fixpoint rfind_dot (name : str) : option nat :=
  match name with
  | [] => None
  | c :: r =>
      match rfind_dot r with
      | Some i => Some (S i)
      | None => if c =? chr "." then Some O else None
      end
  end.

(** [p.stem]: the name without its last suffix; a period at the head or at
    the end of the name starts no suffix. *)
Definition stem (name : str) : str :=
  match rfind_dot name with
  | Some i =>
      if (0 <? i)%nat && (i <? List.length name - 1)%nat then firstn i name
      else name
  | None => name
  end.

(** [p.stem if p.is_file() else p.name] *)
Definition input_base (p : input) : str :=
  match p_entry p with
  | File _ => stem (p_name p)
  | Folder _ => p_name p
  end.

(** Where the CSV goes: the path given with [--out], or a name in the folder
    of the script. *)
Inductive out_path :=
| Given (path : str)
| InScriptDir (name : str).

(** What the scan branch of [main] leaves: the file written, its text, and
    the number of events the closing message reports. *)
Record scanned := {
  csv_path : out_path;
  csv_text : str;
  events : nat
}.

(** The scan branch of [main]; [out] is the argument of [--out], if any.
    The folder of the output is taken to exist or to be creatable, and the
    file to be writable. *)
Definition main_scan (ci : bool) (p : input) (out : option str) : outcome scanned :=
  match yield_lines ci (p_entry p) with
  | Fails e => Fails e
  | Returns lines =>
      match parse_events lines with
      | Raise e => Fails (Python e)
      | Ok rows =>
          let auto_out := InScriptDir (input_base p ++ lit ".csv") in
          let path := match out with
                      | Some ((_ :: _) as o) => Given o
                      | _ => auto_out
                      end in
          Returns {| csv_path := path; csv_text := write_csv rows;
                     events := List.length rows |}
      end
  end.

(** ** More notions for the properties *)

(** No line break inside a text. *)
Definition no_break (s : str) : Prop := ~ In CR s /\ ~ In LF s.

(** A Unicode scalar value: a code point that is no surrogate, the
    characters a text can be encoded from. *)
Definition scalar_value (c : N) : Prop :=
  c < 0xD800 \/ (0xE000 <= c /\ c <= 0x10FFFF).

(** The bytes with every line feed turned into carriage return and line feed,
    and into a carriage return alone. *)
Definition to_crlf (data : list N) : list N :=
  flat_map (fun b => if b =? LF then [CR; LF] else [b]) data.

Definition to_cr (data : list N) : list N :=
  map (fun b => if b =? LF then CR else b) data.

(** The text of the physical line of the CSV for the fields [fields]. *)
Definition csv_line (fields : list str) : str := join comma (map csv_field fields).

(** A float that is not negative (not-a-number has no sign to speak of). *)
Definition float_nonneg (x : pyfloat) : Prop :=
  match x with
  | FNan => True
  | FInf neg => neg = false
  | FFin neg m _ => neg = false /\ (0 <= m)%Z
  end.

(** No text the expression matches holds the character [x]. *)
Fixpoint avoids (ci : bool) (r : regex) (x : N) : bool :=
  match r with
  | Lit l => forallb (fun a => negb (char_eqb ci a x)) l
  | Cls cs | Rep _ _ _ cs => negb (in_cset cs x)
  | Opt r1 | Grp _ r1 => avoids ci r1 x
  | Seq r1 r2 | Alt r1 r2 => avoids ci r1 x && avoids ci r2 x
  | Bos | WordB => true
  end.

(** The expression inside the group [bytes] of [XFER]. *)
Definition size_text : regex :=
  digit_dot_plus >> ws_star
  >> Alt (Lit (lit "KB")) (Alt (Lit (lit "MB")) (Alt (Lit (lit "GB")) (Lit (lit "TB")))).

(** The pieces of a text cut at its line feeds, without the empty piece that
    follows a line feed at the very end. *)
Fixpoint drop_last_empty (pieces : list str) : list str :=
  match pieces with
  | [] => []
  | [p] => match p with [] => [] | _ => [p] end
  | p :: r => p :: drop_last_empty r
  end.

(** The byte order mark, as a character and as its three bytes in UTF-8. *)
Definition BOM : N := 0xFEFF.

Definition bom_bytes : list N := [0xEF; 0xBB; 0xBF].

(** ** Sample files *)

(** A log of four lines, one of them empty, without a line feed at the
    end. *)
Definition log_bytes : list N :=
  line_retry_bottleneck ++ [LF] ++ line_no_timestamp ++ [LF] ++ [LF]
  ++ line_bottleneck.

(** A folder: a log, a file that is no log, a log that cannot be read, and a
    sub-folder whose name ends with [.log], with a log that starts with a
    byte order mark. *)
Definition sample_folder : entry :=
  Folder [ (lit "a.log", File (Some log_bytes));
           (lit "notes.txt", File (Some (lit "retries: 9")));
           (lit "locked.log", File None);
           (lit "old.log",
            Folder [ (lit "b.log",
                      File (Some (bom_bytes ++ line_two_retries ++ [CR; LF]))) ]) ].

(** The folder above, given as [logs]. *)
Definition sample_input : input := {| p_name := lit "logs"; p_entry := sample_folder |}.

(** The lines an entry found by [rglob] adds: those of a file that can be
    read, none otherwise. *)
Definition entry_lines (f : entry) : list str :=
  match f with
  | File (Some data) => file_lines data
  | _ => []
  end.

(** ** Letter case *)

(** Two characters that [re.I] does not tell apart, and two texts made of
    such characters. *)
Definition folds_alike (a b : N) : Prop := fold_case a = fold_case b.

Definition alike (s t : str) : Prop := Forall2 folds_alike s t.

(** The characters [fold_case] moves or meets: the ASCII letters and the four
    code points folded onto one of them. *)
Definition cased (c : N) : bool :=
  in_range 0x41 0x5A c || in_range 0x61 0x7A c
  || (c =? 0x130) || (c =? 0x131) || (c =? 0x17F) || (c =? 0x212A).

(** A class that holds both or none of two characters that fold alike, and
    an expression made of such classes. *)
Definition class_blind (cs : cset) : Prop :=
  forall a b, folds_alike a b -> in_cset cs a = in_cset cs b.

Fixpoint blind (r : regex) : Prop :=
  match r with
  | Cls cs | Rep _ _ _ cs => class_blind cs
  | Opt r1 | Grp _ r1 => blind r1
  | Seq r1 r2 | Alt r1 r2 => blind r1 /\ blind r2
  | Lit _ | Bos | WordB => True
  end.

(** The same character before a position, up to case. *)
Definition alike_before (p q : option N) : Prop :=
  match p, q with
  | None, None => True
  | Some a, Some b => folds_alike a b
  | _, _ => False
  end.

(** The sample line with a retry count and a bottleneck, in capitals. *)
Definition line_capitals : str :=
  lit "2024-05-01 10:00:00 BOTTLENECK: NETWORK: 87% RETRIES: 3".

(** A retry count of two digits inside a sentence. *)
Definition line_retries : str := lit "job retries: 35 times".

(** ** Writing the text *)

(** The CSV is written with [encoding="utf-8"]: the bytes of one character,
    none for a surrogate, which makes the writing fail. *)
Definition encode_char (c : N) : option (list N) :=
  if c <? 0x80 then Some [c]
  else if c <? 0x800 then Some [0xC0 + c / 64; 0x80 + c mod 64]
  else if c <? 0x10000 then
    if in_range 0xD800 0xDFFF c then None
    else Some [0xE0 + c / 4096; 0x80 + (c / 64) mod 64; 0x80 + c mod 64]
  else if c <? 0x110000 then
    Some [0xF0 + c / 262144; 0x80 + (c / 4096) mod 64; 0x80 + (c / 64) mod 64;
          0x80 + c mod 64]
  else None.

Fixpoint utf8_encode (s : str) : option (list N) :=
  match s with
  | [] => Some []
  | c :: r =>
      match encode_char c, utf8_encode r with
      | Some b, Some bs => Some (b ++ bs)
      | _, _ => None
      end
  end.

(** Two lines with characters of two, three and four bytes. *)
Definition utf8_lines : list str :=
  [lit "retries: 3 caf" ++ [0xE9]; [0x20AC; 0x1F600]].

(** ** More proof steps *)

(** Linear arithmetic with quotients and remainders by constants. *)
Ltac euclid := zify; Z.to_euclidean_division_equations; lia.

(** * Properties *)

(** ** The matcher and the meaning of the expressions *)

Lemma last_char_app prev w1 w2 :
  last_char prev (w1 ++ w2) = last_char (last_char prev w1) w2.
Proof. apply fold_left_app. Qed.

Lemma firstn_prefix (w t : str) :
  firstn (List.length (w ++ t) - List.length t) (w ++ t) = w.
Proof.
  rewrite length_app, Nat.add_sub.
  rewrite firstn_app, Nat.sub_diag, firstn_all. simpl. apply app_nil_r.
Qed.

Lemma within_pred hi n :
  can_more hi = true -> within (option_map pred hi) n -> within hi (S n).
Proof.
  destruct hi as [[|h]|]; simpl; intros; try discriminate; try lia; auto.
Qed.

Lemma within_succ hi n :
  within hi (S n) -> can_more hi = true /\ within (option_map pred hi) n.
Proof.
  destruct hi as [[|h]|]; simpl; intros; split; auto; lia.
Qed.

Lemma match_lit_sound ci l : forall prev s p' s',
  match_lit ci l prev s = Some (p', s') ->
  exists w, s = w ++ s'
            /\ Forall2 (fun a b => char_eqb ci a b = true) l w
            /\ p' = last_char prev w.
Proof.
  induction l as [|a l IH]; simpl; intros prev s p' s' H.
  - inversion H; subst. exists []. auto.
  - destruct s as [|b s0]; try discriminate.
    destruct (char_eqb ci a b) eqn:E; try discriminate.
    destruct (IH _ _ _ _ H) as (w & -> & F & ->).
    exists (b :: w). auto.
Qed.

Lemma match_lit_complete ci l : forall w prev t,
  Forall2 (fun a b => char_eqb ci a b = true) l w ->
  match_lit ci l prev (w ++ t) = Some (last_char prev w, t).
Proof.
  induction l as [|a l IH]; intros w prev t F; inversion F; subst; simpl.
  - reflexivity.
  - rewrite H1. apply IH. assumption.
Qed.

Lemma rep_greedy_sound cs : forall s lo hi prev (k : rcont) res,
  rep_greedy cs lo hi prev s k = Some res ->
  exists w t, s = w ++ t
              /\ Forall (fun a => in_cset cs a = true) w
              /\ (lo <= List.length w)%nat /\ within hi (List.length w)
              /\ k (last_char prev w) t = Some res.
Proof.
  assert (Stop : forall (s : str) lo hi prev (k : rcont) res,
             match lo with O => k prev s | S _ => None end = Some res ->
             exists w t, s = w ++ t
              /\ Forall (fun a => in_cset cs a = true) w
              /\ (lo <= List.length w)%nat /\ within hi (List.length w)
              /\ k (last_char prev w) t = Some res).
  { intros s lo hi prev k res H. destruct lo; try discriminate.
    exists [], s. repeat split; auto.
    destruct hi; simpl; auto; lia. }
  induction s as [|a s IH]; intros lo hi prev k res H; simpl in H.
  - eapply Stop; eauto.
  - destruct (can_more hi && in_cset cs a) eqn:E; [|eapply Stop; eauto].
    apply andb_prop in E. destruct E as [Ec Ea].
    destruct (rep_greedy cs (pred lo) (option_map pred hi) (Some a) s k) eqn:R;
      [|eapply Stop; eauto].
    inversion H; subst.
    destruct (IH _ _ _ _ _ R) as (w & t & -> & F & L & W & K).
    exists (a :: w), t. repeat split; auto.
    + simpl. lia.
    + simpl. apply within_pred; auto.
Qed.

Lemma rep_lazy_sound cs : forall s lo hi prev (k : rcont) res,
  rep_lazy cs lo hi prev s k = Some res ->
  exists w t, s = w ++ t
              /\ Forall (fun a => in_cset cs a = true) w
              /\ (lo <= List.length w)%nat /\ within hi (List.length w)
              /\ k (last_char prev w) t = Some res.
Proof.
  induction s as [|a s IH]; intros lo hi prev k res H; simpl in H.
  - destruct lo; try discriminate.
    destruct (k prev []) eqn:K; try discriminate. inversion H; subst.
    exists [], []. repeat split; auto. destruct hi; simpl; auto; lia.
  - assert (More : (if can_more hi && in_cset cs a
                    then rep_lazy cs (pred lo) (option_map pred hi) (Some a) s k
                    else None) = Some res ->
                   exists w t, a :: s = w ++ t
                     /\ Forall (fun a => in_cset cs a = true) w
                     /\ (lo <= List.length w)%nat /\ within hi (List.length w)
                     /\ k (last_char prev w) t = Some res).
    { intros M. destruct (can_more hi && in_cset cs a) eqn:E; try discriminate.
      apply andb_prop in E. destruct E as [Ec Ea].
      destruct (IH _ _ _ _ _ M) as (w & t & -> & F & L & W & K).
      exists (a :: w), t. repeat split; auto.
      - simpl. lia.
      - simpl. apply within_pred; auto. }
    destruct lo; [|apply More; assumption].
    destruct (k prev (a :: s)) eqn:K; [|apply More; assumption].
    inversion H; subst.
    exists [], (a :: s). repeat split; auto. destruct hi; simpl; auto; lia.
Qed.

Lemma rep_greedy_complete cs : forall w lo hi prev t (k : rcont) res,
  Forall (fun a => in_cset cs a = true) w ->
  (lo <= List.length w)%nat -> within hi (List.length w) ->
  k (last_char prev w) t = Some res ->
  exists res', rep_greedy cs lo hi prev (w ++ t) k = Some res'.
Proof.
  induction w as [|a w IH]; intros lo hi prev t k res F L W K.
  - simpl in L. assert (lo = O) by lia. subst lo. simpl in K.
    destruct t as [|b t]; simpl.
    + eauto.
    + destruct (can_more hi && in_cset cs b); eauto.
      destruct (rep_greedy cs 0 (option_map pred hi) (Some b) t k); eauto.
  - inversion F; subst. simpl in L, W. apply within_succ in W.
    destruct W as [Wc Wp]. simpl. rewrite Wc, H1. simpl.
    destruct (IH (pred lo) (option_map pred hi) (Some a) t k res) as [r' R];
      auto; try lia.
    rewrite R. eauto.
Qed.

Lemma rep_lazy_complete cs : forall w lo hi prev t (k : rcont) res,
  Forall (fun a => in_cset cs a = true) w ->
  (lo <= List.length w)%nat -> within hi (List.length w) ->
  k (last_char prev w) t = Some res ->
  exists res', rep_lazy cs lo hi prev (w ++ t) k = Some res'.
Proof.
  induction w as [|a w IH]; intros lo hi prev t k res F L W K.
  - simpl in L. assert (lo = O) by lia. subst lo. simpl in K.
    destruct t as [|b t]; simpl; rewrite K; eauto.
  - inversion F; subst. simpl in L, W. apply within_succ in W.
    destruct W as [Wc Wp].
    destruct (IH (pred lo) (option_map pred hi) (Some a) t k res) as [r' R];
      auto; try lia.
    simpl. rewrite Wc, H1. simpl.
    destruct lo; [|eauto].
    destruct (k prev (a :: w ++ t)); eauto.
Qed.

(** Whatever the matcher finds is a match in the sense of [matches]. *)
Lemma rmatch_sound ci r : forall prev s c k res,
  rmatch ci r prev s c k = Some res ->
  exists w t c', s = w ++ t
                 /\ matches ci r prev w t c c'
                 /\ k (last_char prev w) t c' = Some res.
Proof.
  induction r as [l|cs|g lo hi cs|r IH|r1 IH1 r2 IH2|r1 IH1 r2 IH2|name r IH| |];
    intros prev s c k res H; simpl in H.
  - destruct (match_lit ci l prev s) as [[p' s']|] eqn:E; try discriminate.
    apply match_lit_sound in E. destruct E as (w & -> & F & ->).
    exists w, s', c. repeat split; auto. constructor; assumption.
  - destruct s as [|a s]; try discriminate.
    destruct (in_cset cs a) eqn:E; try discriminate.
    exists [a], s, c. repeat split; auto. constructor; assumption.
  - destruct g.
    + apply rep_greedy_sound in H. destruct H as (w & t & -> & F & L & W & K).
      exists w, t, c. repeat split; auto. constructor; assumption.
    + apply rep_lazy_sound in H. destruct H as (w & t & -> & F & L & W & K).
      exists w, t, c. repeat split; auto. constructor; assumption.
  - destruct (rmatch ci r prev s c k) eqn:E.
    + inversion H; subst.
      destruct (IH _ _ _ _ _ E) as (w & t & c' & -> & M & K).
      exists w, t, c'. repeat split; auto. apply M_Opt_some; assumption.
    + exists [], s, c. repeat split; auto. apply M_Opt_none.
  - destruct (IH1 _ _ _ _ _ H) as (w1 & t1 & c1 & -> & M1 & K1).
    destruct (IH2 _ _ _ _ _ K1) as (w2 & t & c2 & -> & M2 & K2).
    exists (w1 ++ w2), t, c2. rewrite app_assoc. repeat split; auto.
    + econstructor; eassumption.
    + rewrite last_char_app. assumption.
  - destruct (rmatch ci r1 prev s c k) eqn:E.
    + inversion H; subst.
      destruct (IH1 _ _ _ _ _ E) as (w & t & c' & -> & M & K).
      exists w, t, c'. repeat split; auto. apply M_Alt_l; assumption.
    + destruct (IH2 _ _ _ _ _ H) as (w & t & c' & -> & M & K).
      exists w, t, c'. repeat split; auto. apply M_Alt_r; assumption.
  - destruct (IH _ _ _ _ _ H) as (w & t & c' & -> & M & K).
    rewrite firstn_prefix in K.
    exists w, t, ((name, w) :: c'). repeat split; auto. constructor; assumption.
  - destruct prev; try discriminate.
    exists [], s, c. repeat split; auto. constructor.
  - destruct (xorb (is_word_at prev) (is_word_at (hd_error s))) eqn:E;
      try discriminate.
    exists [], s, c. repeat split; auto. constructor; assumption.
Qed.

(** Where the expression matches and the continuation accepts, the matcher
    finds something (that match, or one it tries before it). *)
Lemma rmatch_complete ci r prev w t c c' :
  matches ci r prev w t c c' ->
  forall k res, k (last_char prev w) t c' = Some res ->
  exists res', rmatch ci r prev (w ++ t) c k = Some res'.
Proof.
  induction 1; intros k res K; simpl.
  - rewrite (match_lit_complete ci l w prev t H). eauto.
  - rewrite H. eauto.
  - destruct g.
    + eapply rep_greedy_complete; eauto.
    + eapply rep_lazy_complete; eauto.
  - destruct (IHmatches _ _ K) as [r' R]. rewrite R. eauto.
  - destruct (rmatch ci r prev t c k); eauto.
  - rewrite last_char_app in K.
    destruct (IHmatches2 _ _ K) as [r2' R2].
    rewrite <- app_assoc.
    eapply IHmatches1. eassumption.
  - destruct (IHmatches _ _ K) as [r' R]. rewrite R. eauto.
  - destruct (rmatch ci r1 prev (w ++ t) c k); eauto.
  - eapply IHmatches. rewrite firstn_prefix. eassumption.
  - eauto.
  - simpl in K. rewrite H. eauto.
Qed.

(** ** Searching *)

Lemma match_here_sound p prev s pos m :
  match_here p prev s pos = Some m ->
  exists w t, s = w ++ t
              /\ matches (ignorecase p) (re p) prev w t [] (m_groups m)
              /\ m_start m = pos /\ m_end m = (pos + List.length w)%nat.
Proof.
  unfold match_here. intros H.
  destruct (rmatch (ignorecase p) (re p) prev s [] (fun _ t c => Some (c, t)))
    as [[c t]|] eqn:E; try discriminate.
  inversion H; subst; clear H. simpl.
  apply rmatch_sound in E. destruct E as (w & t' & c' & -> & M & K).
  inversion K; subst. exists w, t. repeat split; auto.
  rewrite length_app. f_equal. lia.
Qed.

Lemma match_here_complete p prev w t c pos :
  matches (ignorecase p) (re p) prev w t [] c ->
  exists m, match_here p prev (w ++ t) pos = Some m.
Proof.
  intros M. unfold match_here.
  destruct (rmatch_complete _ _ _ _ _ _ _ M (fun _ t c => Some (c, t)) _ eq_refl)
    as [[c' t'] R].
  rewrite R. eauto.
Qed.

Lemma search_from_some p : forall s prev pos m,
  search_from p prev s pos = Some m ->
  exists pre rest,
    s = pre ++ rest
    /\ match_here p (last_char prev pre) rest (pos + List.length pre) = Some m
    /\ forall pre' rest', s = pre' ++ rest' ->
         (List.length pre' < List.length pre)%nat ->
         match_here p (last_char prev pre') rest' (pos + List.length pre') = None.
Proof.
  induction s as [|a s IH]; intros prev pos m H; simpl in H.
  - destruct (match_here p prev [] pos) eqn:E; try discriminate.
    inversion H; subst. exists [], []. simpl. rewrite Nat.add_0_r.
    repeat split; auto. intros; lia.
  - destruct (match_here p prev (a :: s) pos) eqn:E.
    + inversion H; subst. exists [], (a :: s). simpl. rewrite Nat.add_0_r.
      repeat split; auto. intros; lia.
    + destruct (IH _ _ _ H) as (pre & rest & -> & Hm & Hmin).
      exists (a :: pre), rest. simpl.
      replace (pos + S (List.length pre))%nat with (S pos + List.length pre)%nat by lia.
      repeat split; auto.
      intros pre' rest' Eq Lt. destruct pre' as [|b pre'].
      * simpl in *. subst rest'. rewrite Nat.add_0_r. assumption.
      * simpl in *. inversion Eq; subst.
        replace (pos + S (List.length pre'))%nat
          with (S pos + List.length pre')%nat by lia.
        apply Hmin; auto. lia.
Qed.

Lemma search_from_none p : forall s prev pos,
  search_from p prev s pos = None ->
  forall pre rest, s = pre ++ rest ->
    match_here p (last_char prev pre) rest (pos + List.length pre) = None.
Proof.
  induction s as [|a s IH]; intros prev pos H pre rest Eq; simpl in H.
  - destruct (match_here p prev [] pos) eqn:E; try discriminate.
    symmetry in Eq. apply app_eq_nil in Eq. destruct Eq; subst.
    simpl. rewrite Nat.add_0_r. assumption.
  - destruct (match_here p prev (a :: s) pos) eqn:E; try discriminate.
    destruct pre as [|b pre]; simpl in *.
    + subst rest. rewrite Nat.add_0_r. assumption.
    + inversion Eq; subst.
      replace (pos + S (List.length pre))%nat
        with (S pos + List.length pre)%nat by lia.
      apply IH; auto.
Qed.

Lemma match_here_none_pos p prev s pos pos' :
  match_here p prev s pos = None -> match_here p prev s pos' = None.
Proof.
  unfold match_here.
  destruct (rmatch (ignorecase p) (re p) prev s [] (fun _ t c => Some (c, t)))
    as [[c t]|]; intros; congruence.
Qed.

(** A search that succeeds returns an occurrence, and no occurrence starts to
    its left. *)
Lemma re_search_some p s m :
  re_search p s = Some m ->
  exists pre w post,
    s = pre ++ w ++ post
    /\ occurrence p pre w post (m_groups m)
    /\ m_start m = List.length pre
    /\ m_end m = (List.length pre + List.length w)%nat
    /\ forall pre' w' post' c',
         s = pre' ++ w' ++ post' -> occurrence p pre' w' post' c' ->
         (List.length pre <= List.length pre')%nat.
Proof.
  unfold re_search. intros H.
  destruct (search_from_some _ _ _ _ _ H) as (pre & rest & -> & Hm & Hmin).
  simpl in Hm.
  destruct (match_here_sound _ _ _ _ _ Hm) as (w & t & -> & M & S & E).
  exists pre, w, t. repeat split; auto.
  intros pre' w' post' c' Eq Occ.
  destruct (Nat.le_gt_cases (List.length pre) (List.length pre')) as [L|L]; auto.
  exfalso. specialize (Hmin _ _ Eq L).
  destruct (match_here_complete p _ _ _ _ (0 + List.length pre') Occ) as [m' Hm'].
  congruence.
Qed.

(** A search that fails means that the pattern occurs nowhere. *)
Lemma re_search_none p s :
  re_search p s = None ->
  forall pre w post c, s = pre ++ w ++ post -> ~ occurrence p pre w post c.
Proof.
  unfold re_search. intros H pre w post c Eq Occ.
  pose proof (search_from_none _ _ _ _ H _ _ Eq) as N.
  destruct (match_here_complete p _ _ _ _ (0 + List.length pre) Occ) as [m' Hm'].
  congruence.
Qed.

Lemma found_iff p s :
  found p s = true <->
  exists pre w post c, s = pre ++ w ++ post /\ occurrence p pre w post c.
Proof.
  unfold found. split.
  - destruct (re_search p s) as [m|] eqn:E; try discriminate. intros _.
    destruct (re_search_some _ _ _ E) as (pre & w & post & Eq & Occ & _).
    eauto 6.
  - intros (pre & w & post & c & Eq & Occ).
    destruct (re_search p s) as [m|] eqn:E; auto.
    exfalso. eapply re_search_none; eauto.
Qed.

(** ** Numbers *)

Lemma in_range_iff lo hi c : in_range lo hi c = true <-> lo <= c <= hi.
Proof.
  unfold in_range. rewrite andb_true_iff, !N.leb_le. tauto.
Qed.

Lemma in_ranges_iff t c :
  in_ranges t c = true <-> exists lo hi, In (lo, hi) t /\ lo <= c <= hi.
Proof.
  unfold in_ranges. rewrite existsb_exists. split.
  - intros ([lo hi] & I & R). apply in_range_iff in R. eauto.
  - intros (lo & hi & I & R). exists (lo, hi). split; auto.
    apply in_range_iff. assumption.
Qed.

Lemma decimal_value_spec c d :
  decimal_value c = Some d ->
  d <= 9 /\ exists z, In z decimal_zeros /\ c = z + d.
Proof.
  unfold decimal_value.
  destruct (find (fun z => in_range z (z + 9) c) decimal_zeros) as [z|] eqn:F;
    try discriminate.
  intros H. inversion H; subst; clear H.
  apply find_some in F. destruct F as [I R]. apply in_range_iff in R.
  split; [lia|]. exists z. split; auto. lia.
Qed.

Lemma decimal_zeros_ascii z : In z decimal_zeros -> z = 0x30 \/ 0x660 <= z.
Proof.
  assert (H : forallb (fun z => (z =? 0x30) || (0x660 <=? z)) decimal_zeros = true)
    by (vm_compute; reflexivity).
  rewrite forallb_forall in H. intros I. specialize (H z I).
  apply orb_prop in H. destruct H as [H|H].
  - left. apply N.eqb_eq. assumption.
  - right. apply N.leb_le. assumption.
Qed.

Lemma decimal_zeros_not_space z lo hi :
  In z decimal_zeros -> In (lo, hi) space_ranges -> z + 9 < lo \/ hi < z.
Proof.
  assert (H : forallb (fun z => forallb (fun r => (z + 9 <? fst r) || (snd r <? z))
                                  space_ranges) decimal_zeros = true)
    by (vm_compute; reflexivity).
  rewrite forallb_forall in H. intros Iz Ir. specialize (H z Iz).
  rewrite forallb_forall in H. specialize (H _ Ir). simpl in H.
  apply orb_prop in H. destruct H as [H|H]; apply N.ltb_lt in H; auto.
Qed.

Lemma is_decimal_iff c : is_decimal c = true <-> exists d, decimal_value c = Some d.
Proof.
  unfold is_decimal. destruct (decimal_value c); split; eauto; try discriminate.
  intros [d H]. discriminate.
Qed.

Lemma decimal_not_space c : is_decimal c = true -> is_space c = false.
Proof.
  intros H. apply is_decimal_iff in H. destruct H as [d H].
  apply decimal_value_spec in H. destruct H as (Hd & z & Iz & ->).
  destruct (is_space (z + d)) eqn:S; auto.
  apply in_ranges_iff in S. destruct S as (lo & hi & Ir & R).
  destruct (decimal_zeros_not_space _ _ _ Iz Ir); lia.
Qed.

Lemma to_ascii_decimal c d :
  decimal_value c = Some d -> to_ascii_number c = 0x30 + d /\ d <= 9.
Proof.
  intros H. pose proof (decimal_value_spec _ _ H) as (Hd & z & Iz & Ec).
  split; auto. unfold to_ascii_number.
  destruct (c <? 127) eqn:E.
  - apply N.ltb_lt in E. destruct (decimal_zeros_ascii _ Iz); lia.
  - rewrite decimal_not_space by (apply is_decimal_iff; eauto).
    rewrite H. reflexivity.
Qed.

Lemma ascii_digit_iff c : is_ascii_digit c = true <-> 0x30 <= c <= 0x39.
Proof. apply in_range_iff. Qed.

Lemma ascii_digit_not_c_space c : is_ascii_digit c = true -> is_c_space c = false.
Proof.
  intros H. apply ascii_digit_iff in H. unfold is_c_space.
  apply orb_false_intro.
  - destruct (in_range 0x9 0xD c) eqn:E; auto. apply in_range_iff in E. lia.
  - apply N.eqb_neq. lia.
Qed.

Lemma lstrip_c_digits s :
  Forall (fun c => is_ascii_digit c = true) s -> lstrip_c s = s.
Proof.
  intros F. destruct F as [|c s Hc F]; simpl; auto.
  rewrite ascii_digit_not_c_space; auto.
Qed.

Lemma strip_c_digits s :
  Forall (fun c => is_ascii_digit c = true) s -> strip_c s = s.
Proof.
  intros F. unfold strip_c. rewrite (lstrip_c_digits _ F).
  rewrite lstrip_c_digits by (apply Forall_rev; assumption).
  apply rev_involutive.
Qed.

Lemma take_sign_digits s :
  Forall (fun c => is_ascii_digit c = true) s -> take_sign s = (false, s).
Proof.
  intros F. destruct F as [|c s Hc F]; simpl; auto.
  apply ascii_digit_iff in Hc.
  destruct (N.eqb_spec c 0x2D); [lia|]. destruct (N.eqb_spec c 0x2B); [lia|].
  reflexivity.
Qed.

Lemma int_digits_true s :
  Forall (fun c => is_ascii_digit c = true) s -> int_digits true s = Some s.
Proof.
  induction 1 as [|c s Hc F IH]; simpl; auto.
  rewrite Hc, IH. reflexivity.
Qed.

Lemma int_digits_false s :
  s <> [] -> Forall (fun c => is_ascii_digit c = true) s ->
  int_digits false s = Some s.
Proof.
  intros Ne F. destruct F as [|c s Hc F]; [congruence|]. simpl.
  rewrite Hc, int_digits_true; auto.
Qed.

Lemma map_ascii_digits w :
  Forall (fun c => is_decimal c = true) w ->
  Forall (fun c => is_ascii_digit c = true) (map to_ascii_number w).
Proof.
  induction 1 as [|c w Hc F IH]; simpl; constructor; auto.
  apply is_decimal_iff in Hc. destruct Hc as [d Hd].
  destruct (to_ascii_decimal _ _ Hd) as [-> L]. apply ascii_digit_iff. lia.
Qed.

Lemma digits_value_number w : forall acc,
  Forall (fun c => is_decimal c = true) w ->
  digits_value acc (map to_ascii_number w)
  = fold_left (fun v c => match decimal_value c with
                          | Some d => 10 * v + Z.of_N d
                          | None => v
                          end)%Z w acc.
Proof.
  unfold digits_value.
  induction w as [|c w IH]; intros acc F; simpl; auto.
  inversion F; subst. rewrite IH by assumption.
  apply is_decimal_iff in H1. destruct H1 as [d Hd]. rewrite Hd.
  destruct (to_ascii_decimal _ _ Hd) as [-> L]. unfold digit_val.
  do 2 f_equal. lia.
Qed.

(** [int] reads a run of decimal digits as the number it stands for. *)
Lemma py_int_digits w : digits w -> py_int w = Ok (number_of w).
Proof.
  intros [Ne F]. unfold py_int.
  pose proof (map_ascii_digits _ F) as A.
  rewrite (strip_c_digits _ A), (take_sign_digits _ A).
  rewrite int_digits_false; auto.
  - rewrite digits_value_number by assumption. reflexivity.
  - destruct w; simpl; congruence.
Qed.

Lemma number_of_nonneg w : (0 <= number_of w)%Z.
Proof.
  unfold number_of.
  assert (G : forall acc, (0 <= acc)%Z ->
            (0 <= fold_left (fun v c => match decimal_value c with
                                        | Some d => 10 * v + Z.of_N d
                                        | None => v
                                        end) w acc)%Z).
  { induction w as [|c w IH]; cbn [fold_left]; intros acc Ha; auto.
    apply IH. destruct (decimal_value c); lia. }
  apply G. lia.
Qed.

(** *** Splitting at a separator *)

Lemma split_on_from_last sep w : forall tok,
  Forall (fun c => c <> sep) w ->
  split_on_from sep tok w = [rev tok ++ w].
Proof.
  induction w as [|c w IH]; intros tok F; simpl.
  - rewrite app_nil_r. reflexivity.
  - inversion F; subst. destruct (N.eqb_spec c sep); [contradiction|].
    rewrite IH by assumption. simpl. rewrite <- app_assoc. reflexivity.
Qed.

Lemma split_on_from_field sep w rest : forall tok,
  Forall (fun c => c <> sep) w ->
  split_on_from sep tok (w ++ sep :: rest)
  = (rev tok ++ w) :: split_on_from sep [] rest.
Proof.
  induction w as [|c w IH]; intros tok F; simpl.
  - rewrite N.eqb_refl, app_nil_r. reflexivity.
  - inversion F; subst. destruct (N.eqb_spec c sep); [contradiction|].
    rewrite IH by assumption. simpl. rewrite <- app_assoc. reflexivity.
Qed.

Lemma digits_no_colon w :
  Forall (fun c => is_decimal c = true) w -> Forall (fun c => c <> chr ":") w.
Proof.
  apply Forall_impl. intros c H E. subst c. vm_compute in H. discriminate.
Qed.

Lemma parse_dur_digits h m s :
  digits h -> digits m -> digits s ->
  parse_dur (h ++ chr ":" :: m ++ chr ":" :: s)
  = Ok (number_of h * 3600 + number_of m * 60 + number_of s)%Z.
Proof.
  intros Hh Hm Hs. unfold parse_dur, split_on.
  rewrite split_on_from_field by (apply digits_no_colon; apply Hh).
  rewrite split_on_from_field by (apply digits_no_colon; apply Hm).
  rewrite split_on_from_last by (apply digits_no_colon; apply Hs).
  simpl. rewrite !py_int_digits by assumption. reflexivity.
Qed.

(** ** The groups of the patterns *)

Lemma matches_no_group ci r prev w t c c' :
  matches ci r prev w t c c' -> has_group r = false -> c' = c.
Proof.
  induction 1; simpl; intros G; auto; try discriminate.
  - apply orb_false_elim in G. destruct G as [G1 G2].
    rewrite IHmatches2, IHmatches1; auto.
  - apply orb_false_elim in G. destruct G as [G1 G2]. auto.
  - apply orb_false_elim in G. destruct G as [G1 G2]. auto.
Qed.

Lemma matches_seq_inv ci r1 r2 prev w t c c' :
  matches ci (r1 >> r2) prev w t c c' ->
  exists w1 w2 c1,
    w = w1 ++ w2
    /\ matches ci r1 prev w1 (w2 ++ t) c c1
    /\ matches ci r2 (last_char prev w1) w2 t c1 c'.
Proof. intros M. inversion M; subst. eauto 7. Qed.

Lemma matches_grp_inv ci name r prev w t c c' :
  matches ci (Grp name r) prev w t c c' ->
  exists c1, c' = (name, w) :: c1 /\ matches ci r prev w t c c1.
Proof. intros M. inversion M; subst. eauto. Qed.

Lemma matches_rep_inv ci g lo hi cs prev w t c c' :
  matches ci (Rep g lo hi cs) prev w t c c' ->
  Forall (fun a => in_cset cs a = true) w
  /\ (lo <= List.length w)%nat /\ within hi (List.length w) /\ c' = c.
Proof. intros M. inversion M; subst. auto. Qed.

Lemma matches_lit_inv ci l prev w t c c' :
  matches ci (Lit l) prev w t c c' ->
  Forall2 (fun a b => char_eqb ci a b = true) l w /\ c' = c.
Proof. intros M. inversion M; subst. auto. Qed.

Lemma fold_case_colon x : fold_case x = 58 -> x = 58.
Proof.
  unfold fold_case, in_range.
  repeat match goal with
         | |- context [ ?a <=? ?b ] => destruct (N.leb_spec a b)
         | |- context [ ?a =? ?b ] => destruct (N.eqb_spec a b)
         end; simpl; intros; try discriminate; lia.
Qed.

Lemma char_eqb_colon ci x : char_eqb ci (chr ":") x = true -> x = chr ":".
Proof.
  unfold char_eqb. change (chr ":") with 58. destruct ci; intros H.
  - change (fold_case 58) with 58 in H. apply N.eqb_eq in H.
    apply fold_case_colon. congruence.
  - apply N.eqb_eq in H. auto.
Qed.

Lemma digit_class w :
  Forall (fun a => in_cset [CDigit] a = true) w ->
  Forall (fun c => is_decimal c = true) w.
Proof.
  apply Forall_impl. intros a H. simpl in H. rewrite orb_false_r in H. exact H.
Qed.

Lemma rep_digits ci g lo hi prev w t c c' :
  matches ci (Rep g (S lo) hi [CDigit]) prev w t c c' -> digits w /\ c' = c.
Proof.
  intros M. apply matches_rep_inv in M. destruct M as (F & L & _ & ->).
  split; auto. split.
  - destruct w; simpl in L; [lia | congruence].
  - apply digit_class. assumption.
Qed.

Lemma bottle_groups pre w post c :
  occurrence BOTTLE pre w post c -> exists g, c = [("pct", g)] /\ digits g.
Proof.
  unfold occurrence, BOTTLE. cbn [re ignorecase]. intros M.
  split_by matches_seq_inv M. plain_by matches_no_group M0.
  split_by matches_seq_inv M. plain_by matches_no_group M0.
  split_by matches_seq_inv M. plain_by matches_no_group M0.
  split_by matches_seq_inv M. plain_by matches_no_group M0.
  split_by matches_seq_inv M. plain_by matches_no_group M.
  apply matches_grp_inv in M0. destruct M0 as (c2 & -> & M0).
  apply rep_digits in M0. destruct M0 as [D ->]. eauto.
Qed.

Lemma wan_groups pre w post c :
  occurrence WAN pre w post c -> exists g, c = [("hit", g)] /\ digits g.
Proof.
  unfold occurrence, WAN. cbn [re ignorecase]. intros M.
  split_by matches_seq_inv M. plain_by matches_no_group M0.
  split_by matches_seq_inv M. plain_by matches_no_group M0.
  split_by matches_seq_inv M. plain_by matches_no_group M0.
  split_by matches_seq_inv M. plain_by matches_no_group M0.
  split_by matches_seq_inv M. plain_by matches_no_group M0.
  split_by matches_seq_inv M. plain_by matches_no_group M.
  apply matches_grp_inv in M0. destruct M0 as (c2 & -> & M0).
  apply rep_digits in M0. destruct M0 as [D ->]. eauto.
Qed.

Lemma retry_groups pre w post c :
  occurrence RETRY pre w post c -> exists g, c = [("retries", g)] /\ digits g.
Proof.
  unfold occurrence, RETRY. cbn [re ignorecase]. intros M.
  split_by matches_seq_inv M. plain_by matches_no_group M0.
  split_by matches_seq_inv M. plain_by matches_no_group M0.
  split_by matches_seq_inv M. plain_by matches_no_group M0.
  split_by matches_seq_inv M. plain_by matches_no_group M0.
  split_by matches_seq_inv M. plain_by matches_no_group M0.
  split_by matches_seq_inv M. plain_by matches_no_group M.
  apply matches_grp_inv in M0. destruct M0 as (c2 & -> & M0).
  apply rep_digits in M0. destruct M0 as [D ->]. eauto.
Qed.

Lemma xfer_size_groups prev w t c c' :
  matches true xfer_size prev w t c c' -> exists b, c' = ("bytes", b) :: c.
Proof.
  unfold xfer_size. intros M.
  split_by matches_seq_inv M. plain_by matches_no_group M0.
  split_by matches_seq_inv M. plain_by matches_no_group M0.
  split_by matches_seq_inv M. plain_by matches_no_group M0.
  split_by matches_seq_inv M. plain_by matches_no_group M0.
  apply matches_grp_inv in M.
  destruct M as (c2 & -> & M).
  plain_by matches_no_group M.
  eauto.
Qed.

Lemma xfer_spd_groups prev w t c c' :
  matches true xfer_spd prev w t c c' -> exists b, c' = ("spd", b) :: c.
Proof.
  unfold xfer_spd. intros M.
  split_by matches_seq_inv M. plain_by matches_no_group M0.
  split_by matches_seq_inv M. plain_by matches_no_group M0.
  apply matches_grp_inv in M.
  destruct M as (c2 & -> & M).
  plain_by matches_no_group M.
  eauto.
Qed.

Lemma lit_colon ci prev w t c c' :
  matches ci (Lit (lit ":")) prev w t c c' -> w = [chr ":"] /\ c' = c.
Proof.
  intros M. apply matches_lit_inv in M. destruct M as [F ->]. split; auto.
  change (lit ":") with [chr ":"] in F.
  inversion F as [|a b l l' Hab Hl]; subst. inversion Hl; subst.
  apply char_eqb_colon in Hab. subst. reflexivity.
Qed.

Lemma xfer_dur_groups prev w t c c' :
  matches true xfer_dur prev w t c c' ->
  exists h m s,
    c' = ("dur", h ++ chr ":" :: m ++ chr ":" :: s) :: c
    /\ digits h /\ digits m /\ digits s.
Proof.
  unfold xfer_dur, two_digits. intros M.
  split_by matches_seq_inv M. plain_by matches_no_group M0.
  split_by matches_seq_inv M. plain_by matches_no_group M0.
  apply matches_grp_inv in M. destruct M as (c2 & -> & M).
  split_by matches_seq_inv M. apply rep_digits in M0. destruct M0 as [Dh ->].
  split_by matches_seq_inv M. apply lit_colon in M0. destruct M0 as [-> ->].
  split_by matches_seq_inv M. apply rep_digits in M0. destruct M0 as [Dm ->].
  split_by matches_seq_inv M. apply lit_colon in M0. destruct M0 as [-> ->].
  apply rep_digits in M. destruct M as [Ds ->].
  do 3 eexists. split; [simpl; reflexivity|]. auto.
Qed.

(** The three parts of a transfer line, in order, with text between them. *)
Lemma xfer_parts pre w post c :
  occurrence XFER pre w post c ->
  exists a g1 b g2 d bytes h m s spd,
    w = a ++ g1 ++ b ++ g2 ++ d
    /\ matches true xfer_size (last_char None pre) a (g1 ++ b ++ g2 ++ d ++ post)
         [] [("bytes", bytes)]
    /\ matches true xfer_dur (last_char None (pre ++ a ++ g1)) b (g2 ++ d ++ post)
         [("bytes", bytes)]
         [("dur", h ++ chr ":" :: m ++ chr ":" :: s); ("bytes", bytes)]
    /\ matches true xfer_spd (last_char None (pre ++ a ++ g1 ++ b ++ g2)) d post
         [("dur", h ++ chr ":" :: m ++ chr ":" :: s); ("bytes", bytes)] c
    /\ c = [("spd", spd); ("dur", h ++ chr ":" :: m ++ chr ":" :: s);
            ("bytes", bytes)]
    /\ digits h /\ digits m /\ digits s
    /\ Forall (fun x => x <> LF) g1 /\ Forall (fun x => x <> LF) g2.
Proof.
  unfold occurrence, XFER. cbn [re ignorecase]. intros M.
  split_by matches_seq_inv M.
  split_by matches_seq_inv M.
  split_by matches_seq_inv M.
  split_by matches_seq_inv M.
  destruct (xfer_size_groups _ _ _ _ _ M0) as [bytes ->].
  pose proof (matches_rep_inv _ _ _ _ _ _ _ _ _ _ M1) as (F1 & _ & _ & ->).
  destruct (xfer_dur_groups _ _ _ _ _ M2) as (h & m & s & -> & Dh & Dm & Ds).
  pose proof (matches_rep_inv _ _ _ _ _ _ _ _ _ _ M3) as (F2 & _ & _ & ->).
  destruct (xfer_spd_groups _ _ _ _ _ M) as [spd ->].
  repeat rewrite <- app_assoc in M0. repeat rewrite <- app_assoc in M2.
  do 10 eexists. split; [reflexivity|].
  repeat rewrite last_char_app.
  split; [exact M0|]. split; [exact M2|]. split; [exact M|].
  split; [reflexivity|].
  split; [assumption|]. split; [assumption|]. split; [assumption|]. split.
  - revert F1. apply Forall_impl. intros x H E. subst x. discriminate.
  - revert F2. apply Forall_impl. intros x H E. subst x. discriminate.
Qed.

(** ** One line *)

Lemma search_occurrence p s m :
  re_search p s = Some m ->
  exists pre w post, s = pre ++ w ++ post /\ occurrence p pre w post (m_groups m).
Proof.
  intros H. destruct (re_search_some _ _ _ H) as (pre & w & post & E & O & _).
  eauto.
Qed.

Lemma int_group_bottle msg m :
  re_search BOTTLE msg = Some m ->
  exists g, group m "pct" = Some g /\ digits g
            /\ int_group m "pct" = Ok (number_of g).
Proof.
  intros H. destruct (search_occurrence _ _ _ H) as (pre & w & post & _ & O).
  apply bottle_groups in O. destruct O as (g & E & D).
  exists g. unfold int_group, group. rewrite E. simpl.
  split; [reflexivity|]. split; [assumption|]. apply py_int_digits. assumption.
Qed.

Lemma int_group_wan msg m :
  re_search WAN msg = Some m ->
  exists g, group m "hit" = Some g /\ digits g
            /\ int_group m "hit" = Ok (number_of g).
Proof.
  intros H. destruct (search_occurrence _ _ _ H) as (pre & w & post & _ & O).
  apply wan_groups in O. destruct O as (g & E & D).
  exists g. unfold int_group, group. rewrite E. simpl.
  split; [reflexivity|]. split; [assumption|]. apply py_int_digits. assumption.
Qed.

Lemma int_group_retry msg m :
  re_search RETRY msg = Some m ->
  exists g, group m "retries" = Some g /\ digits g
            /\ int_group m "retries" = Ok (number_of g).
Proof.
  intros H. destruct (search_occurrence _ _ _ H) as (pre & w & post & _ & O).
  apply retry_groups in O. destruct O as (g & E & D).
  exists g. unfold int_group, group. rewrite E. simpl.
  split; [reflexivity|]. split; [assumption|]. apply py_int_digits. assumption.
Qed.

Lemma groups_xfer msg m :
  re_search XFER msg = Some m ->
  exists bytes h mi s,
    group m "bytes" = Some bytes
    /\ group m "dur" = Some (h ++ chr ":" :: mi ++ chr ":" :: s)
    /\ digits h /\ digits mi /\ digits s.
Proof.
  intros H. destruct (search_occurrence _ _ _ H) as (pre & w & post & _ & O).
  apply xfer_parts in O.
  destruct O as (a & g1 & b & g2 & d & bytes & h & mi & s & spd & _ & _ & _ & _
                 & E & Dh & Dm & Ds & _).
  exists bytes, h, mi, s. unfold group. rewrite E. simpl. auto.
Qed.

Lemma dur_xfer msg m :
  re_search XFER msg = Some m ->
  exists t d, group m "dur" = Some t /\ parse_dur t = Ok d.
Proof.
  intros H. destruct (groups_xfer _ _ H) as (bytes & h & mi & s & _ & E & Dh & Dm & Ds).
  do 2 eexists. split; [eassumption|]. apply parse_dur_digits; assumption.
Qed.

(** One turn of the loop never raises: it yields [row_of] the line when one of
    the four searches succeeds, and nothing otherwise. *)
Lemma parse_line_spec raw :
  parse_line raw = Ok (if recognised raw then Some (row_of raw) else None).
Proof.
  unfold parse_line, recognised, row_of.
  destruct (parse_ts_prefix raw) as [ts msg]. cbn [fst snd].
  unfold any_match, found, extracted, extracted_size, extracted_duration,
    step_bottle, step_xfer, step_wan, step_retry. cbn [existsb].
  pose proof (int_group_bottle msg) as Hb.
  pose proof (dur_xfer msg) as Hx.
  pose proof (int_group_wan msg) as Hw.
  pose proof (int_group_retry msg) as Hr.
  destruct (re_search BOTTLE msg) as [mb|];
    [destruct (Hb _ eq_refl) as (gb & _ & _ & ->)|];
  (destruct (re_search XFER msg) as [mx|];
    [destruct (Hx _ eq_refl) as (tx & dx & -> & ->)|]);
  (destruct (re_search WAN msg) as [mw|];
    [destruct (Hw _ eq_refl) as (gw & _ & _ & ->)|]);
  (destruct (re_search RETRY msg) as [mr|];
    [destruct (Hr _ eq_refl) as (gr & _ & _ & ->)|]);
  reflexivity.
Qed.

(** ** The records of [parse_events] *)

Lemma parse_events_from_spec lines : forall out,
  parse_events_from out lines = Ok (out ++ map row_of (filter recognised lines)).
Proof.
  induction lines as [|raw rest IH]; intros out; simpl.
  - rewrite app_nil_r. reflexivity.
  - rewrite parse_line_spec. simpl. destruct (recognised raw); rewrite IH.
    + simpl. rewrite <- app_assoc. reflexivity.
    + reflexivity.
Qed.

Lemma parse_events_spec lines :
  parse_events lines = Ok (map row_of (filter recognised lines)).
Proof. apply parse_events_from_spec. Qed.

Lemma ts_suffix line : exists prefix, line = prefix ++ snd (parse_ts_prefix line).
Proof.
  unfold parse_ts_prefix. destruct (re_match TS line) as [m|]; simpl.
  - exists (firstn (m_end m) line). symmetry. apply firstn_skipn.
  - exists []. reflexivity.
Qed.









(** C9.  A transfer line may have its size without a blank between number
    and unit: the transfer search matches it, the record is emitted with its
    duration, and [bytes_sent] is null, since [parse_size] wants two
    tokens. *)
Theorem transfer_size_without_blank :
  exists line m r,
    re_search XFER (snd (parse_ts_prefix line)) = Some m
    /\ group m "bytes" = Some (lit "1.5GB")
    /\ parse_size (lit "1.5GB") = None
    /\ parse_events [line] = Ok [r]
    /\ bytes_sent r = None /\ duration_s r = Some 10%Z.
Proof.
  exists (lit "Transferred: 1.5GB Duration: 00:00:10 Avg speed: 1MB/s").
  do 2 eexists. split; [vm_compute; reflexivity|].
  split; [vm_compute; reflexivity|]. split; [vm_compute; reflexivity|].
  split; [vm_compute; reflexivity|]. split; reflexivity.
Qed.

(** ** The transfer extractor *)

Lemma occurrence_transfer_parts msg pre w post c :
  msg = pre ++ w ++ post -> occurrence XFER pre w post c -> transfer_parts msg.
Proof.
  intros E O. apply xfer_parts in O.
  destruct O as (a & g1 & b & g2 & d & bytes & h & m & s & spd & -> & Ma & Mb
                 & Md & _).
  unfold transfer_parts. exists pre, a, g1, b, g2, d, post.
  do 6 eexists. split; [|split; [exact Ma|split; [exact Mb|exact Md]]].
  rewrite E. repeat rewrite <- app_assoc. reflexivity.
Qed.

(** C5.  The transfer step never raises.  It changes the row only when the
    message holds a transfer size, a duration and an average speed in this
    order; it then sets [duration_s] from the duration and [bytes_sent] from
    the size, and nothing else: the speed that was matched is stored
    nowhere.  When one of the three parts is missing, both fields stay as
    they were. *)
Theorem transfer_needs_three_parts msg st :
  exists st',
    step_xfer msg st = Ok st'
    /\ ((transfer_parts msg
         /\ exists bytes h m s,
              digits h /\ digits m /\ digits s
              /\ fst st'
                 = set_duration_s
                     (Some (number_of h * 3600 + number_of m * 60 + number_of s)%Z)
                     (set_bytes_sent (parse_size bytes) (fst st)))
        \/ st' = st)
    /\ (~ transfer_parts msg -> st' = st)
    /\ event_time (fst st') = event_time (fst st)
    /\ network_bottleneck_pct (fst st') = network_bottleneck_pct (fst st)
    /\ wan_cache_hit_pct (fst st') = wan_cache_hit_pct (fst st)
    /\ retries (fst st') = retries (fst st)
    /\ message (fst st') = message (fst st).
Proof.
  unfold step_xfer. destruct (re_search XFER msg) as [m|] eqn:H.
  - destruct (re_search_some _ _ _ H) as (pre & w & post & E & O & _).
    pose proof (occurrence_transfer_parts _ _ _ _ _ E O) as T.
    apply xfer_parts in O.
    destruct O as (a & g1 & b & g2 & d & bytes & h & mi & s & spd & _ & _ & _
                   & _ & G & Dh & Dm & Ds & _).
    unfold group. rewrite G. cbn [lookup String.eqb Ascii.eqb Bool.eqb].
    rewrite parse_dur_digits by assumption. cbn [bind].
    eexists. split; [reflexivity|]. cbn [fst snd].
    split; [left; split; [exact T|]; exists bytes, h, mi, s; auto|].
    split; [intros NT; contradiction|].
    repeat split; reflexivity.
  - exists st. split; [reflexivity|]. split; [right; reflexivity|].
    repeat split; reflexivity.
Qed.

(** ** Leftmost occurrences *)




(** ** The timestamp *)

(** A greedy repetition hands over to its continuation at the longest
    admissible length the continuation accepts. *)
Lemma rep_greedy_longest cs : forall s lo hi prev (k : rcont),
  match rep_greedy cs lo hi prev s k with
  | Some res =>
      exists n, admissible cs lo hi s n
                /\ k (last_char prev (firstn n s)) (skipn n s) = Some res
                /\ forall n', (n < n')%nat -> admissible cs lo hi s n' ->
                     k (last_char prev (firstn n' s)) (skipn n' s) = None
  | None =>
      forall n, admissible cs lo hi s n ->
                k (last_char prev (firstn n s)) (skipn n s) = None
  end.
Proof.
  assert (Zero : forall (s : str) lo hi, admissible cs lo hi s 0 <-> lo = O).
  { intros s lo hi. unfold admissible. simpl. split.
    - intros (L & _). lia.
    - intros ->. repeat split; auto; try lia. destruct hi; simpl; auto; lia. }
  assert (Succ : forall a (s : str) lo hi n,
             admissible cs lo hi (a :: s) (S n) <->
             can_more hi = true /\ in_cset cs a = true
             /\ admissible cs (pred lo) (option_map pred hi) s n).
  { intros a s lo hi n. unfold admissible. simpl. split.
    - intros (L & W & Len & F). inversion F; subst.
      apply within_succ in W. destruct W as [Wc Wp].
      repeat split; auto; lia.
    - intros (Wc & Ha & L & W & Len & F).
      repeat split; auto; try lia. apply within_pred; assumption. }
  assert (Stop : forall (s : str) lo hi prev (k : rcont),
             (forall n, admissible cs lo hi s (S n) ->
                        k (last_char prev (firstn (S n) s)) (skipn (S n) s) = None) ->
             match match lo with O => k prev s | S _ => None end with
             | Some res =>
                 exists n, admissible cs lo hi s n
                   /\ k (last_char prev (firstn n s)) (skipn n s) = Some res
                   /\ forall n', (n < n')%nat -> admissible cs lo hi s n' ->
                        k (last_char prev (firstn n' s)) (skipn n' s) = None
             | None =>
                 forall n, admissible cs lo hi s n ->
                           k (last_char prev (firstn n s)) (skipn n s) = None
             end).
  { intros s lo hi prev k More. destruct lo as [|lo].
    - destruct (k prev s) as [res|] eqn:K.
      + exists O. split; [apply Zero; reflexivity|]. split; [exact K|].
        intros n' Lt A. destruct n'; [lia|]. apply More. assumption.
      + intros n A. destruct n; [exact K|]. apply More. assumption.
    - intros n A. destruct n; [apply Zero in A; discriminate|].
      apply More. assumption. }
  induction s as [|a s IH]; intros lo hi prev k.
  - cbn [rep_greedy]. apply Stop. intros n (_ & _ & Len & _). simpl in Len. lia.
  - cbn [rep_greedy].
    destruct (can_more hi && in_cset cs a) eqn:C.
    + apply andb_prop in C. destruct C as [Cm Ca].
      specialize (IH (pred lo) (option_map pred hi) (Some a) k).
      destruct (rep_greedy cs (pred lo) (option_map pred hi) (Some a) s k)
        as [res|].
      * destruct IH as (n & A & K & Max). exists (S n).
        split; [apply Succ; auto|]. split; [exact K|].
        intros n' Lt A'. destruct n'; [lia|].
        apply Succ in A'. destruct A' as (_ & _ & A').
        apply (Max n'); [lia | assumption].
      * apply Stop. intros n A. apply Succ in A. destruct A as (_ & _ & A).
        apply (IH n). assumption.
    + apply Stop. intros n A. apply Succ in A. destruct A as (Cm & Ca & _).
      rewrite Cm, Ca in C. discriminate.
Qed.

Lemma greedy_spaces c : forall s prev,
  rep_greedy [CSpace] 0 None prev s (fun _ t => Some (c, t)) = Some (c, lstrip s).
Proof.
  induction s as [|a s IH]; intros prev; simpl; auto.
  rewrite orb_false_r. destruct (is_space a); auto.
  rewrite IH. reflexivity.
Qed.

Lemma greedy_spaces_plus c s prev :
  rep_greedy [CSpace] 1 None prev s (fun _ t => Some (c, t))
  = match s with
    | a :: s' => if is_space a then Some (c, lstrip s') else None
    | [] => None
    end.
Proof.
  destruct s as [|a s]; simpl; auto.
  rewrite orb_false_r. destruct (is_space a); auto.
  rewrite greedy_spaces. reflexivity.
Qed.

Lemma lstrip_suffix s : exists ws, s = ws ++ lstrip s.
Proof.
  induction s as [|a s [ws IH]]; simpl.
  - exists []. reflexivity.
  - destruct (is_space a).
    + exists (a :: ws). simpl. congruence.
    + exists []. reflexivity.
Qed.

Lemma ts_class a : in_cset ts_class_items a = ts_char a.
Proof.
  unfold in_cset, ts_char. simpl. rewrite orb_false_r, !orb_assoc. reflexivity.
Qed.

Lemma re_match_TS line :
  re_match TS line
  = match rep_greedy ts_class_items 19 (Some 26%nat) None line (ts_cont line) with
    | Some (c, t) =>
        Some {| m_start := 0; m_end := 0 + (List.length line - List.length t);
                m_groups := c |}
    | None => None
    end.
Proof. reflexivity. Qed.

Lemma ts_run_admissible line n :
  ts_run line n <->
  admissible ts_class_items 19 (Some 26%nat) line n
  /\ exists c rest, skipn n line = c :: rest /\ is_space c = true.
Proof.
  unfold ts_run, admissible, within. split.
  - intros ((L1 & L2) & Len & F & c & Nth & Sp).
    assert (n < List.length line)%nat by (apply nth_error_Some; congruence).
    split.
    + repeat split; auto; try lia.
      revert F. apply Forall_impl. intros a. rewrite ts_class. auto.
    + destruct (skipn n line) as [|c' rest] eqn:E.
      * apply (f_equal (@List.length N)) in E. rewrite length_skipn in E.
        simpl in E. lia.
      * exists c', rest. split; auto.
        pose proof (firstn_skipn n line) as FS. rewrite E in FS.
        rewrite <- FS in Nth. rewrite nth_error_app2 in Nth by lia.
        rewrite Len, Nat.sub_diag in Nth. simpl in Nth. congruence.
  - intros ((L1 & L2 & Len & F) & c & rest & E & Sp).
    assert (Len' : List.length (firstn n line) = n)
      by (rewrite length_firstn; lia).
    repeat split; auto.
    + revert F. apply Forall_impl. intros a. rewrite ts_class. auto.
    + exists c. split; auto.
      pose proof (firstn_skipn n line) as FS. rewrite E in FS.
      rewrite <- FS. rewrite nth_error_app2 by lia.
      rewrite Len', Nat.sub_diag. reflexivity.
Qed.

Lemma ts_cont_some line n c rest :
  (n <= List.length line)%nat ->
  skipn n line = c :: rest -> is_space c = true ->
  ts_cont line (last_char None (firstn n line)) (skipn n line)
  = Some ([("ts", firstn n line)], lstrip (skipn n line)).
Proof.
  intros Len E Sp. unfold ts_cont. rewrite greedy_spaces_plus.
  rewrite length_skipn.
  replace (List.length line - (List.length line - n))%nat with n by lia.
  rewrite E. simpl. rewrite Sp. reflexivity.
Qed.

Lemma ts_cont_none line n :
  ts_cont line (last_char None (firstn n line)) (skipn n line) = None ->
  forall c rest, skipn n line = c :: rest -> is_space c = false.
Proof.
  unfold ts_cont. rewrite greedy_spaces_plus. intros H c rest E.
  rewrite E in H. destruct (is_space c); [discriminate | reflexivity].
Qed.

Lemma skipn_suffix (pre t : str) :
  skipn (0 + (List.length (pre ++ t) - List.length t)) (pre ++ t) = t.
Proof.
  rewrite length_app. simpl.
  replace (List.length pre + List.length t - List.length t)%nat
    with (List.length pre) by lia.
  rewrite skipn_app, Nat.sub_diag, skipn_all. reflexivity.
Qed.

Lemma skipn_to_suffix (line t : str) :
  (exists pre, line = pre ++ t) ->
  skipn (0 + (List.length line - List.length t)) line = t.
Proof. intros [pre ->]. apply skipn_suffix. Qed.

(** What [parse_ts_prefix] returns, by the longest run. *)
Lemma parse_ts_prefix_cases line :
  (exists n, ts_run line n
             /\ (forall n', ts_run line n' -> (n' <= n)%nat)
             /\ parse_ts_prefix line
                = (Some (firstn n line), lstrip (skipn n line)))
  \/ ((forall n, ~ ts_run line n) /\ parse_ts_prefix line = (None, line)).
Proof.
  unfold parse_ts_prefix. rewrite re_match_TS.
  pose proof (rep_greedy_longest ts_class_items line 19 (Some 26%nat) None
                (ts_cont line)) as G.
  destruct (rep_greedy ts_class_items 19 (Some 26%nat) None line (ts_cont line))
    as [[c t]|].
  - left. destruct G as (n & A & K & Max). exists n.
    destruct (skipn n line) as [|a rest] eqn:E.
    { unfold ts_cont in K. rewrite greedy_spaces_plus in K. discriminate. }
    destruct (is_space a) eqn:Sp.
    2:{ unfold ts_cont in K. rewrite greedy_spaces_plus in K. rewrite Sp in K.
        discriminate. }
    assert (R : ts_run line n).
    { apply ts_run_admissible. split; [exact A|]. exists a, rest. rewrite E. auto. }
    split; [exact R|]. split.
    + intros n' R'. destruct (Nat.le_gt_cases n' n) as [L|L]; auto. exfalso.
      apply ts_run_admissible in R'. destruct R' as (A' & c' & rest' & E' & Sp').
      specialize (Max n' L A').
      pose proof (ts_cont_none _ _ Max _ _ E'). congruence.
    + rewrite <- E in K.
      rewrite (ts_cont_some line n a rest) in K;
        [| destruct A as (_ & _ & Len & _); exact Len | exact E | exact Sp].
      inversion K; subst c t. cbn [group m_groups m_end lookup].
      cbn [String.eqb Ascii.eqb Bool.eqb]. f_equal.
      rewrite <- E. apply skipn_to_suffix.
      destruct (lstrip_suffix (skipn n line)) as [ws Hws].
      exists (firstn n line ++ ws).
      rewrite <- app_assoc, <- Hws. symmetry. apply firstn_skipn.
  - right. split; [|reflexivity].
    intros n R. apply ts_run_admissible in R.
    destruct R as (A & c & rest & E & Sp).
    pose proof (ts_cont_none _ _ (G n A) _ _ E). congruence.
Qed.

(** C2 (amended).  When the line begins with a run of 19 to 26 timestamp
    characters followed by whitespace, [parse_ts_prefix] returns the longest
    such run as the timestamp, and as the message the rest of the line
    without the whitespace at its head; for every other line it returns no
    timestamp and the line as it is. *)
Theorem parse_ts_prefix_longest_run line :
  (forall n, ts_run line n -> (forall n', ts_run line n' -> (n' <= n)%nat) ->
             parse_ts_prefix line = (Some (firstn n line), lstrip (skipn n line)))
  /\ ((forall n, ~ ts_run line n) -> parse_ts_prefix line = (None, line)).
Proof.
  destruct (parse_ts_prefix_cases line) as [(n0 & R0 & Max0 & P)|(No & P)]; split.
  - intros n R Max.
    assert (n = n0) by (apply Nat.le_antisymm; auto). subst. exact P.
  - intros No. destruct (No n0 R0).
  - intros n R. destruct (No n R).
  - intros _. exact P.
Qed.

Lemma ts_runb_iff line n : ts_runb line n = true <-> ts_run line n.
Proof.
  unfold ts_runb, ts_run.
  rewrite !andb_true_iff, Nat.leb_le, Nat.leb_le, Nat.eqb_eq, forallb_forall,
    Forall_forall.
  split.
  - intros ((((L1 & L2) & Len) & F) & Sp). repeat split; auto.
    destruct (nth_error line n) as [c|]; [eauto | discriminate].
  - intros ((L1 & L2) & Len & F & c & Nth & Sp). rewrite Nth. auto.
Qed.

(** A run is the longest when the test fails at every greater length. *)
Lemma ts_run_longest_check line n :
  forallb (fun n' => negb (ts_runb line n')) (seq (S n) (26 - n)) = true ->
  forall n', ts_run line n' -> (n' <= n)%nat.
Proof.
  intros H n' R. destruct (Nat.le_gt_cases n' n) as [L|L]; auto. exfalso.
  rewrite forallb_forall in H.
  assert (B : (n' <= 26)%nat) by (destruct R as ((_ & B) & _); exact B).
  specialize (H n'). rewrite in_seq in H.
  apply ts_runb_iff in R. rewrite R in H. cbn [negb] in H.
  assert (false = true) by (apply H; lia). discriminate.
Qed.

Lemma parse_ts_prefix_longest_run_example :
  ts_run line_two_blanks 20
  /\ parse_ts_prefix line_two_blanks
     = (Some (firstn 20 line_two_blanks), lstrip (skipn 20 line_two_blanks))
  /\ parse_ts_prefix line_no_timestamp = (None, line_no_timestamp).
Proof.
  split; [apply ts_runb_iff; vm_compute; reflexivity|]. split.
  - apply (proj1 (parse_ts_prefix_longest_run line_two_blanks) 20%nat).
    + apply ts_runb_iff. vm_compute. reflexivity.
    + apply ts_run_longest_check. vm_compute. reflexivity.
  - apply (proj2 (parse_ts_prefix_longest_run line_no_timestamp)).
    intros n R. apply ts_runb_iff in R.
    assert (E : List.length (firstn n line_no_timestamp) = n /\ (19 <= n)%nat).
    { unfold ts_runb in R. rewrite !andb_true_iff in R.
      destruct R as ((((L1 & _) & Len) & _) & _).
      apply Nat.leb_le in L1. apply Nat.eqb_eq in Len. auto. }
    destruct E as [Len L1]. rewrite length_firstn in Len.
    change (List.length line_no_timestamp) with 11%nat in Len. lia.
Defined.

(** A shorter run is not returned: after 19 timestamp characters and two
    blanks, the timestamp has 20 characters, the first blank included. *)
Lemma parse_ts_prefix_not_every_run :
  ts_run line_two_blanks 19
  /\ parse_ts_prefix line_two_blanks
     = (Some (lit "2024-05-01 10:00:00 "), lit "job started")
  /\ parse_ts_prefix line_two_blanks
     <> (Some (firstn 19 line_two_blanks), lstrip (skipn 19 line_two_blanks)).
Proof.
  split; [apply ts_runb_iff; vm_compute; reflexivity|].
  split; [vm_compute; reflexivity|]. vm_compute. discriminate.
Qed.

(** ** Durations *)


Lemma digits_test w :
  w <> [] -> forallb is_decimal w = true -> digits w.
Proof.
  intros Ne F. split; auto. apply Forall_forall. apply forallb_forall. exact F.
Qed.


(** ** Validate mode *)

Lemma validate_loop_recognised limit shown printed line rest :
  validate_loop limit shown printed (line :: rest)
  = if recognised line
    then if (limit <=? shown + 1)%Z then ((shown + 1)%Z, printed ++ [line], rest)
         else validate_loop limit (shown + 1)%Z (printed ++ [line]) rest
    else validate_loop limit shown printed rest.
Proof.
  cbn [validate_loop]. unfold recognised.
  destruct (parse_ts_prefix line) as [ts msg]. reflexivity.
Qed.

Lemma validate_loop_spec limit lines : forall shown printed,
  (shown < limit)%Z ->
  exists consumed unread,
    validate_loop limit shown printed lines
    = ((shown + Z.of_nat (List.length
                            (firstn (Z.to_nat (limit - shown))
                               (filter recognised lines))))%Z,
       printed ++ firstn (Z.to_nat (limit - shown)) (filter recognised lines),
       unread)
    /\ lines = consumed ++ unread
    /\ filter recognised consumed
       = firstn (Z.to_nat (limit - shown)) (filter recognised lines)
    /\ ((List.length (filter recognised lines) < Z.to_nat (limit - shown))%nat ->
        unread = [])
    /\ ((Z.to_nat (limit - shown) <= List.length (filter recognised lines))%nat ->
        exists before last, consumed = before ++ [last] /\ recognised last = true).
Proof.
  induction lines as [|line rest IH]; intros shown printed Lt.
  - exists [], []. simpl. rewrite firstn_nil, app_nil_r, Z.add_0_r. simpl.
    repeat split; auto. intros L. lia.
  - rewrite validate_loop_recognised. cbn [filter].
    destruct (recognised line) eqn:R.
    + assert (K : Z.to_nat (limit - shown) = S (Z.to_nat (limit - (shown + 1))))
        by lia.
      rewrite K. cbn [firstn List.length].
      destruct (Z.leb_spec limit (shown + 1)) as [Le|Gt].
      * assert (Z.to_nat (limit - (shown + 1)) = O) as -> by lia.
        exists [line], rest. cbn [firstn List.length filter]. rewrite R.
        repeat split; auto.
        -- intros L. lia.
        -- intros _. exists [], line. auto.
      * destruct (IH (shown + 1)%Z (printed ++ [line]) Gt)
          as (consumed & unread & E & Eq & F & Short & Full).
        exists (line :: consumed), unread. rewrite E. cbn [filter]. rewrite R.
        rewrite <- app_assoc. cbn [app].
        split; [f_equal; f_equal; lia|].
        split; [rewrite Eq; reflexivity|]. split; [rewrite F; reflexivity|].
        split.
        -- intros L. apply Short. lia.
        -- intros L. destruct Full as (before & last & -> & RL); [lia|].
           exists (line :: before), last. auto.
    + destruct (IH shown printed Lt)
        as (consumed & unread & E & Eq & F & Short & Full).
      exists (line :: consumed), unread. rewrite E. cbn [filter]. rewrite R.
      split; [reflexivity|]. split; [rewrite Eq; reflexivity|].
      split; [exact F|]. split; [exact Short|].
      intros L. destruct (Full L) as (before & last & -> & RL).
      exists (line :: before), last. auto.
Qed.

(** C4 (amended).  For a limit of at least one, validate mode prints the
    first [min limit M] recognised lines, as they are and in their order,
    where [M] is the number of recognised lines, and after them the notice
    when no line was recognised.  It reads the input up to the line that
    reaches the limit and leaves the rest unread. *)
Theorem validate_prints_first_matches limit lines :
  (1 <= limit)%Z ->
  exists consumed unread,
    validate limit lines
    = (firstn (Z.to_nat limit) (filter recognised lines)
       ++ match filter recognised lines with
          | [] => [no_match_notice]
          | _ => []
          end,
       unread)
    /\ List.length (firstn (Z.to_nat limit) (filter recognised lines))
       = Nat.min (Z.to_nat limit) (List.length (filter recognised lines))
    /\ lines = consumed ++ unread
    /\ filter recognised consumed
       = firstn (Z.to_nat limit) (filter recognised lines)
    /\ ((List.length (filter recognised lines) < Z.to_nat limit)%nat ->
        unread = [])
    /\ ((Z.to_nat limit <= List.length (filter recognised lines))%nat ->
        exists before last, consumed = before ++ [last] /\ recognised last = true).
Proof.
  intros L.
  destruct (validate_loop_spec limit lines 0%Z [] ltac:(lia))
    as (consumed & unread & E & Eq & F & Short & Full).
  rewrite Z.sub_0_r in *.
  exists consumed, unread. unfold validate. rewrite E. cbn [app].
  split.
  - destruct (filter recognised lines) as [|x hits] eqn:H.
    + rewrite firstn_nil. reflexivity.
    + assert (K : Z.to_nat limit = S (Z.to_nat (limit - 1))) by lia.
      rewrite K. cbn [firstn List.length].
      destruct (Z.eqb_spec
                  (0 + Z.of_nat (S (List.length (firstn (Z.to_nat (limit - 1)) hits)))) 0);
        [lia|].
      rewrite app_nil_r. reflexivity.
  - split; [apply length_firstn|]. auto.
Qed.

Lemma validate_prints_first_matches_example :
  (1 <= 1)%Z
  /\ validate 1 [line_no_timestamp; line_bottleneck; line_retry_bottleneck]
     = ([line_bottleneck], [line_retry_bottleneck])
  /\ exists consumed unread,
       validate 1 [line_no_timestamp; line_bottleneck; line_retry_bottleneck]
       = (firstn (Z.to_nat 1)
            (filter recognised
               [line_no_timestamp; line_bottleneck; line_retry_bottleneck])
          ++ match filter recognised
                     [line_no_timestamp; line_bottleneck; line_retry_bottleneck]
             with
             | [] => [no_match_notice]
             | _ => []
             end,
          unread)
       /\ List.length
            (firstn (Z.to_nat 1)
               (filter recognised
                  [line_no_timestamp; line_bottleneck; line_retry_bottleneck]))
          = Nat.min (Z.to_nat 1)
              (List.length
                 (filter recognised
                    [line_no_timestamp; line_bottleneck; line_retry_bottleneck]))
       /\ [line_no_timestamp; line_bottleneck; line_retry_bottleneck]
          = consumed ++ unread.
Proof.
  split; [lia|]. split; [vm_compute; reflexivity|].
  destruct (validate_prints_first_matches 1
              [line_no_timestamp; line_bottleneck; line_retry_bottleneck]
              ltac:(lia))
    as (consumed & unread & E & Len & Eq & _).
  exists consumed, unread. auto.
Defined.

(** With a limit of zero one line is printed all the same: the limit is
    tested after the line is printed. *)
Lemma validate_limit_zero_prints_one :
  recognised line_bottleneck = true
  /\ validate 0 [line_bottleneck; line_bottleneck]
     = ([line_bottleneck], [line_bottleneck])
  /\ List.length (fst (validate 0 [line_bottleneck; line_bottleneck]))
     <> Nat.min (Z.to_nat 0) 2.
Proof.
  split; [vm_compute; reflexivity|]. split; [vm_compute; reflexivity|].
  vm_compute. discriminate.
Qed.

(** ** Binary64 rounding *)

Open Scope Z_scope.

Lemma below_mono n d e e' :
  0 <= n -> 0 < d -> below n d e -> e <= e' -> below n d e'.
Proof.
  unfold below. intros Hn Hd B L.
  destruct (Z.leb_spec 0 e), (Z.leb_spec 0 e'); try lia.
  - assert (2 ^ e <= 2 ^ e') by (apply Z.pow_le_mono_r; lia). nia.
  - assert (0 < 2 ^ (- e)) by (apply Z.pow_pos_nonneg; lia).
    assert (0 < 2 ^ e') by (apply Z.pow_pos_nonneg; lia). nia.
  - assert (2 ^ (- e') <= 2 ^ (- e)) by (apply Z.pow_le_mono_r; lia). nia.
Qed.

Lemma below_log2 n d :
  0 < n -> 0 < d -> below n d (Z.log2 n - Z.log2 d + 1).
Proof.
  intros Hn Hd. unfold below.
  pose proof (Z.log2_spec n Hn) as [_ Un].
  pose proof (Z.log2_spec d Hd) as [Ld _].
  pose proof (Z.log2_nonneg n). pose proof (Z.log2_nonneg d).
  destruct (Z.leb_spec 0 (Z.log2 n - Z.log2 d + 1)).
  - assert (E : 2 ^ Z.succ (Z.log2 n)
                = 2 ^ Z.log2 d * 2 ^ (Z.log2 n - Z.log2 d + 1)).
    { rewrite <- Z.pow_add_r by lia. f_equal. lia. }
    assert (0 < 2 ^ (Z.log2 n - Z.log2 d + 1)) by (apply Z.pow_pos_nonneg; lia).
    nia.
  - assert (E : 2 ^ Z.log2 d
                = 2 ^ Z.succ (Z.log2 n) * 2 ^ (- (Z.log2 n - Z.log2 d + 1))).
    { rewrite <- Z.pow_add_r by lia. f_equal. lia. }
    assert (0 < 2 ^ (- (Z.log2 n - Z.log2 d + 1))) by (apply Z.pow_pos_nonneg; lia).
    nia.
Qed.

Lemma below_scale2 n d e :
  0 <= n -> 0 < d ->
  below n d e <-> fst (scale2 n d e) < snd (scale2 n d e).
Proof.
  intros Hn Hd. unfold below, scale2. destruct (0 <=? e); cbn [fst snd]; tauto.
Qed.

Lemma scale2_pos n d e :
  0 <= n -> 0 < d -> 0 <= fst (scale2 n d e) /\ 0 < snd (scale2 n d e).
Proof.
  intros Hn Hd. unfold scale2. destruct (Z.leb_spec 0 e); cbn [fst snd].
  - assert (0 < 2 ^ e) by (apply Z.pow_pos_nonneg; lia). nia.
  - assert (0 < 2 ^ (- e)) by (apply Z.pow_pos_nonneg; lia). nia.
Qed.

(** The scaled fraction at exponent [e] is below [2^53] when the fraction is
    below [2^(e + 53)]. *)
Lemma scale2_below n d e :
  0 <= n -> 0 < d -> below n d (e + 53) ->
  fst (scale2 n d e) < 2 ^ 53 * snd (scale2 n d e).
Proof.
  intros Hn Hd. unfold below, scale2.
  destruct (Z.leb_spec 0 (e + 53)), (Z.leb_spec 0 e); cbn [fst snd]; intros B;
    try lia.
  - rewrite Z.pow_add_r in B by lia. nia.
  - assert (E : 2 ^ 53 = 2 ^ (e + 53) * 2 ^ (- e)).
    { rewrite <- Z.pow_add_r by lia. f_equal. lia. }
    assert (0 < 2 ^ (- e)) by (apply Z.pow_pos_nonneg; lia).
    rewrite E. nia.
  - assert (E : 2 ^ (- e) = 2 ^ (- (e + 53)) * 2 ^ 53).
    { rewrite <- Z.pow_add_r by lia. f_equal. lia. }
    rewrite E. nia.
Qed.

Lemma round_half_even_bound n d b :
  0 <= n -> 0 < d -> n < b * d -> 0 <= round_half_even n d <= b.
Proof.
  intros Hn Hd B. unfold round_half_even.
  pose proof (Z.div_mod n d ltac:(lia)) as E.
  pose proof (Z.mod_pos_bound n d Hd) as M.
  assert (Q : 0 <= n / d) by (apply Z.div_pos; lia).
  assert (n / d < b) by (apply Z.div_lt_upper_bound; lia).
  destruct (2 * (n mod d) ?= d); [destruct (Z.even (n / d))| |]; lia.
Qed.

Lemma round_half_even_exact q d : 0 < d -> round_half_even (q * d) d = q.
Proof.
  intros Hd. unfold round_half_even.
  rewrite Z.div_mul by lia. rewrite Z.mod_mul by lia.
  destruct (Z.compare_spec (2 * 0) d); try lia.
Qed.

(** The significand and the exponent that [b64_round] returns are in range. *)
Lemma b64_round_range n d m e :
  0 <= n -> 0 < d -> b64_round n d = (m, e) ->
  0 <= m <= 2 ^ 53 /\ -1074 <= e.
Proof.
  intros Hn Hd. unfold b64_round.
  destruct (Z.eqb_spec n 0) as [->|Nz].
  { intros E. inversion E; subst. lia. }
  set (l := Z.log2 n - Z.log2 d).
  destruct (scale2 n d l) as [n1 d1] eqn:S1.
  set (e0 := if n1 <? d1 then l - 1 else l).
  set (e' := Z.max (e0 - 52) (-1074)).
  destruct (scale2 n d e') as [n2 d2] eqn:S2.
  intros E. inversion E; subst m e; clear E.
  split; [|lia].
  assert (B0 : below n d (e0 + 1)).
  { unfold e0. destruct (Z.ltb_spec n1 d1) as [Lt|Ge].
    - replace (l - 1 + 1) with l by lia.
      apply below_scale2; auto. rewrite S1. exact Lt.
    - apply below_log2; lia. }
  assert (B : below n d (e' + 53))
    by (apply (below_mono n d (e0 + 1)); auto; lia).
  pose proof (scale2_below n d e' Hn Hd B) as U. rewrite S2 in U. cbn [fst snd] in U.
  pose proof (scale2_pos n d e' Hn Hd) as [P1 P2]. rewrite S2 in P1, P2.
  cbn [fst snd] in P1, P2.
  apply round_half_even_bound; auto.
Qed.

(** *** Multiplying by a power of two is exact *)

Lemma log2_scale2 M F :
  0 < M ->
  Z.log2 (fst (scale2 M 1 (- F))) - Z.log2 (snd (scale2 M 1 (- F)))
  = Z.log2 M + F
  /\ 0 < fst (scale2 M 1 (- F)) /\ 0 < snd (scale2 M 1 (- F)).
Proof.
  intros HM. unfold scale2. destruct (Z.leb_spec 0 (- F)); cbn [fst snd].
  - rewrite Z.mul_1_l, Z.log2_pow2 by lia.
    assert (0 < 2 ^ (- F)) by (apply Z.pow_pos_nonneg; lia). lia.
  - rewrite Z.opp_involutive, Z.log2_mul_pow2 by lia.
    change (Z.log2 1) with 0.
    assert (0 < 2 ^ F) by (apply Z.pow_pos_nonneg; lia). nia.
Qed.

Lemma scale2_exact m0 t F e :
  0 <= t -> e <= F + t ->
  fst (scale2 (fst (scale2 (m0 * 2 ^ t) 1 (- F)))
         (snd (scale2 (m0 * 2 ^ t) 1 (- F))) e)
  = m0 * 2 ^ (F + t - e)
    * snd (scale2 (fst (scale2 (m0 * 2 ^ t) 1 (- F)))
             (snd (scale2 (m0 * 2 ^ t) 1 (- F))) e)
  /\ 0 < snd (scale2 (fst (scale2 (m0 * 2 ^ t) 1 (- F)))
                (snd (scale2 (m0 * 2 ^ t) 1 (- F))) e).
Proof.
  intros Ht Le. unfold scale2.
  destruct (Z.leb_spec 0 (- F)), (Z.leb_spec 0 e); cbn [fst snd];
    rewrite ?Z.opp_involutive, ?Z.mul_1_l, ?Z.mul_1_r.
  - split; [|apply Z.mul_pos_pos; apply Z.pow_pos_nonneg; lia].
    rewrite <- !Z.mul_assoc. f_equal. rewrite <- !Z.pow_add_r by lia.
    f_equal. lia.
  - split; [|apply Z.pow_pos_nonneg; lia].
    rewrite <- !Z.mul_assoc. f_equal. rewrite <- !Z.pow_add_r by lia.
    f_equal. lia.
  - split; [|apply Z.pow_pos_nonneg; lia].
    rewrite <- !Z.mul_assoc. f_equal. rewrite <- !Z.pow_add_r by lia.
    f_equal. lia.
  - split; [|lia].
    rewrite <- !Z.mul_assoc. f_equal. rewrite <- !Z.pow_add_r by lia.
    f_equal. lia.
Qed.

Lemma pow2_lt_shift m s a :
  0 < m -> 0 <= s -> (m * 2 ^ s <? 2 ^ (a + s)) = (m <? 2 ^ a).
Proof.
  intros Hm Hs.
  assert (P : 0 < 2 ^ s) by (apply Z.pow_pos_nonneg; lia).
  destruct (Z.le_gt_cases 0 a) as [Ha|Ha].
  - rewrite Z.pow_add_r by lia.
    destruct (Z.ltb_spec (m * 2 ^ s) (2 ^ a * 2 ^ s)), (Z.ltb_spec m (2 ^ a));
      auto; nia.
  - rewrite (Z.pow_neg_r 2 a) by lia.
    destruct (Z.ltb_spec m 0); [lia|].
    destruct (Z.ltb_spec (m * 2 ^ s) (2 ^ (a + s))) as [L|L]; auto.
    destruct (Z.le_gt_cases 0 (a + s)).
    + assert (2 ^ (a + s) <= 2 ^ s) by (apply Z.pow_le_mono_r; lia). nia.
    + rewrite (Z.pow_neg_r 2 (a + s)) in L by lia. nia.
Qed.

(** The product of a float and [2^k], read as an integer. *)
Lemma fmul_pow2_general m0 u e k :
  0 < m0 < 2 ^ 53 -> 0 <= u -> -1074 <= e -> 0 <= k ->
  int_of_float (fmul (FFin false (m0 * 2 ^ u) e) (FFin false (2 ^ 52) (k - 52)))
  = if b64_finite (m0 * 2 ^ u) (e + k)
    then Ok (Z.shiftl (m0 * 2 ^ u) (e + k))
    else Raise OverflowError.
Proof.
  intros Hm Hu He Hk.
  assert (Pu : 0 < 2 ^ u) by (apply Z.pow_pos_nonneg; lia).
  assert (Pm : 0 < m0 * 2 ^ u) by nia.
  cbn [fmul xorb].
  replace (m0 * 2 ^ u * 2 ^ 52) with (m0 * 2 ^ (u + 52))
    by (rewrite Z.pow_add_r by lia; ring).
  set (F := e + (k - 52)).
  assert (Pt : 0 < 2 ^ (u + 52)) by (apply Z.pow_pos_nonneg; lia).
  assert (PM : 0 < m0 * 2 ^ (u + 52)) by nia.
  pose proof (log2_scale2 (m0 * 2 ^ (u + 52)) F PM) as (Lg & Pn & Pd).
  destruct (scale2 (m0 * 2 ^ (u + 52)) 1 (- F)) as [n d] eqn:S0.
  cbn [fst snd] in Lg, Pn, Pd.
  unfold float_of_ratio, b64_round.
  destruct (Z.eqb_spec n 0) as [Z0|_]; [lia|].
  set (l := Z.log2 n - Z.log2 d) in *.
  destruct (scale2 n d l) as [n1 d1].
  set (e0 := if n1 <? d1 then l - 1 else l).
  assert (E0 : e0 <= l) by (unfold e0; destruct (n1 <? d1); lia).
  set (e' := Z.max (e0 - 52) (-1074)).
  assert (Lm : Z.log2 m0 <= 52).
  { assert (Z.log2 m0 < 53); [|lia]. apply Z.log2_lt_pow2; lia. }
  rewrite Z.log2_mul_pow2 in Lg by lia.
  assert (Le : e' <= F + (u + 52)) by (unfold e', F; lia).
  pose proof (scale2_exact m0 (u + 52) F e' ltac:(lia) Le) as [Ex Pd2].
  rewrite S0 in Ex, Pd2. cbn [fst snd] in Ex, Pd2.
  destruct (scale2 n d e') as [n2 d2]. cbn [fst snd] in Ex, Pd2.
  rewrite Ex, round_half_even_exact by assumption.
  set (s := F + (u + 52) - e') in *.
  assert (Hs : 0 <= s) by (unfold s; lia).
  assert (Ps : 0 < 2 ^ s) by (apply Z.pow_pos_nonneg; lia).
  assert (Fin : b64_finite (m0 * 2 ^ s) e' = b64_finite (m0 * 2 ^ u) (e + k)).
  { unfold b64_finite.
    destruct (Z.eqb_spec (m0 * 2 ^ s) 0); [nia|].
    destruct (Z.eqb_spec (m0 * 2 ^ u) 0); [nia|]. cbn [orb].
    replace (1024 - e') with ((1024 - e' - s) + s) by lia.
    rewrite pow2_lt_shift by lia.
    replace (1024 - (e + k)) with ((1024 - e' - s) + u) by (unfold s, F; lia).
    rewrite pow2_lt_shift by lia. reflexivity. }
  rewrite Fin. destruct (b64_finite (m0 * 2 ^ u) (e + k)); cbn [int_of_float];
    [|reflexivity].
  f_equal. rewrite <- !Z.shiftl_mul_pow2 by lia.
  rewrite !Z.shiftl_shiftl by lia. f_equal. unfold s, F. lia.
Qed.

Lemma fmul_pow2 m e k :
  0 <= m <= 2 ^ 53 -> -1074 <= e -> 0 <= k ->
  int_of_float (fmul (FFin false m e) (FFin false (2 ^ 52) (k - 52)))
  = if b64_finite m (e + k) then Ok (Z.shiftl m (e + k))
    else Raise OverflowError.
Proof.
  intros Hm He Hk.
  destruct (Z.eq_dec m 0) as [->|Nz].
  { cbn [fmul xorb]. rewrite Z.mul_0_l.
    unfold scale2. destruct (0 <=? - (e + (k - 52))); rewrite ?Z.mul_0_l;
      cbn [b64_finite Z.eqb orb]; rewrite Z.shiftl_0_l; reflexivity. }
  destruct (Z.eq_dec m (2 ^ 53)) as [->|Nt].
  - pose proof (fmul_pow2_general 1 53 e k ltac:(lia) ltac:(lia) He Hk) as H.
    rewrite !Z.mul_1_l in H. exact H.
  - pose proof (fmul_pow2_general m 0 e k ltac:(lia) ltac:(lia) He Hk) as H.
    rewrite Z.pow_0_r, !Z.mul_1_r in H. exact H.
Qed.

Close Scope Z_scope.

(** ** Sizes *)

(** *** Tokens *)

Lemma lstrip_spaces ws s : all_space ws -> lstrip (ws ++ s) = lstrip s.
Proof.
  induction 1 as [|c ws Hc F IH]; simpl; auto. rewrite Hc. exact IH.
Qed.

Lemma lstrip_token w s : token w -> lstrip (w ++ s) = w ++ s.
Proof.
  intros [Ne F]. destruct F as [|c w Hc F]; [congruence|]. simpl.
  rewrite Hc. reflexivity.
Qed.

Lemma token_rev w : token w -> token (rev w).
Proof.
  intros [Ne F]. split.
  - intros E. apply Ne. rewrite <- (rev_involutive w), E. reflexivity.
  - apply Forall_rev. exact F.
Qed.

Lemma rstrip_spaces s ws : all_space ws -> rstrip (s ++ ws) = rstrip s.
Proof.
  intros F. unfold rstrip. rewrite rev_app_distr, lstrip_spaces; auto.
  apply Forall_rev. exact F.
Qed.

Lemma rstrip_token s w : token w -> rstrip (s ++ w) = s ++ w.
Proof.
  intros T. unfold rstrip. rewrite rev_app_distr.
  rewrite lstrip_token by (apply token_rev; exact T).
  rewrite <- rev_app_distr. apply rev_involutive.
Qed.

Lemma split_from_token w : forall tok rest,
  Forall (fun c => is_space c = false) w ->
  split_from tok (w ++ rest) = split_from (rev w ++ tok) rest.
Proof.
  induction w as [|c w IH]; intros tok rest F; simpl; auto.
  inversion F; subst. rewrite H1, IH by assumption.
  rewrite <- app_assoc. reflexivity.
Qed.

Lemma split_from_spaces ws rest :
  all_space ws -> split_from [] (ws ++ rest) = split_from [] rest.
Proof.
  induction 1 as [|c ws Hc F IH]; simpl; auto. rewrite Hc. exact IH.
Qed.

Lemma split_from_gap tok ws rest :
  tok <> [] -> ws <> [] -> all_space ws ->
  split_from tok (ws ++ rest) = rev tok :: split_from [] rest.
Proof.
  intros Nt Nw F. destruct F as [|c ws Hc F]; [congruence|]. simpl.
  rewrite Hc. destruct tok; [congruence|].
  rewrite split_from_spaces by assumption. reflexivity.
Qed.

(** Two tokens with whitespace around and between them. *)
Lemma split_two_tokens ws1 num ws2 unit ws3 :
  all_space ws1 -> token num -> all_space ws2 -> ws2 <> [] -> token unit ->
  all_space ws3 ->
  split (strip (ws1 ++ num ++ ws2 ++ unit ++ ws3)) = [num; unit].
Proof.
  intros S1 Tn S2 N2 Tu S3. unfold strip.
  rewrite lstrip_spaces, lstrip_token by assumption.
  replace (num ++ ws2 ++ unit ++ ws3) with (((num ++ ws2) ++ unit) ++ ws3)
    by (repeat rewrite <- app_assoc; reflexivity).
  rewrite rstrip_spaces, rstrip_token by assumption.
  unfold split. rewrite <- app_assoc.
  rewrite split_from_token by apply Tn. rewrite app_nil_r.
  rewrite split_from_gap; auto.
  2:{ destruct Tn as [Ne _]. intros E. apply Ne.
      rewrite <- (rev_involutive num), E. reflexivity. }
  rewrite rev_involutive.
  rewrite <- (app_nil_r unit) at 1. rewrite split_from_token by apply Tu.
  rewrite app_nil_r. simpl.
  destruct (rev unit) eqn:E.
  - destruct Tu as [Ne _]. exfalso. apply Ne.
    rewrite <- (rev_involutive unit), E. reflexivity.
  - rewrite <- E, rev_involutive. reflexivity.
Qed.

(** *** Units *)

Lemma upper_same_letter u c :
  in_range 0x41 0x5A u = true -> same_letter u c -> upper_char c = u.
Proof.
  intros R [->| ->]; apply in_range_iff in R; unfold upper_char, in_range.
  - destruct (N.leb_spec 97 u); [lia|]. reflexivity.
  - destruct (N.leb_spec 97 (u + 32)), (N.leb_spec (u + 32) 122);
      cbn [andb]; lia.
Qed.

Lemma upper_two u1 u2 unit :
  in_range 0x41 0x5A u1 = true -> in_range 0x41 0x5A u2 = true ->
  Forall2 same_letter [u1; u2] unit -> upper unit = [u1; u2].
Proof.
  intros R1 R2 F. inversion F as [|a b l l' H1 F1]; subst.
  inversion F1 as [|a' b' l2 l2' H2 F2]; subst. inversion F2; subst.
  simpl. rewrite (upper_same_letter u1 b), (upper_same_letter u2 b'); auto.
Qed.

Lemma same_letter_token u1 u2 unit :
  in_range 0x41 0x5A u1 = true -> in_range 0x41 0x5A u2 = true ->
  Forall2 same_letter [u1; u2] unit -> token unit.
Proof.
  intros R1 R2 F. inversion F as [|a b l l' H1 F1]; subst.
  inversion F1 as [|a' b' l2 l2' H2 F2]; subst. inversion F2; subst.
  apply in_range_iff in R1, R2.
  assert (G : forall u c, 0x41 <= u <= 0x5A -> same_letter u c -> is_space c = false).
  { intros u c R S. destruct (is_space c) eqn:E; auto.
    apply in_ranges_iff in E. destruct E as (lo & hi & I & B).
    simpl in I.
    repeat (destruct I as [I|I]; [inversion I; subst; destruct S; lia|]).
    destruct I. }
  split; [discriminate|]. repeat constructor; eauto.
Qed.

Lemma unit_of_spec unit k :
  unit_of unit k ->
  token unit
  /\ getitem mult (upper unit) = Ok (2 ^ k)%Z
  /\ float_of_int (2 ^ k)%Z = Ok (FFin false (2 ^ 52) (k - 52))
  /\ (0 <= k)%Z.
Proof.
  assert (G : forall u,
             in_range 0x41 0x5A u = true ->
             Forall2 same_letter [u; 0x42] unit ->
             getitem mult [u; 0x42] = Ok (2 ^ k)%Z ->
             float_of_int (2 ^ k)%Z = Ok (FFin false (2 ^ 52) (k - 52)) ->
             (0 <= k)%Z ->
             token unit
             /\ getitem mult (upper unit) = Ok (2 ^ k)%Z
             /\ float_of_int (2 ^ k)%Z = Ok (FFin false (2 ^ 52) (k - 52))
             /\ (0 <= k)%Z).
  { intros u R F Gi Fl Hk.
    split; [apply (same_letter_token u 0x42 unit R eq_refl F)|].
    rewrite (upper_two u 0x42 unit R eq_refl F). auto. }
  intros [[F ->]|[[F ->]|[[F ->]|[F ->]]]].
  - apply (G 0x4B); auto; try reflexivity. lia.
  - apply (G 0x4D); auto; try reflexivity. lia.
  - apply (G 0x47); auto; try reflexivity. lia.
  - apply (G 0x54); auto; try reflexivity. lia.
Qed.

(** *** Numerals *)

Lemma num_char_bounds c : num_char c -> 0x2E <= c <= 0x39 /\ c <> 0x2F.
Proof.
  intros [H| ->]; [apply ascii_digit_iff in H|]; lia.
Qed.

Lemma drop_underscores_plain s : forall prev,
  Forall num_char s -> prev <> 0x5F -> drop_underscores prev s = Some s.
Proof.
  induction s as [|c s IH]; intros prev F Np; simpl.
  - destruct (N.eqb_spec prev 0x5F); [contradiction | reflexivity].
  - inversion F; subst. pose proof (num_char_bounds _ H1) as [B _].
    destruct (N.eqb_spec c 0x5F); [lia|].
    destruct (N.eqb_spec prev 0x5F); [contradiction|]. cbn [andb].
    rewrite IH by (auto; lia). reflexivity.
Qed.

Lemma num_char_not_c_space c : num_char c -> is_c_space c = false.
Proof.
  intros H. apply num_char_bounds in H. destruct H as [B _].
  unfold is_c_space. apply orb_false_intro.
  - destruct (in_range 0x9 0xD c) eqn:E; auto. apply in_range_iff in E. lia.
  - apply N.eqb_neq. lia.
Qed.

Lemma lstrip_c_plain s : Forall num_char s -> lstrip_c s = s.
Proof.
  intros F. destruct F as [|c s Hc F]; simpl; auto.
  rewrite num_char_not_c_space; auto.
Qed.

Lemma strip_c_plain s : Forall num_char s -> strip_c s = s.
Proof.
  intros F. unfold strip_c. rewrite (lstrip_c_plain _ F).
  rewrite lstrip_c_plain by (apply Forall_rev; assumption).
  apply rev_involutive.
Qed.

Lemma take_sign_plain s : Forall num_char s -> take_sign s = (false, s).
Proof.
  intros F. destruct F as [|c s Hc F]; simpl; auto.
  apply num_char_bounds in Hc. destruct Hc as [B _].
  destruct (N.eqb_spec c 0x2D); [lia|]. destruct (N.eqb_spec c 0x2B); [lia|].
  reflexivity.
Qed.

Lemma fold_case_plain s : Forall num_char s -> map fold_case s = s.
Proof.
  induction 1 as [|c s Hc F IH]; simpl; auto. rewrite IH. f_equal.
  apply num_char_bounds in Hc. destruct Hc as [B _].
  unfold fold_case, in_range.
  destruct (N.leb_spec 0x41 c); [lia|]. cbn [andb].
  destruct (N.eqb_spec c 0x130); [lia|]. destruct (N.eqb_spec c 0x131); [lia|].
  cbn [orb]. destruct (N.eqb_spec c 0x17F); [lia|].
  destruct (N.eqb_spec c 0x212A); [lia|]. reflexivity.
Qed.

Lemma not_a_word s (w : str) :
  Forall num_char s -> (exists c r, w = c :: r /\ 0x41 <= c) -> s <> w.
Proof.
  intros F (c & r & -> & L) E. subst s. inversion F; subst.
  apply num_char_bounds in H1. lia.
Qed.

Lemma span_digits_app ds rest :
  Forall (fun c => is_ascii_digit c = true) ds ->
  match rest with c :: _ => is_ascii_digit c = false | [] => True end ->
  span_digits (ds ++ rest) = (ds, rest).
Proof.
  intros F R. induction F as [|c ds Hc F IH]; cbn [app span_digits].
  - destruct rest as [|c r]; auto. cbn [span_digits]. rewrite R. reflexivity.
  - rewrite Hc, IH. reflexivity.
Qed.

Lemma parse_decimal_numeral ip frac :
  Forall (fun c => is_ascii_digit c = true) ip ->
  Forall (fun c => is_ascii_digit c = true) (frac_digits frac) ->
  ip ++ frac_digits frac <> [] ->
  parse_decimal (numeral ip frac)
  = Some (digits_value 0 (ip ++ frac_digits frac),
          (- Z.of_nat (List.length (frac_digits frac)))%Z).
Proof.
  intros Fi Ff Ne. unfold parse_decimal, numeral.
  destruct frac as [fp|]; cbn [frac_digits] in *.
  - rewrite span_digits_app by (auto; reflexivity).
    cbn [N.eqb Pos.eqb]. change (chr "." =? 0x2E) with true. cbv iota.
    rewrite <- (app_nil_r fp) at 1.
    rewrite span_digits_app by auto.
    destruct (ip ++ fp) eqn:E; [congruence|]. reflexivity.
  - rewrite span_digits_app by auto.
    destruct (ip ++ []) eqn:E; [congruence|]. reflexivity.
Qed.

Lemma numeral_chars ip frac :
  Forall (fun c => is_ascii_digit c = true) ip ->
  Forall (fun c => is_ascii_digit c = true) (frac_digits frac) ->
  Forall num_char (numeral ip frac).
Proof.
  intros Fi Ff. unfold numeral. apply Forall_app. split.
  - revert Fi. apply Forall_impl. intros c H. left. exact H.
  - destruct frac as [fp|]; [|constructor]. constructor; [right; reflexivity|].
    revert Ff. apply Forall_impl. intros c H. left. exact H.
Qed.

Lemma map_numeral ip frac :
  map to_ascii_number (numeral ip frac)
  = numeral (map to_ascii_number ip) (option_map (map to_ascii_number) frac).
Proof.
  unfold numeral. rewrite map_app. f_equal. destruct frac; reflexivity.
Qed.

(** [float] reads a numeral as the float nearest to its value. *)
Lemma py_float_numeral ip frac :
  Forall (fun c => is_decimal c = true) ip ->
  Forall (fun c => is_decimal c = true) (frac_digits frac) ->
  ip ++ frac_digits frac <> [] ->
  py_float (numeral ip frac)
  = Ok (float_of_ratio false (number_of (ip ++ frac_digits frac))
          (10 ^ Z.of_nat (List.length (frac_digits frac)))%Z).
Proof.
  intros Fi Ff Ne. unfold py_float. rewrite map_numeral.
  set (ip' := map to_ascii_number ip).
  set (frac' := option_map (map to_ascii_number) frac).
  assert (Efd : frac_digits frac' = map to_ascii_number (frac_digits frac))
    by (destruct frac; reflexivity).
  assert (Ai : Forall (fun c => is_ascii_digit c = true) ip')
    by (apply map_ascii_digits; assumption).
  assert (Af : Forall (fun c => is_ascii_digit c = true) (frac_digits frac'))
    by (rewrite Efd; apply map_ascii_digits; assumption).
  assert (Ne' : ip' ++ frac_digits frac' <> []).
  { rewrite Efd. unfold ip'. rewrite <- map_app. intros E.
    apply map_eq_nil in E. contradiction. }
  pose proof (numeral_chars ip' frac' Ai Af) as Ch.
  rewrite drop_underscores_plain by (auto; discriminate).
  rewrite strip_c_plain, take_sign_plain, fold_case_plain by assumption.
  destruct (list_eq_dec N.eq_dec (numeral ip' frac') (lit "inf")) as [E|_].
  { exfalso. revert E. apply not_a_word; auto. do 2 eexists. split; [reflexivity|].
    vm_compute. discriminate. }
  destruct (list_eq_dec N.eq_dec (numeral ip' frac') (lit "infinity")) as [E|_].
  { exfalso. revert E. apply not_a_word; auto. do 2 eexists. split; [reflexivity|].
    vm_compute. discriminate. }
  destruct (list_eq_dec N.eq_dec (numeral ip' frac') (lit "nan")) as [E|_].
  { exfalso. revert E. apply not_a_word; auto. do 2 eexists. split; [reflexivity|].
    vm_compute. discriminate. }
  rewrite parse_decimal_numeral by assumption.
  rewrite Efd. unfold ip'. rewrite <- map_app, length_map.
  rewrite digits_value_number by (apply Forall_app; auto).
  fold (number_of (ip ++ frac_digits frac)).
  f_equal. unfold float_of_decimal.
  destruct (frac_digits frac) as [|c fp] eqn:Efp.
  - change (Z.of_nat (List.length (@nil N))) with 0%Z.
    change (- 0)%Z with 0%Z. change (0 <=? 0)%Z with true. cbv iota.
    change (10 ^ 0)%Z with 1%Z. rewrite Z.mul_1_r. reflexivity.
  - destruct (Z.leb_spec 0 (- Z.of_nat (List.length (c :: fp)))) as [L|L].
    + simpl List.length in L. lia.
    + rewrite Z.opp_involutive. reflexivity.
Qed.

(** *** The size parser *)

Lemma numeral_token ip frac :
  Forall (fun c => is_decimal c = true) ip ->
  Forall (fun c => is_decimal c = true) (frac_digits frac) ->
  ip ++ frac_digits frac <> [] ->
  token (numeral ip frac).
Proof.
  intros Fi Ff Ne. unfold numeral. split.
  - destruct ip; [|discriminate]. destruct frac; [discriminate|].
    simpl in Ne. congruence.
  - apply Forall_app. split.
    + revert Fi. apply Forall_impl. apply decimal_not_space.
    + destruct frac as [fp|]; [|constructor]. constructor; [reflexivity|].
      revert Ff. apply Forall_impl. apply decimal_not_space.
Qed.

Lemma b64_finite_mono m e k :
  (0 <= k)%Z -> b64_finite m e = false -> b64_finite m (e + k) = false.
Proof.
  unfold b64_finite. intros Hk H. apply orb_false_elim in H. destruct H as [Z0 L].
  rewrite Z0. cbn [orb]. apply Z.ltb_ge in L. apply Z.ltb_ge.
  destruct (Z.le_gt_cases 0 (1024 - (e + k))) as [P|P].
  - assert (2 ^ (1024 - (e + k)) <= 2 ^ (1024 - e))%Z
      by (apply Z.pow_le_mono_r; lia). lia.
  - rewrite Z.pow_neg_r by lia. apply Z.eqb_neq in Z0.
    assert (0 <= 2 ^ (1024 - e))%Z by (apply Z.pow_nonneg; lia). lia.
Qed.

Lemma parse_size_numeral ws1 ip frac ws2 unit ws3 k :
  all_space ws1 -> all_space ws2 -> ws2 <> [] -> all_space ws3 ->
  Forall (fun c => is_decimal c = true) ip ->
  Forall (fun c => is_decimal c = true) (frac_digits frac) ->
  ip ++ frac_digits frac <> [] ->
  unit_of unit k ->
  parse_size (ws1 ++ numeral ip frac ++ ws2 ++ unit ++ ws3)
  = b64_size (number_of (ip ++ frac_digits frac))
      (List.length (frac_digits frac)) k.
Proof.
  intros S1 S2 N2 S3 Fi Ff Ne U.
  destruct (unit_of_spec unit k U) as (Tu & G & Fl & Hk).
  unfold parse_size, parse_size_body.
  rewrite split_two_tokens; auto using numeral_token.
  rewrite py_float_numeral by assumption. cbn [bind]. rewrite G. cbn [bind].
  rewrite Fl. cbn [bind].
  unfold float_of_ratio, b64_size.
  set (D := number_of (ip ++ frac_digits frac)).
  set (d := (10 ^ Z.of_nat (List.length (frac_digits frac)))%Z).
  assert (HD : (0 <= D)%Z) by apply number_of_nonneg.
  assert (Hd : (0 < d)%Z) by (apply Z.pow_pos_nonneg; lia).
  destruct (b64_round D d) as [m e] eqn:R.
  destruct (b64_round_range D d m e HD Hd R) as [Rm Re].
  destruct (b64_finite m e) eqn:Fin.
  - rewrite fmul_pow2 by assumption.
    destruct (b64_finite m (e + k)); reflexivity.
  - rewrite (b64_finite_mono m e k Hk Fin). cbn [fmul].
    change (2 ^ 52 =? 0)%Z with false. reflexivity.
Qed.

Lemma upper_char_inv u c :
  in_range 0x41 0x5A u = true -> upper_char c = u -> same_letter u c.
Proof.
  intros R. apply in_range_iff in R. unfold upper_char, same_letter.
  destruct (in_range 0x61 0x7A c) eqn:E; intros H.
  - apply in_range_iff in E. right. lia.
  - left. exact H.
Qed.

Lemma upper_inv u1 u2 unit :
  in_range 0x41 0x5A u1 = true -> in_range 0x41 0x5A u2 = true ->
  upper unit = [u1; u2] -> Forall2 same_letter [u1; u2] unit.
Proof.
  intros R1 R2 E. destruct unit as [|a [|b [|c r]]]; try discriminate.
  cbn [upper map] in E. injection E as H0 H1. subst u1 u2.
  constructor; [apply upper_char_inv; auto|].
  constructor; [apply upper_char_inv; auto|]. constructor.
Qed.

Lemma getitem_mult_inv unit v :
  getitem mult (upper unit) = Ok v -> exists k, unit_of unit k /\ v = (2 ^ k)%Z.
Proof.
  unfold mult. cbn [getitem].
  destruct (list_eq_dec N.eq_dec (lit "KB") (upper unit)) as [E|_].
  { intros H. inversion H. exists 10%Z. split; [|reflexivity]. left.
    split; [|reflexivity]. apply upper_inv; auto. }
  destruct (list_eq_dec N.eq_dec (lit "MB") (upper unit)) as [E|_].
  { intros H. inversion H. exists 20%Z. split; [|reflexivity]. right. left.
    split; [|reflexivity]. apply upper_inv; auto. }
  destruct (list_eq_dec N.eq_dec (lit "GB") (upper unit)) as [E|_].
  { intros H. inversion H. exists 30%Z. split; [|reflexivity]. right. right. left.
    split; [|reflexivity]. apply upper_inv; auto. }
  destruct (list_eq_dec N.eq_dec (lit "TB") (upper unit)) as [E|_].
  { intros H. inversion H. exists 40%Z. split; [|reflexivity]. right. right. right.
    split; [|reflexivity]. apply upper_inv; auto. }
  discriminate.
Qed.

Lemma parse_size_some text v :
  parse_size text = Some v ->
  exists num unit x k,
    split (strip text) = [num; unit]
    /\ py_float num = Ok x
    /\ unit_of unit k
    /\ int_of_float (fmul x (FFin false (2 ^ 52) (k - 52))) = Ok v.
Proof.
  unfold parse_size, parse_size_body.
  destruct (split (strip text)) as [|num [|unit [|z r]]]; try discriminate.
  destruct (py_float num) as [x|] eqn:P; [|discriminate]. cbn [bind].
  destruct (getitem mult (upper unit)) as [w|] eqn:G; [|discriminate].
  cbn [bind]. destruct (getitem_mult_inv unit w G) as (k & U & ->).
  destruct (unit_of_spec unit k U) as (_ & _ & Fl & _). rewrite Fl. cbn [bind].
  destruct (int_of_float (fmul x (FFin false (2 ^ 52) (k - 52)))) as [r|] eqn:I;
    [|discriminate].
  intros H. inversion H; subst. exists num, unit, x, k.
  split; [reflexivity|]. split; [exact P|]. split; [exact U|exact I].
Qed.

(** C3 (amended).  On a decimal number and a unit among KB, MB, GB, TB, in
    any case and with any whitespace around them, [parse_size] returns the
    binary64 float nearest to the number, multiplied by 2^10, 2^20, 2^30 or
    2^40 and truncated to an integer, and null when that product is beyond
    the range of binary64.  A result that is not null comes only from a text
    of two tokens, the first one read by [float], the second one such a
    unit; any other text gives null.  [parse_size] is a total function: it
    raises on no input. *)
Theorem parse_size_binary64 :
  (forall ws1 ip frac ws2 unit ws3 k,
     all_space ws1 -> all_space ws2 -> ws2 <> [] -> all_space ws3 ->
     Forall (fun c => is_decimal c = true) ip ->
     Forall (fun c => is_decimal c = true) (frac_digits frac) ->
     ip ++ frac_digits frac <> [] ->
     unit_of unit k ->
     parse_size (ws1 ++ numeral ip frac ++ ws2 ++ unit ++ ws3)
     = b64_size (number_of (ip ++ frac_digits frac))
         (List.length (frac_digits frac)) k)
  /\ (forall text v,
        parse_size text = Some v ->
        exists num unit x k,
          split (strip text) = [num; unit]
          /\ py_float num = Ok x
          /\ unit_of unit k
          /\ int_of_float (fmul x (FFin false (2 ^ 52) (k - 52))) = Ok v)
  /\ parse_size (lit "1.5 GB") = Some 1610612736%Z
  /\ parse_size (lit "2 MB") = Some 2097152%Z
  /\ parse_size (lit "5 XB") = None.
Proof.
  split; [exact parse_size_numeral|]. split; [exact parse_size_some|].
  repeat split; vm_compute; reflexivity.
Qed.

Lemma parse_size_binary64_example :
  unit_of (lit "gB") 30
  /\ parse_size (lit "  " ++ numeral (lit "1") (Some (lit "5")) ++ lit " "
                 ++ lit "gB" ++ [])
     = Some 1610612736%Z.
Proof.
  assert (U : unit_of (lit "gB") 30).
  { right. right. left. split; [|reflexivity].
    constructor; [right; reflexivity|]. constructor; [left; reflexivity|].
    constructor. }
  split; [exact U|].
  rewrite (proj1 parse_size_binary64 (lit "  ") (lit "1") (Some (lit "5"))
             (lit " ") (lit "gB") [] 30%Z).
  - vm_compute. reflexivity.
  - repeat constructor.
  - repeat constructor.
  - discriminate.
  - constructor.
  - repeat constructor.
  - repeat constructor.
  - discriminate.
  - exact U.
Defined.

(** The result is not the exact product: 0.99999999999999999999 rounds to the
    float 1.0, so the size in KB is 1024 and not 1023. *)
Lemma parse_size_not_exact :
  number_of (lit "0" ++ lit "99999999999999999999") = 99999999999999999999%Z
  /\ exact_size 99999999999999999999 (-20) 10 = 1023%Z
  /\ parse_size (numeral (lit "0") (Some (lit "99999999999999999999")) ++ lit " KB")
     = Some 1024%Z
  /\ parse_size (numeral (lit "0") (Some (lit "99999999999999999999")) ++ lit " KB")
     <> Some (exact_size
                (number_of (lit "0" ++ lit "99999999999999999999")) (-20) 10).
Proof.
  split; [vm_compute; reflexivity|]. split; [vm_compute; reflexivity|].
  split; [vm_compute; reflexivity|]. vm_compute. discriminate.
Qed.

(** ** The CSV round trip *)

(** *** Integers in decimal *)

Lemma digits_value_acc s : forall a,
  digits_value a s = (a * 10 ^ Z.of_nat (List.length s) + digits_value 0 s)%Z.
Proof.
  unfold digits_value.
  induction s as [|c s IH]; intros a; cbn [fold_left List.length].
  - change (10 ^ Z.of_nat 0)%Z with 1%Z. lia.
  - rewrite IH, (IH (10 * 0 + digit_val c)%Z).
    rewrite Nat2Z.inj_succ, Z.pow_succ_r by lia. ring.
Qed.

Lemma digit_val_char d : d < 10 -> digit_val (0x30 + d) = Z.of_N d.
Proof. intros H. unfold digit_val. f_equal. lia. Qed.

Lemma digits_of_spec fuel : forall n acc,
  n < 2 ^ N.of_nat fuel ->
  Forall (fun c => is_ascii_digit c = true) acc ->
  Forall (fun c => is_ascii_digit c = true) (digits_of fuel n acc)
  /\ digits_value 0 (digits_of fuel n acc)
     = (Z.of_N n * 10 ^ Z.of_nat (List.length acc) + digits_value 0 acc)%Z
  /\ (fuel <> O -> digits_of fuel n acc <> []).
Proof.
  induction fuel as [|f IH]; intros n acc Lt F.
  - simpl in Lt. assert (n = 0) by lia. subst. cbn [digits_of].
    repeat split; auto.
  - cbn [digits_of].
    pose proof (N.div_mod n 10 ltac:(lia)) as E.
    pose proof (N.mod_lt n 10 ltac:(lia)) as M.
    rewrite Nat2N.inj_succ, N.pow_succ_r' in Lt.
    remember (n mod 10) as d eqn:Hd0. remember (n / 10) as q eqn:Hq0.
    clear Hd0 Hq0.
    assert (Hd : is_ascii_digit (0x30 + d) = true)
      by (apply ascii_digit_iff; lia).
    assert (Dv : digits_value 0 ((0x30 + d) :: acc)
                 = (Z.of_N d * 10 ^ Z.of_nat (List.length acc)
                    + digits_value 0 acc)%Z).
    { unfold digits_value at 1. cbn [fold_left].
      fold (digits_value (10 * 0 + digit_val (0x30 + d)) acc).
      rewrite digits_value_acc, digit_val_char by assumption. lia. }
    destruct (N.ltb_spec n 10) as [Small|Big].
    + split; [constructor; auto|]. split; [|discriminate].
      rewrite Dv. assert (d = n) by lia. subst d. reflexivity.
    + assert (Lt' : q < 2 ^ N.of_nat f) by lia.
      destruct (IH q ((0x30 + d) :: acc) Lt' ltac:(constructor; auto))
        as (F' & V & Ne).
      split; [exact F'|]. split.
      * rewrite V, Dv. cbn [List.length].
        rewrite Nat2Z.inj_succ, Z.pow_succ_r by lia.
        assert (Z.of_N n = 10 * Z.of_N q + Z.of_N d)%Z by lia.
        nia.
      * intros _. destruct f; [|apply Ne; discriminate].
        cbn [digits_of]. discriminate.
Qed.

Lemma str_of_N_spec n :
  Forall (fun c => is_ascii_digit c = true) (str_of_N n)
  /\ digits_value 0 (str_of_N n) = Z.of_N n
  /\ str_of_N n <> [].
Proof.
  unfold str_of_N.
  assert (Lt : n < 2 ^ N.of_nat (S (N.to_nat (N.log2 n)))).
  { rewrite Nat2N.inj_succ, N2Nat.id. destruct (N.eq_dec n 0) as [->|Nz].
    - reflexivity.
    - apply N.log2_spec. lia. }
  destruct (digits_of_spec (S (N.to_nat (N.log2 n))) n [] Lt ltac:(constructor))
    as (F & V & Ne).
  split; [exact F|]. split; [|apply Ne; discriminate].
  rewrite V. cbn. lia.
Qed.

Lemma ascii_digits_fixed s :
  Forall (fun c => is_ascii_digit c = true) s -> map to_ascii_number s = s.
Proof.
  induction 1 as [|c s Hc F IH]; simpl; auto. rewrite IH. f_equal.
  apply ascii_digit_iff in Hc. unfold to_ascii_number.
  destruct (N.ltb_spec c 127); [reflexivity | lia].
Qed.

Lemma lstrip_c_head c s : is_c_space c = false -> lstrip_c (c :: s) = c :: s.
Proof. intros H. simpl. rewrite H. reflexivity. Qed.

(** [int(str(z))] is [z]. *)
Lemma py_int_str_of_int z : py_int (str_of_int z) = Ok z /\ str_of_int z <> [].
Proof.
  destruct (str_of_N_spec (Z.abs_N z)) as (F & V & Ne).
  unfold str_of_int. destruct (Z.ltb_spec z 0) as [Neg|Pos]; split;
    try discriminate; try assumption.
  - unfold py_int. cbn [map].
    change (to_ascii_number (chr "-")) with (chr "-").
    rewrite (ascii_digits_fixed _ F).
    assert (S : strip_c (chr "-" :: str_of_N (Z.abs_N z))
                = chr "-" :: str_of_N (Z.abs_N z)).
    { unfold strip_c. rewrite lstrip_c_head by reflexivity.
      cbn [rev]. destruct (rev (str_of_N (Z.abs_N z))) as [|d r] eqn:E.
      - exfalso. apply Ne. rewrite <- (rev_involutive (str_of_N _)), E.
        reflexivity.
      - cbn [app]. rewrite lstrip_c_head.
        + change (d :: r ++ [chr "-"]) with ((d :: r) ++ [chr "-"]).
          rewrite <- E, rev_app_distr, rev_involutive. reflexivity.
        + apply ascii_digit_not_c_space.
          assert (In d (rev (str_of_N (Z.abs_N z)))) by (rewrite E; left; auto).
          rewrite Forall_forall in F. apply F. apply in_rev. assumption. }
    rewrite S. cbn [take_sign]. change (chr "-" =? 0x2D) with true. cbv iota.
    rewrite int_digits_false, V by assumption. f_equal. lia.
  - unfold py_int. rewrite (ascii_digits_fixed _ F).
    rewrite (strip_c_digits _ F), (take_sign_digits _ F).
    rewrite int_digits_false, V by assumption. f_equal. lia.
Qed.

(** *** One field *)

Lemma plain_char c :
  needs_quotes c = false ->
  (c =? comma) = false /\ (c =? dquote) = false /\ (c =? CR) = false
  /\ (c =? LF) = false.
Proof.
  unfold needs_quotes. intros H.
  apply orb_false_elim in H. destruct H as [H H4].
  apply orb_false_elim in H. destruct H as [H H3].
  apply orb_false_elim in H. destruct H as [H1 H2]. auto.
Qed.

Lemma read_plain f : forall st fld rcd rcds,
  Forall (fun c => needs_quotes c = false) f ->
  st = StartField \/ st = InField ->
  fold_left read_char f (mk_reader st fld rcd rcds)
  = mk_reader (match f with [] => st | _ => InField end) (rev f ++ fld) rcd rcds.
Proof.
  induction f as [|c f IH]; intros st fld rcd rcds F S; cbn [fold_left].
  - reflexivity.
  - inversion F; subst. destruct (plain_char c H1) as (E1 & E2 & E3 & E4).
    assert (R : read_char (mk_reader st fld rcd rcds) c
                = mk_reader InField (c :: fld) rcd rcds).
    { unfold read_char, mk_reader. cbn [r_state].
      destruct S as [-> | ->]; rewrite ?E1, ?E2, ?E3, ?E4; reflexivity. }
    rewrite R, IH by auto. cbn [rev]. rewrite <- app_assoc.
    destruct f; reflexivity.
Qed.

Lemma read_quoted_body f : forall fld rcd rcds,
  fold_left read_char (double_quotes f) (mk_reader InQuoted fld rcd rcds)
  = mk_reader InQuoted (rev f ++ fld) rcd rcds.
Proof.
  induction f as [|c f IH]; intros fld rcd rcds.
  - reflexivity.
  - unfold double_quotes. cbn [flat_map]. fold (double_quotes f).
    rewrite fold_left_app. cbn [rev]. rewrite <- app_assoc. cbn [app].
    rewrite <- IH. f_equal.
    destruct (N.eqb_spec c dquote) as [->|Ne].
    + reflexivity.
    + cbn [fold_left]. unfold read_char, mk_reader. cbn [r_state].
      apply N.eqb_neq in Ne. rewrite Ne. reflexivity.
Qed.

(** After a field the reader holds its text, in a state from which a comma or
    a line end completes the field. *)
Lemma read_field f rcd rcds :
  exists st,
    fold_left read_char (csv_field f) (mk_reader StartField [] rcd rcds)
    = mk_reader st (rev f) rcd rcds
    /\ (st = StartField \/ st = InField \/ st = QuoteInQuoted).
Proof.
  unfold csv_field. destruct (existsb needs_quotes f) eqn:Q.
  - exists QuoteInQuoted. split; [|auto].
    cbn [fold_left]. rewrite fold_left_app.
    change (read_char (mk_reader StartField [] rcd rcds) dquote)
      with (mk_reader InQuoted [] rcd rcds).
    rewrite read_quoted_body, app_nil_r. reflexivity.
  - assert (F : Forall (fun c => needs_quotes c = false) f).
    { apply Forall_forall. intros c I.
      destruct (needs_quotes c) eqn:E; auto.
      assert (existsb needs_quotes f = true)
        by (apply existsb_exists; eauto). congruence. }
    rewrite read_plain by auto. rewrite app_nil_r.
    destruct f; eauto.
Qed.

Lemma read_comma st fld rcd rcds :
  st = StartField \/ st = InField \/ st = QuoteInQuoted ->
  read_char (mk_reader st fld rcd rcds) comma
  = mk_reader StartField [] (rev fld :: rcd) rcds.
Proof. intros [-> | [-> | ->]]; reflexivity. Qed.

Lemma read_line_end st fld rcd rcds :
  st = StartField \/ st = InField \/ st = QuoteInQuoted ->
  fold_left read_char [CR; LF] (mk_reader st fld rcd rcds)
  = mk_reader StartRecord [] [] (rev (rev fld :: rcd) :: rcds).
Proof. intros [-> | [-> | ->]]; reflexivity. Qed.

(** *** One row *)

Lemma read_fields fields : forall rcd rcds,
  fields <> [] ->
  fold_left read_char (join comma (map csv_field fields) ++ [CR; LF])
    (mk_reader StartField [] rcd rcds)
  = mk_reader StartRecord [] [] ((rev rcd ++ fields) :: rcds).
Proof.
  induction fields as [|f fields IH]; intros rcd rcds Ne; [congruence|].
  destruct (read_field f rcd rcds) as (st & R & S).
  destruct fields as [|g fields].
  - cbn [map join]. rewrite fold_left_app, R, read_line_end by assumption.
    rewrite rev_involutive. reflexivity.
  - change (join comma (map csv_field (f :: g :: fields)))
      with (csv_field f ++ comma :: join comma (map csv_field (g :: fields))).
    rewrite <- app_assoc, fold_left_app, R. cbn [app fold_left].
    rewrite read_comma by assumption. rewrite rev_involutive.
    rewrite IH by discriminate. cbn [rev]. rewrite <- app_assoc. reflexivity.
Qed.

Lemma csv_field_head f c r :
  csv_field f = c :: r -> (c =? CR) = false /\ (c =? LF) = false.
Proof.
  unfold csv_field. destruct (existsb needs_quotes f) eqn:Q.
  - intros E. inversion E; subst. split; reflexivity.
  - intros ->. cbn [existsb] in Q. apply orb_false_elim in Q. destruct Q as [Q _].
    destruct (plain_char c Q) as (_ & _ & E3 & E4). auto.
Qed.

Lemma start_record_char c fld rcd rcds :
  (c =? CR) = false -> (c =? LF) = false ->
  read_char (mk_reader StartRecord fld rcd rcds) c
  = read_char (mk_reader StartField fld rcd rcds) c.
Proof.
  intros E1 E2. unfold read_char, mk_reader. cbn [r_state].
  rewrite E1, E2. reflexivity.
Qed.

(** A row of two fields or more is read back as it was written. *)
Lemma read_row f g fields rcds :
  fold_left read_char (csv_writerow (f :: g :: fields))
    (mk_reader StartRecord [] [] rcds)
  = mk_reader StartRecord [] [] ((f :: g :: fields) :: rcds).
Proof.
  pose proof (read_fields (f :: g :: fields) [] rcds ltac:(discriminate)) as R.
  unfold csv_writerow.
  change (join comma (map csv_field (f :: g :: fields)))
    with (csv_field f ++ comma :: join comma (map csv_field (g :: fields))) in *.
  destruct (csv_field f) as [|c r] eqn:E.
  - cbn [app fold_left] in *. rewrite start_record_char by reflexivity. exact R.
  - destruct (csv_field_head f c r E) as [E1 E2].
    cbn [app fold_left] in *. rewrite start_record_char by assumption. exact R.
Qed.

(** *** The file *)

Lemma read_row_fields r rcds :
  fold_left read_char (csv_writerow (row_fields r))
    (mk_reader StartRecord [] [] rcds)
  = mk_reader StartRecord [] [] (row_fields r :: rcds).
Proof. unfold row_fields. cbn [headers map]. apply read_row. Qed.

Lemma read_header rcds :
  fold_left read_char (csv_writerow (map lit headers))
    (mk_reader StartRecord [] [] rcds)
  = mk_reader StartRecord [] [] (map lit headers :: rcds).
Proof. cbn [headers map]. apply read_row. Qed.

Lemma read_rows rows : forall rcds,
  fold_left read_char (flat_map (fun r => csv_writerow (row_fields r)) rows)
    (mk_reader StartRecord [] [] rcds)
  = mk_reader StartRecord [] [] (rev (map row_fields rows) ++ rcds).
Proof.
  induction rows as [|r rows IH]; intros rcds; cbn [flat_map map rev].
  - reflexivity.
  - rewrite fold_left_app, read_row_fields, IH, <- app_assoc. reflexivity.
Qed.

Lemma csv_records_write_csv rows :
  csv_records (write_csv rows) = map lit headers :: map row_fields rows.
Proof.
  unfold csv_records, write_csv. rewrite fold_left_app.
  fold (mk_reader StartRecord [] [] []).
  rewrite read_header, read_rows.
  unfold read_end, mk_reader. cbn [r_state r_records].
  rewrite rev_app_distr, rev_involutive. reflexivity.
Qed.

Lemma filter_row_fields rows :
  filter (fun rec : list str => match rec with [] => false | _ => true end)
    (map row_fields rows)
  = map row_fields rows.
Proof.
  induction rows as [|r rows IH]; cbn [map filter]; auto.
  unfold row_fields at 1. cbn [headers map]. rewrite IH. reflexivity.
Qed.

Lemma int_cell_opt_int o :
  int_cell (Some (cell_text (opt_int o))) = Ok o.
Proof.
  destruct o as [z|]; [|reflexivity]. cbn [opt_int cell_text].
  destruct (py_int_str_of_int z) as [P Ne]. unfold int_cell, text_cell.
  destruct (str_of_int z) as [|c s] eqn:E; [congruence|].
  rewrite P. reflexivity.
Qed.

Lemma decode_row r :
  text_filled r ->
  decode_record (map lit headers) (row_fields r) = Ok (cells_of_row r).
Proof.
  intros [Nm Nt]. unfold decode_record, row_fields. cbn [headers map].
  set (t1 := cell_text (row_get r "event_time")).
  set (t2 := cell_text (row_get r "bytes_sent")).
  set (t3 := cell_text (row_get r "duration_s")).
  set (t4 := cell_text (row_get r "network_bottleneck_pct")).
  set (t5 := cell_text (row_get r "wan_cache_hit_pct")).
  set (t6 := cell_text (row_get r "retries")).
  set (t7 := cell_text (row_get r "message")).
  change (cell_of _ _ (lit "event_time")) with (Some t1).
  change (cell_of _ _ (lit "bytes_sent")) with (Some t2).
  change (cell_of _ _ (lit "duration_s")) with (Some t3).
  change (cell_of _ _ (lit "network_bottleneck_pct")) with (Some t4).
  change (cell_of _ _ (lit "wan_cache_hit_pct")) with (Some t5).
  change (cell_of _ _ (lit "retries")) with (Some t6).
  change (cell_of _ _ (lit "message")) with (Some t7).
  subst t1 t2 t3 t4 t5 t6 t7.
  change (row_get r "event_time") with (opt_str (event_time r)).
  change (row_get r "bytes_sent") with (opt_int (bytes_sent r)).
  change (row_get r "duration_s") with (opt_int (duration_s r)).
  change (row_get r "network_bottleneck_pct")
    with (opt_int (network_bottleneck_pct r)).
  change (row_get r "wan_cache_hit_pct") with (opt_int (wan_cache_hit_pct r)).
  change (row_get r "retries") with (opt_int (retries r)).
  change (row_get r "message") with (VStr (message r)).
  rewrite !int_cell_opt_int. cbn [bind]. unfold cells_of_row. f_equal. f_equal.
  - destruct (event_time r) as [[|c s]|] eqn:E; try reflexivity.
    exfalso. apply Nt. reflexivity.
  - cbn [cell_text]. destruct (message r) as [|c s] eqn:E; [|reflexivity].
    exfalso. apply Nm. reflexivity.
Qed.

Lemma read_csv_write_csv rows :
  Forall text_filled rows -> read_csv (write_csv rows) = Ok (map cells_of_row rows).
Proof.
  intros F. unfold read_csv. rewrite csv_records_write_csv.
  cbn [filter headers map]. fold headers.
  change (filter _ (map row_fields rows))
    with (filter (fun rec : list str => match rec with [] => false | _ => true end)
            (map row_fields rows)).
  rewrite filter_row_fields.
  induction F as [|r rows Hr F IH]; cbn [map map_res]; auto.
  change [lit "event_time"; lit "bytes_sent"; lit "duration_s";
          lit "network_bottleneck_pct"; lit "wan_cache_hit_pct"; lit "retries";
          lit "message"] with (map lit headers) in *.
  rewrite decode_row by assumption. cbn [bind]. rewrite IH. reflexivity.
Qed.

(** *** Event records *)

Lemma event_record_row_of r :
  event_record r -> exists line, recognised line = true /\ r = row_of line.
Proof.
  intros [line H]. rewrite parse_line_spec in H. exists line.
  destruct (recognised line); inversion H; auto.
Qed.

Lemma event_record_filled r : event_record r -> text_filled r.
Proof.
  intros H. destruct (event_record_row_of r H) as (line & R & ->).
  unfold text_filled, row_of. cbn [message event_time]. split.
  - unfold recognised in R. intros E. rewrite E in R. vm_compute in R.
    discriminate.
  - destruct (parse_ts_prefix_cases line) as [(n & Run & _ & P)|(_ & P)];
      rewrite P; cbn [fst]; [|discriminate].
    destruct Run as ((L & _) & Len & _). intros E. inversion E as [E'].
    rewrite E' in Len. simpl in Len. lia.
Qed.

(** C8.  Event records written by [write_csv] and read back, with an empty
    cell taken as null and the cells of the integer columns read with [int],
    come back as they were: the file holds the header row and one row per
    record in the fixed order of the columns, and every field of every record
    has its value again (a null field is null again). *)
Theorem csv_round_trip rows :
  Forall event_record rows ->
  csv_records (write_csv rows) = map lit headers :: map row_fields rows
  /\ read_csv (write_csv rows) = Ok (map cells_of_row rows).
Proof.
  intros F. split; [apply csv_records_write_csv|].
  apply read_csv_write_csv. revert F. apply Forall_impl.
  apply event_record_filled.
Qed.

Lemma recognised_event_record line :
  recognised line = true -> event_record (row_of line).
Proof.
  intros R. exists line. rewrite parse_line_spec, R. reflexivity.
Qed.

Lemma csv_round_trip_example :
  Forall event_record [row_of line_retry_bottleneck; row_of line_two_transfers]
  /\ csv_records
       (write_csv [row_of line_retry_bottleneck; row_of line_two_transfers])
     = map lit headers
       :: map row_fields [row_of line_retry_bottleneck; row_of line_two_transfers]
  /\ read_csv (write_csv [row_of line_retry_bottleneck; row_of line_two_transfers])
     = Ok (map cells_of_row
             [row_of line_retry_bottleneck; row_of line_two_transfers]).
Proof.
  assert (F : Forall event_record
                [row_of line_retry_bottleneck; row_of line_two_transfers]).
  { constructor; [|constructor; [|constructor]];
      apply recognised_event_record; vm_compute; reflexivity. }
  split; [exact F|].
  exact (csv_round_trip
           [row_of line_retry_bottleneck; row_of line_two_transfers] F).
Defined.

(** *** Two occurrences in one message *)


(** ** The timestamp prefix, from its result *)

Lemma lstrip_idem s : lstrip (lstrip s) = lstrip s.
Proof.
  induction s as [|a s IH]; simpl; auto.
  destruct (is_space a) eqn:E; auto. simpl. rewrite E. reflexivity.
Qed.

Lemma lstrip_spaces_split s : exists ws, s = ws ++ lstrip s /\ all_space ws.
Proof.
  induction s as [|a s (ws & E & A)]; simpl.
  - exists []. split; [reflexivity | constructor].
  - destruct (is_space a) eqn:Sp.
    + exists (a :: ws). split; [simpl; congruence | constructor; assumption].
    + exists []. split; [reflexivity | constructor].
Qed.

(** X1.  When [parse_ts_prefix] returns a timestamp, the line is the
    timestamp, a gap of whitespace that is not empty, and the message; the
    timestamp has 19 to 26 characters, all of them timestamp characters (so a
    line of fewer than 20 characters has none), and the message does not
    begin with whitespace.  Without a timestamp the message is the line. *)
Theorem parse_ts_prefix_decomposes line :
  (forall ts msg,
     parse_ts_prefix line = (Some ts, msg) ->
     exists gap,
       line = ts ++ gap ++ msg
       /\ gap <> [] /\ all_space gap
       /\ (19 <= List.length ts <= 26)%nat
       /\ Forall (fun c => ts_char c = true) ts
       /\ lstrip msg = msg
       /\ (20 <= List.length line)%nat)
  /\ (forall msg, parse_ts_prefix line = (None, msg) -> msg = line).
Proof.
  destruct (parse_ts_prefix_cases line) as [(n & R & _ & E) | [_ E]];
    rewrite E; split; try discriminate.
  - intros ts msg H. inversion H; subst ts msg. clear H.
    destruct R as (B & Len & Cls & c & Nth & Sp).
    assert (Lt : (n < List.length line)%nat).
    { apply nth_error_Some. rewrite Nth. discriminate. }
    destruct (lstrip_spaces_split (skipn n line)) as (gap & Eg & Ag).
    exists gap.
    assert (Egap : gap <> []).
    { intros ->. simpl in Eg.
      destruct (skipn n line) as [|a rest] eqn:Es.
      - apply (f_equal (@List.length N)) in Es. rewrite length_skipn in Es.
        simpl in Es. lia.
      - assert (a = c).
        { pose proof (firstn_skipn n line) as F. rewrite Es in F.
          rewrite <- F in Nth. rewrite nth_error_app2 in Nth by lia.
          rewrite Len, Nat.sub_diag in Nth. simpl in Nth. congruence. }
        subst a. simpl in Eg. rewrite Sp in Eg.
        destruct (lstrip_spaces_split rest) as (ws & Er & _).
        apply (f_equal (@List.length N)) in Eg.
        apply (f_equal (@List.length N)) in Er.
        simpl in Eg. rewrite length_app in Er. lia. }
    split; [rewrite <- Eg; symmetry; apply firstn_skipn|].
    split; [exact Egap|]. split; [exact Ag|].
    split; [rewrite Len; exact B|]. split; [exact Cls|].
    split; [apply lstrip_idem|]. lia.
  - intros msg H. inversion H. reflexivity.
Qed.

Lemma parse_ts_prefix_decomposes_example :
  parse_ts_prefix line_retry_bottleneck
  = (Some (lit "2024-05-01 10:00:00"), lit "Bottleneck: Network: 87% retries: 3")
  /\ exists gap,
       line_retry_bottleneck
       = lit "2024-05-01 10:00:00" ++ gap
         ++ lit "Bottleneck: Network: 87% retries: 3"
       /\ gap <> [] /\ all_space gap
       /\ (19 <= List.length (lit "2024-05-01 10:00:00") <= 26)%nat
       /\ Forall (fun c => ts_char c = true) (lit "2024-05-01 10:00:00")
       /\ lstrip (lit "Bottleneck: Network: 87% retries: 3")
          = lit "Bottleneck: Network: 87% retries: 3"
       /\ (20 <= List.length line_retry_bottleneck)%nat.
Proof.
  split; [vm_compute; reflexivity|].
  apply (proj1 (parse_ts_prefix_decomposes line_retry_bottleneck)).
  vm_compute. reflexivity.
Defined.

(** ** Durations that are not of the form h:m:s *)

Lemma split_on_from_length sep s : forall tok,
  List.length (split_on_from sep tok s) = S (count_occ N.eq_dec s sep).
Proof.
  induction s as [|c s IH]; intros tok; simpl; auto.
  destruct (N.eqb_spec c sep) as [->|Ne].
  - simpl. rewrite IH. destruct (N.eq_dec sep sep); congruence.
  - rewrite IH. destruct (N.eq_dec c sep); congruence.
Qed.

Lemma join_cons sep f fs : fs <> [] -> join sep (f :: fs) = f ++ sep :: join sep fs.
Proof. destruct fs; [congruence | reflexivity]. Qed.

Lemma split_on_from_nonempty sep s tok : split_on_from sep tok s <> [].
Proof.
  intros E. apply (f_equal (@List.length str)) in E.
  rewrite split_on_from_length in E. discriminate.
Qed.

Lemma join_split_on_from sep s : forall tok,
  join sep (split_on_from sep tok s) = rev tok ++ s.
Proof.
  induction s as [|c s IH]; intros tok; simpl.
  - rewrite app_nil_r. reflexivity.
  - destruct (N.eqb_spec c sep) as [->|Ne].
    + rewrite join_cons by apply split_on_from_nonempty.
      rewrite IH. reflexivity.
    + rewrite IH. simpl. rewrite <- app_assoc. reflexivity.
Qed.

Lemma map_res_length {A B} (f : A -> res B) l : forall l',
  map_res f l = Ok l' -> List.length l' = List.length l.
Proof.
  induction l as [|x l IH]; simpl; intros l' E.
  - inversion E. reflexivity.
  - destruct (f x); simpl in E; [|discriminate].
    destruct (map_res f l); simpl in E; [|discriminate].
    inversion E. simpl. f_equal. apply IH. reflexivity.
Qed.

Lemma py_int_raises s e : py_int s = Raise e -> e = ValueError.
Proof.
  unfold py_int. destruct (take_sign _) as [neg t].
  destruct (int_digits false t); intros E; inversion E. reflexivity.
Qed.

Lemma map_res_py_int_raises l e : map_res py_int l = Raise e -> e = ValueError.
Proof.
  induction l as [|x l IH]; simpl; [discriminate|].
  destruct (py_int x) eqn:P; simpl.
  - destruct (map_res py_int l); simpl; [discriminate|].
    intros E. inversion E; subst. apply IH. reflexivity.
  - intros E. inversion E; subst. eapply py_int_raises. eassumption.
Qed.

(** X2.  [parse_dur] has no guard of its own: on a text that does not hold
    exactly two colons it raises [ValueError], and [ValueError] is the only
    exception it raises.  When it returns, the text is three fields between
    two colons, each of them an integer for [int], and the result is
    hours * 3600 + minutes * 60 + seconds. *)
Theorem parse_dur_shape hms :
  (count_occ N.eq_dec hms (chr ":") <> 2%nat -> parse_dur hms = Raise ValueError)
  /\ (forall e, parse_dur hms = Raise e -> e = ValueError)
  /\ (forall v, parse_dur hms = Ok v ->
        exists h m s a b c,
          hms = h ++ chr ":" :: m ++ chr ":" :: s
          /\ py_int h = Ok a /\ py_int m = Ok b /\ py_int s = Ok c
          /\ v = (a * 3600 + b * 60 + c)%Z).
Proof.
  unfold parse_dur.
  pose proof (split_on_from_length (chr ":") hms []) as Len.
  pose proof (join_split_on_from (chr ":") hms []) as J.
  fold (split_on (chr ":") hms) in Len, J.
  destruct (map_res py_int (split_on (chr ":") hms)) as [l|e0] eqn:M; simpl.
  - pose proof (map_res_length _ _ _ M) as Ll. rewrite Len in Ll.
    split; [|split].
    + intros C. destruct l as [|a [|b [|c [|d l]]]]; try reflexivity.
      simpl in Ll. congruence.
    + intros e E. destruct l as [|a [|b [|c [|d l]]]]; inversion E; reflexivity.
    + intros v E. destruct l as [|a [|b [|c [|d l]]]]; inversion E.
      destruct (split_on (chr ":") hms) as [|h [|m [|s [|x fs]]]];
        simpl in Len, Ll; try congruence.
      simpl in M.
      destruct (py_int h) as [a'|] eqn:Ph; simpl in M; [|discriminate].
      destruct (py_int m) as [b'|] eqn:Pm; simpl in M; [|discriminate].
      destruct (py_int s) as [c'|] eqn:Ps; simpl in M; [|discriminate].
      inversion M; subst a' b' c'.
      exists h, m, s, a, b, c. simpl in J. rewrite <- J.
      repeat split; auto.
  - apply map_res_py_int_raises in M. subst e0.
    split; [reflexivity|]. split; [|discriminate].
    intros e E. inversion E. reflexivity.
Qed.

Lemma parse_dur_shape_example :
  (count_occ N.eq_dec (lit "02:03") (chr ":") <> 2%nat
   /\ parse_dur (lit "02:03") = Raise ValueError)
  /\ (parse_dur (lit "1:2:3:4") = Raise ValueError /\ ValueError = ValueError)
  /\ (parse_dur (lit " 1:-2:0_3") = Ok 3483%Z
      /\ exists h m s a b c,
           lit " 1:-2:0_3" = h ++ chr ":" :: m ++ chr ":" :: s
           /\ py_int h = Ok a /\ py_int m = Ok b /\ py_int s = Ok c
           /\ 3483%Z = (a * 3600 + b * 60 + c)%Z).
Proof.
  split; [|split].
  - split; [vm_compute; discriminate|].
    apply (proj1 (parse_dur_shape (lit "02:03"))). vm_compute. discriminate.
  - split; [vm_compute; reflexivity|].
    apply (proj1 (proj2 (parse_dur_shape (lit "1:2:3:4"))) ValueError).
    vm_compute. reflexivity.
  - split; [vm_compute; reflexivity|].
    apply (proj2 (proj2 (parse_dur_shape (lit " 1:-2:0_3")))).
    vm_compute. reflexivity.
Defined.

(** ** Sizes that are whole numbers *)

Open Scope Z_scope.

Lemma b64_round_whole D :
  0 < D < 2 ^ 53 ->
  b64_round D 1 = (D * 2 ^ (52 - Z.log2 D), Z.log2 D - 52).
Proof.
  intros [Pos Lt]. unfold b64_round.
  destruct (Z.eqb_spec D 0) as [->|_]; [lia|].
  change (Z.log2 1) with 0. rewrite Z.sub_0_r.
  pose proof (Z.log2_nonneg D) as L0.
  assert (L52 : Z.log2 D < 53) by (apply Z.log2_lt_pow2; lia).
  destruct (Z.log2_spec D Pos) as [Lo Hi].
  remember (Z.log2 D) as l eqn:El. clear El.
  unfold scale2 at 1.
  destruct (Z.leb_spec 0 l) as [_|]; [|lia].
  destruct (Z.ltb_spec D (1 * 2 ^ l)) as [C|_]; [lia|].
  rewrite Z.max_l by lia.
  unfold scale2.
  destruct (Z.leb_spec 0 (l - 52)) as [G|G].
  - assert (l = 52) by lia. subst l.
    change (52 - 52) with 0. change (2 ^ 0) with 1. change (1 * 1) with 1.
    rewrite Z.mul_1_r.
    rewrite <- (Z.mul_1_r D) at 1. rewrite round_half_even_exact by lia.
    reflexivity.
  - replace (- (l - 52)) with (52 - l) by lia.
    rewrite <- (Z.mul_1_r (D * 2 ^ (52 - l))) at 1.
    rewrite round_half_even_exact by lia. reflexivity.
Qed.

Lemma b64_size_whole D k :
  0 <= D < 2 ^ 53 -> 0 <= k <= 40 -> b64_size D 0 k = Some (D * 2 ^ k).
Proof.
  intros [Pos Lt] K. unfold b64_size.
  change (10 ^ Z.of_nat 0) with 1.
  destruct (Z.eq_dec D 0) as [->|Nz].
  - change (b64_round 0 1) with (0, 0). cbn iota.
    unfold b64_finite. change (0 =? 0) with true. cbn [orb].
    rewrite Z.shiftl_0_l. reflexivity.
  - rewrite b64_round_whole by lia.
    pose proof (Z.log2_nonneg D) as L0.
    assert (L52 : Z.log2 D < 53) by (apply Z.log2_lt_pow2; lia).
    remember (Z.log2 D) as l eqn:El. clear El.
    assert (P : 0 < 2 ^ (52 - l)) by (apply Z.pow_pos_nonneg; lia).
    assert (M : D * 2 ^ (52 - l) < 2 ^ (1024 - (l - 52 + k))).
    { apply Z.lt_le_trans with (2 ^ 53 * 2 ^ (52 - l)).
      - apply Z.mul_lt_mono_pos_r; lia.
      - rewrite <- Z.pow_add_r by lia. apply Z.pow_le_mono_r; lia. }
    unfold b64_finite.
    destruct (Z.ltb_spec (D * 2 ^ (52 - l)) (2 ^ (1024 - (l - 52 + k))));
      [|lia].
    rewrite orb_true_r. f_equal.
    destruct (Z.le_gt_cases 0 (l - 52 + k)) as [G|G].
    + rewrite Z.shiftl_mul_pow2 by lia.
      rewrite <- Z.mul_assoc, <- Z.pow_add_r by lia.
      f_equal. f_equal. lia.
    + rewrite Z.shiftl_div_pow2 by lia.
      replace (52 - l) with (k + (- (l - 52 + k))) by lia.
      rewrite Z.pow_add_r by lia. rewrite Z.mul_assoc.
      apply Z.div_mul.
      apply Z.pow_nonzero; lia.
Qed.

Close Scope Z_scope.

Lemma unit_of_bound unit k : unit_of unit k -> (0 <= k <= 40)%Z.
Proof. intros [[_ ->]|[[_ ->]|[[_ ->]|[_ ->]]]]; lia. Qed.

(** X3.  For a whole number below 2^53 and a unit among KB, MB, GB, TB, in
    any case and with any whitespace around them, [parse_size] returns the
    exact product of the number and the multiplier of the unit: the
    conversion to a float loses nothing there. *)
Theorem parse_size_whole_number ws1 ip ws2 unit ws3 k :
  all_space ws1 -> all_space ws2 -> ws2 <> [] -> all_space ws3 ->
  digits ip -> (number_of ip < 2 ^ 53)%Z -> unit_of unit k ->
  parse_size (ws1 ++ ip ++ ws2 ++ unit ++ ws3) = Some (number_of ip * 2 ^ k)%Z.
Proof.
  intros A1 A2 N2 A3 [Ne D] Lt U.
  assert (Ne' : ip ++ frac_digits None <> []).
  { cbn [frac_digits]. rewrite app_nil_r. exact Ne. }
  pose proof (parse_size_numeral ws1 ip None ws2 unit ws3 k A1 A2 N2 A3 D
                (Forall_nil _) Ne' U) as P.
  unfold numeral, frac_digits in P. rewrite !app_nil_r in P.
  rewrite P. apply b64_size_whole.
  - split; [apply number_of_nonneg | exact Lt].
  - apply (unit_of_bound unit). exact U.
Qed.

Lemma parse_size_whole_number_example :
  all_space (lit " ") /\ all_space (lit "  ") /\ lit "  " <> [] /\ all_space []
  /\ digits (lit "9007199254740991")
  /\ (number_of (lit "9007199254740991") < 2 ^ 53)%Z
  /\ unit_of (lit "tb") 40
  /\ parse_size (lit " " ++ lit "9007199254740991" ++ lit "  " ++ lit "tb" ++ [])
     = Some (number_of (lit "9007199254740991") * 2 ^ 40)%Z.
Proof.
  assert (A1 : all_space (lit " ")) by (repeat constructor).
  assert (A2 : all_space (lit "  ")) by (repeat constructor).
  assert (N2 : lit "  " <> []) by discriminate.
  assert (A3 : all_space []) by constructor.
  assert (D : digits (lit "9007199254740991")).
  { apply digits_test; [discriminate | vm_compute; reflexivity]. }
  assert (Lt : (number_of (lit "9007199254740991") < 2 ^ 53)%Z).
  { vm_compute. reflexivity. }
  assert (U : unit_of (lit "tb") 40).
  { right. right. right. split; [|reflexivity].
    constructor; [right; reflexivity|].
    constructor; [right; reflexivity|]. constructor. }
  repeat (split; [assumption|]).
  exact (parse_size_whole_number _ _ _ _ _ _ A1 A2 N2 A3 D Lt U).
Defined.

(** ** The ranges of the fields of a record *)

Lemma number_of_bound w :
  (number_of w < 10 ^ Z.of_nat (List.length w))%Z.
Proof.
  unfold number_of.
  assert (G : forall acc, (0 <= acc)%Z ->
            (fold_left (fun v c => match decimal_value c with
                                   | Some d => 10 * v + Z.of_N d
                                   | None => v
                                   end) w acc + 1
             <= (acc + 1) * 10 ^ Z.of_nat (List.length w))%Z).
  { induction w as [|c w IH]; intros acc Ha.
    - cbn [fold_left List.length Z.of_nat]. rewrite Z.pow_0_r. lia.
    - cbn [fold_left]. change (List.length (c :: w)) with (S (List.length w)).
      rewrite Nat2Z.inj_succ, Z.pow_succ_r by lia.
      assert (P : (0 < 10 ^ Z.of_nat (List.length w))%Z)
        by (apply Z.pow_pos_nonneg; lia).
      destruct (decimal_value c) as [d|] eqn:Dv.
      + apply decimal_value_spec in Dv. destruct Dv as [D9 _].
        eapply Z.le_trans; [apply IH; lia|]. nia.
      + eapply Z.le_trans; [apply IH; lia|]. nia. }
  specialize (G 0%Z). rewrite Z.mul_1_l in G. lia.
Qed.

Lemma rep_digits_length ci g lo hi prev w t c c' :
  matches ci (Rep g (S lo) (Some hi) [CDigit]) prev w t c c' ->
  digits w /\ (S lo <= List.length w <= hi)%nat /\ c' = c.
Proof.
  intros M. pose proof (matches_rep_inv _ _ _ _ _ _ _ _ _ _ M) as (_ & L & W & _).
  apply rep_digits in M. destruct M as [D ->]. simpl in W. auto.
Qed.

Lemma bottle_group_length pre w post c :
  occurrence BOTTLE pre w post c ->
  exists g, c = [("pct", g)] /\ digits g /\ (List.length g <= 3)%nat.
Proof.
  unfold occurrence, BOTTLE. cbn [re ignorecase]. intros M.
  split_by matches_seq_inv M. plain_by matches_no_group M0.
  split_by matches_seq_inv M. plain_by matches_no_group M0.
  split_by matches_seq_inv M. plain_by matches_no_group M0.
  split_by matches_seq_inv M. plain_by matches_no_group M0.
  split_by matches_seq_inv M. plain_by matches_no_group M.
  apply matches_grp_inv in M0. destruct M0 as (c2 & -> & M0).
  apply rep_digits_length in M0. destruct M0 as (D & L & ->).
  eexists. split; [reflexivity|]. split; [exact D | lia].
Qed.

Lemma wan_group_length pre w post c :
  occurrence WAN pre w post c ->
  exists g, c = [("hit", g)] /\ digits g /\ (List.length g <= 3)%nat.
Proof.
  unfold occurrence, WAN. cbn [re ignorecase]. intros M.
  split_by matches_seq_inv M. plain_by matches_no_group M0.
  split_by matches_seq_inv M. plain_by matches_no_group M0.
  split_by matches_seq_inv M. plain_by matches_no_group M0.
  split_by matches_seq_inv M. plain_by matches_no_group M0.
  split_by matches_seq_inv M. plain_by matches_no_group M0.
  split_by matches_seq_inv M. plain_by matches_no_group M.
  apply matches_grp_inv in M0. destruct M0 as (c2 & -> & M0).
  apply rep_digits_length in M0. destruct M0 as (D & L & ->).
  eexists. split; [reflexivity|]. split; [exact D | lia].
Qed.

Lemma xfer_dur_lengths prev w t c c' :
  matches true xfer_dur prev w t c c' ->
  exists h m s,
    c' = ("dur", h ++ chr ":" :: m ++ chr ":" :: s) :: c
    /\ digits h /\ digits m /\ digits s
    /\ List.length h = 2%nat /\ List.length m = 2%nat /\ List.length s = 2%nat.
Proof.
  unfold xfer_dur, two_digits. intros M.
  split_by matches_seq_inv M. plain_by matches_no_group M0.
  split_by matches_seq_inv M. plain_by matches_no_group M0.
  apply matches_grp_inv in M. destruct M as (c2 & -> & M).
  split_by matches_seq_inv M. apply rep_digits_length in M0.
  destruct M0 as (Dh & Lh & ->).
  split_by matches_seq_inv M. apply lit_colon in M0. destruct M0 as [-> ->].
  split_by matches_seq_inv M. apply rep_digits_length in M0.
  destruct M0 as (Dm & Lm & ->).
  split_by matches_seq_inv M. apply lit_colon in M0. destruct M0 as [-> ->].
  apply rep_digits_length in M. destruct M as (Ds & Ls & ->).
  do 3 eexists. split; [simpl; reflexivity|].
  repeat (split; [assumption|]). repeat split; lia.
Qed.

Lemma matches_avoids ci r prev w t c c' x :
  matches ci r prev w t c c' -> avoids ci r x = true -> ~ In x w.
Proof.
  induction 1; cbn [avoids]; intros A I.
  - revert A. induction H as [|a b l w AB F IH]; [destruct I|].
    cbn [forallb]. rewrite andb_true_iff. intros [Na Al].
    destruct I as [->|I]; [rewrite AB in Na; cbn [negb] in Na; discriminate | auto].
  - destruct I as [->|[]]. rewrite H in A. cbn [negb] in A. discriminate.
  - rewrite Forall_forall in H. rewrite (H _ I) in A. cbn [negb] in A. discriminate.
  - exact (IHmatches A I).
  - destruct I.
  - apply andb_true_iff in A. destruct A as [A1 A2].
    apply in_app_or in I. destruct I as [I|I].
    + exact (IHmatches1 A1 I).
    + exact (IHmatches2 A2 I).
  - apply andb_true_iff in A. destruct A as [A1 A2]. exact (IHmatches A1 I).
  - apply andb_true_iff in A. destruct A as [A1 A2]. exact (IHmatches A2 I).
  - exact (IHmatches A I).
  - destruct I.
  - destruct I.
Qed.

Lemma xfer_size_text prev w t c c' :
  matches true xfer_size prev w t c c' ->
  exists b p u, c' = ("bytes", b) :: c /\ matches true size_text p b u c c.
Proof.
  unfold xfer_size. intros M.
  split_by matches_seq_inv M. plain_by matches_no_group M0.
  split_by matches_seq_inv M. plain_by matches_no_group M0.
  split_by matches_seq_inv M. plain_by matches_no_group M0.
  split_by matches_seq_inv M. plain_by matches_no_group M0.
  apply matches_grp_inv in M.
  destruct M as (c2 & -> & M).
  pose proof (matches_no_group _ _ _ _ _ _ _ M eq_refl). subst c2.
  do 3 eexists. split; [reflexivity|]. exact M.
Qed.

Lemma drop_underscores_in s : forall prev t c,
  drop_underscores prev s = Some t -> In c t -> In c s.
Proof.
  induction s as [|a s IH]; intros prev t c; cbn [drop_underscores].
  - destruct (prev =? 0x5F); intros E; inversion E; auto.
  - destruct (a =? 0x5F).
    + destruct (is_ascii_digit prev); [|discriminate].
      intros E I. right. eapply IH; eassumption.
    + destruct ((prev =? 0x5F) && negb (is_ascii_digit a)); [discriminate|].
      destruct (drop_underscores a s) as [t'|] eqn:D; [|discriminate].
      cbn [option_map]. intros E I. inversion E; subst t.
      destruct I as [->|I]; [left; reflexivity|].
      right. eapply IH; eassumption.
Qed.

Lemma lstrip_c_in s c : In c (lstrip_c s) -> In c s.
Proof.
  induction s as [|a s IH]; cbn [lstrip_c]; auto.
  destruct (is_c_space a); auto. intros I. right. auto.
Qed.

Lemma strip_c_in s c : In c (strip_c s) -> In c s.
Proof.
  unfold strip_c. intros I. apply in_rev in I. apply lstrip_c_in in I.
  apply in_rev in I. apply lstrip_c_in in I. exact I.
Qed.

Lemma to_ascii_number_minus c : to_ascii_number c = 0x2D -> c = 0x2D.
Proof.
  unfold to_ascii_number. destruct (N.ltb_spec c 127); [auto|].
  destruct (is_space c); [discriminate|].
  destruct (decimal_value c) as [d|]; [|discriminate]. lia.
Qed.

Lemma take_sign_minus s t : take_sign s = (true, t) -> In 0x2D s.
Proof.
  destruct s as [|c r]; cbn [take_sign]; [discriminate|].
  destruct (N.eqb_spec c 0x2D) as [->|_]; [intros _; left; reflexivity|].
  destruct (c =? 0x2B); discriminate.
Qed.

Lemma digits_value_nonneg s : forall acc, (0 <= acc -> 0 <= digits_value acc s)%Z.
Proof.
  unfold digits_value. induction s as [|c s IH]; cbn [fold_left]; intros acc A; auto.
  apply IH. unfold digit_val. lia.
Qed.

Lemma parse_decimal_nonneg s D x : parse_decimal s = Some (D, x) -> (0 <= D)%Z.
Proof.
  unfold parse_decimal. destruct (span_digits s) as [ip r1].
  destruct (match r1 with
            | c :: r => if c =? 0x2E then span_digits r else ([], r1)
            | [] => ([], r1)
            end) as [fp r2].
  destruct (ip ++ fp) as [|d ds] eqn:E; [discriminate|].
  pose proof (digits_value_nonneg (d :: ds) 0%Z (Z.le_refl 0)) as P.
  destruct r2 as [|c r3]; [intros H; inversion H; subst; exact P|].
  destruct ((c =? 0x65) || (c =? 0x45)); [|discriminate].
  destruct (take_sign r3) as [eneg r4].
  destruct (span_digits r4) as [[|e0 ed] [|y ys]]; try discriminate.
  intros H. inversion H; subst. exact P.
Qed.

Lemma float_of_ratio_nonneg n d :
  (0 <= n)%Z -> (0 < d)%Z -> float_nonneg (float_of_ratio false n d).
Proof.
  intros Hn Hd. unfold float_of_ratio.
  destruct (b64_round n d) as [m e] eqn:B.
  destruct (b64_round_range n d m e Hn Hd B) as [[M0 _] _].
  destruct (b64_finite m e); simpl; auto.
Qed.

Lemma py_float_nonneg s x :
  py_float s = Ok x -> ~ In 0x2D s -> float_nonneg x.
Proof.
  unfold py_float. intros E Nm.
  destruct (drop_underscores 0 (map to_ascii_number s)) as [t|] eqn:Du;
    [|discriminate].
  destruct (take_sign (strip_c t)) as [neg u] eqn:Ts.
  assert (neg = false).
  { destruct neg; [|reflexivity]. exfalso. apply Nm.
    apply take_sign_minus in Ts. apply strip_c_in in Ts.
    apply (drop_underscores_in _ _ _ _ Du) in Ts.
    apply in_map_iff in Ts. destruct Ts as (c & Ec & Ic).
    apply to_ascii_number_minus in Ec. subst c. exact Ic. }
  subst neg.
  destruct (list_eq_dec N.eq_dec (map fold_case u) (lit "inf"));
    [inversion E; reflexivity|].
  destruct (list_eq_dec N.eq_dec (map fold_case u) (lit "infinity"));
    [inversion E; reflexivity|].
  destruct (list_eq_dec N.eq_dec (map fold_case u) (lit "nan"));
    [inversion E; exact I|].
  destruct (parse_decimal u) as [[D y]|] eqn:Pd; [|discriminate].
  inversion E; subst x. apply parse_decimal_nonneg in Pd.
  unfold float_of_decimal. destruct (0 <=? y)%Z eqn:Y.
  - apply float_of_ratio_nonneg; [|lia].
    apply Z.mul_nonneg_nonneg; [exact Pd|]. apply Z.pow_nonneg. lia.
  - apply float_of_ratio_nonneg; [exact Pd|]. apply Z.pow_pos_nonneg; lia.
Qed.

Lemma int_of_fmul_nonneg x k v :
  float_nonneg x ->
  int_of_float (fmul x (FFin false (2 ^ 52) (k - 52))) = Ok v -> (0 <= v)%Z.
Proof.
  destruct x as [|neg|neg m e]; cbn [float_nonneg fmul].
  - discriminate.
  - intros ->. change (2 ^ 52 =? 0)%Z with false. cbn iota. discriminate.
  - intros [-> M]. cbn [xorb].
    destruct (scale2 (m * 2 ^ 52) 1 (- (e + (k - 52)))) as [n d] eqn:S.
    assert (P : (0 <= m * 2 ^ 52)%Z) by lia.
    pose proof (scale2_pos _ 1 (- (e + (k - 52)))%Z P Z.lt_0_1) as [P1 P2].
    rewrite S in P1, P2. cbn [fst snd] in P1, P2.
    pose proof (float_of_ratio_nonneg n d P1 P2) as F.
    destruct (float_of_ratio false n d) as [|neg'|neg' m' e']; cbn [int_of_float];
      try discriminate.
    destruct F as [-> M']. intros H. inversion H.
    apply Z.shiftl_nonneg. exact M'.
Qed.

Lemma lstrip_in s c : In c (lstrip s) -> In c s.
Proof.
  induction s as [|a s IH]; cbn [lstrip]; auto.
  destruct (is_space a); auto. intros I. right. auto.
Qed.

Lemma strip_in s c : In c (strip s) -> In c s.
Proof.
  unfold strip, rstrip. intros I. apply in_rev in I. apply lstrip_in in I.
  apply in_rev in I. apply lstrip_in in I. exact I.
Qed.

Lemma split_from_in s : forall tok w c,
  In w (split_from tok s) -> In c w -> In c tok \/ In c s.
Proof.
  induction s as [|a s IH]; intros tok w c; cbn [split_from].
  - destruct tok as [|b tok]; [intros []|].
    intros [<-|[]] I. left. apply in_rev. exact I.
  - destruct (is_space a).
    + destruct tok as [|b tok].
      * intros Iw Ic. destruct (IH _ _ _ Iw Ic) as [[]|]. right. right. assumption.
      * intros [<-|Iw] Ic.
        -- left. apply in_rev. exact Ic.
        -- destruct (IH _ _ _ Iw Ic) as [[]|]. right. right. assumption.
    + intros Iw Ic. destruct (IH _ _ _ Iw Ic) as [[->|I]|I]; auto.
      * right. left. reflexivity.
      * right. right. assumption.
Qed.

Lemma parse_size_nonneg text v :
  parse_size text = Some v -> ~ In 0x2D text -> (0 <= v)%Z.
Proof.
  intros P Nm. apply parse_size_some in P.
  destruct P as (num & unit & x & k & Sp & Fl & _ & I).
  apply (int_of_fmul_nonneg x k); [|exact I].
  apply (py_float_nonneg num); [exact Fl|].
  intros In1. apply Nm. apply strip_in.
  assert (Iw : In num (split_from [] (strip text))).
  { fold (split (strip text)). rewrite Sp. left. reflexivity. }
  destruct (split_from_in _ _ _ _ Iw In1) as [[]|]. assumption.
Qed.

Lemma xfer_groups_fine msg m :
  re_search XFER msg = Some m ->
  exists bytes h mi s,
    group m "bytes" = Some bytes
    /\ group m "dur" = Some (h ++ chr ":" :: mi ++ chr ":" :: s)
    /\ digits h /\ digits mi /\ digits s
    /\ List.length h = 2%nat /\ List.length mi = 2%nat /\ List.length s = 2%nat
    /\ ~ In 0x2D bytes.
Proof.
  intros H. destruct (search_occurrence _ _ _ H) as (pre & w & post & _ & O).
  apply xfer_parts in O.
  destruct O as (a & g1 & b & g2 & d & bytes & h & mi & s & spd & _ & Ms & Md & _
                 & E & _).
  apply xfer_dur_lengths in Md.
  destruct Md as (h' & m' & s' & Ec & Dh & Dm & Ds & Lh & Lm & Ls).
  apply xfer_size_text in Ms. destruct Ms as (b' & p & u & Eb & Mb).
  inversion Eb; subst b'. inversion Ec as [Ed].
  assert (Gb : group m "bytes" = Some bytes) by (unfold group; rewrite E; reflexivity).
  assert (Gd : group m "dur" = Some (h' ++ chr ":" :: m' ++ chr ":" :: s')).
  { unfold group. rewrite E. simpl. f_equal. exact Ed. }
  exists bytes, h', m', s'.
  repeat (split; [assumption|]).
  apply (matches_avoids _ _ _ _ _ _ _ 0x2D Mb). vm_compute. reflexivity.
Qed.

Lemma digits_two w : digits w -> List.length w = 2%nat -> (0 <= number_of w <= 99)%Z.
Proof.
  intros _ L. pose proof (number_of_bound w) as B. rewrite L in B.
  pose proof (number_of_nonneg w). change (10 ^ Z.of_nat 2)%Z with 100%Z in B. lia.
Qed.

Lemma digits_three w :
  digits w -> (List.length w <= 3)%nat -> (0 <= number_of w <= 999)%Z.
Proof.
  intros _ L. pose proof (number_of_bound w) as B.
  pose proof (number_of_nonneg w).
  assert (10 ^ Z.of_nat (List.length w) <= 10 ^ 3)%Z
    by (apply Z.pow_le_mono_r; lia).
  change (10 ^ 3)%Z with 1000%Z in *. lia.
Qed.

Lemma row_of_ranges line :
  (forall v, network_bottleneck_pct (row_of line) = Some v -> 0 <= v <= 999)%Z
  /\ (forall v, wan_cache_hit_pct (row_of line) = Some v -> 0 <= v <= 999)%Z
  /\ (forall v, retries (row_of line) = Some v -> 0 <= v)%Z
  /\ (forall v, duration_s (row_of line) = Some v -> 0 <= v <= 362439)%Z
  /\ (forall v, bytes_sent (row_of line) = Some v -> 0 <= v)%Z
  /\ (bytes_sent (row_of line) <> None -> duration_s (row_of line) <> None)
  /\ (forall ts, event_time (row_of line) = Some ts ->
                 (19 <= List.length ts <= 26)%nat).
Proof.
  unfold row_of. cbn [network_bottleneck_pct wan_cache_hit_pct retries duration_s
                        bytes_sent event_time].
  set (msg := snd (parse_ts_prefix line)).
  split; [|split; [|split; [|split; [|split; [|split]]]]].
  - unfold extracted. intros v.
    destruct (re_search BOTTLE msg) as [m|] eqn:S; [|discriminate].
    destruct (search_occurrence _ _ _ S) as (pre & w & post & _ & O).
    apply bottle_group_length in O. destruct O as (g & E & D & L).
    unfold int_group, group. rewrite E. cbn [lookup String.eqb Ascii.eqb Bool.eqb].
    rewrite (py_int_digits g D). intros H. inversion H.
    apply digits_three; assumption.
  - unfold extracted. intros v.
    destruct (re_search WAN msg) as [m|] eqn:S; [|discriminate].
    destruct (search_occurrence _ _ _ S) as (pre & w & post & _ & O).
    apply wan_group_length in O. destruct O as (g & E & D & L).
    unfold int_group, group. rewrite E. cbn [lookup String.eqb Ascii.eqb Bool.eqb].
    rewrite (py_int_digits g D). intros H. inversion H.
    apply digits_three; assumption.
  - unfold extracted. intros v.
    destruct (re_search RETRY msg) as [m|] eqn:S; [|discriminate].
    destruct (int_group_retry _ _ S) as (g & _ & _ & ->).
    intros H. inversion H. apply number_of_nonneg.
  - unfold extracted_duration. intros v.
    destruct (re_search XFER msg) as [m|] eqn:S; [|discriminate].
    destruct (xfer_groups_fine _ _ S)
      as (bytes & h & mi & s & _ & -> & Dh & Dm & Ds & Lh & Lm & Ls & _).
    rewrite (parse_dur_digits h mi s Dh Dm Ds). intros H. inversion H.
    pose proof (digits_two h Dh Lh). pose proof (digits_two mi Dm Lm).
    pose proof (digits_two s Ds Ls). lia.
  - unfold extracted_size. intros v.
    destruct (re_search XFER msg) as [m|] eqn:S; [|discriminate].
    destruct (xfer_groups_fine _ _ S)
      as (bytes & h & mi & s & -> & _ & _ & _ & _ & _ & _ & _ & Nm).
    intros P. apply (parse_size_nonneg bytes); assumption.
  - unfold extracted_size, extracted_duration.
    destruct (re_search XFER msg) as [m|] eqn:S; [|congruence].
    destruct (xfer_groups_fine _ _ S)
      as (bytes & h & mi & s & _ & -> & Dh & Dm & Ds & _).
    rewrite (parse_dur_digits h mi s Dh Dm Ds). discriminate.
  - intros ts E.
    destruct (parse_ts_prefix_cases line) as [(n & R & _ & P) | [_ P]];
      rewrite P in E; cbn [fst] in E; [|discriminate].
    inversion E. destruct R as (B & Len & _). rewrite Len. exact B.
Qed.

(** X4.  The fields of every record of [parse_events] are within fixed
    ranges: the two percentages between 0 and 999 (a value above 100 is not
    refused), [duration_s] between 0 and 99 * 3600 + 99 * 60 + 99, [retries]
    and [bytes_sent] not negative, and a timestamp of 19 to 26 characters.
    [bytes_sent] is set only together with [duration_s]. *)
Theorem record_field_ranges lines rows r :
  parse_events lines = Ok rows -> In r rows ->
  (forall v, network_bottleneck_pct r = Some v -> 0 <= v <= 999)%Z
  /\ (forall v, wan_cache_hit_pct r = Some v -> 0 <= v <= 999)%Z
  /\ (forall v, retries r = Some v -> 0 <= v)%Z
  /\ (forall v, duration_s r = Some v -> 0 <= v <= 362439)%Z
  /\ (forall v, bytes_sent r = Some v -> 0 <= v)%Z
  /\ (bytes_sent r <> None -> duration_s r <> None)
  /\ (forall ts, event_time r = Some ts -> (19 <= List.length ts <= 26)%nat).
Proof.
  rewrite parse_events_spec. intros E I. inversion E; subst rows.
  apply in_map_iff in I. destruct I as (line & <- & _).
  apply row_of_ranges.
Qed.

Lemma record_field_ranges_example :
  parse_events [line_no_timestamp; line_two_transfers]
  = Ok [row_of line_two_transfers]
  /\ In (row_of line_two_transfers) [row_of line_two_transfers]
  /\ bytes_sent (row_of line_two_transfers) = Some 1024%Z
  /\ (forall v, network_bottleneck_pct (row_of line_two_transfers) = Some v ->
                0 <= v <= 999)%Z
  /\ (forall v, wan_cache_hit_pct (row_of line_two_transfers) = Some v ->
                0 <= v <= 999)%Z
  /\ (forall v, retries (row_of line_two_transfers) = Some v -> 0 <= v)%Z
  /\ (forall v, duration_s (row_of line_two_transfers) = Some v ->
                0 <= v <= 362439)%Z
  /\ (forall v, bytes_sent (row_of line_two_transfers) = Some v -> 0 <= v)%Z
  /\ (bytes_sent (row_of line_two_transfers) <> None ->
      duration_s (row_of line_two_transfers) <> None)
  /\ (forall ts, event_time (row_of line_two_transfers) = Some ts ->
                 (19 <= List.length ts <= 26)%nat).
Proof.
  split; [vm_compute; reflexivity|]. split; [left; reflexivity|].
  split; [vm_compute; reflexivity|].
  apply (record_field_ranges [line_no_timestamp; line_two_transfers]
           [row_of line_two_transfers] (row_of line_two_transfers)).
  - vm_compute. reflexivity.
  - left. reflexivity.
Defined.

(** ** Lines one after the other *)



(** ** Validate mode with any limit *)

Lemma validate_printed limit lines :
  (1 <= limit)%Z ->
  fst (validate limit lines)
  = match filter recognised lines with
    | [] => [no_match_notice]
    | _ => firstn (Z.to_nat limit) (filter recognised lines)
    end.
Proof.
  intros L. unfold validate.
  destruct (validate_loop_spec limit lines 0%Z []) as (consumed & unread & E & _);
    [lia|].
  rewrite E. rewrite Z.sub_0_r. cbn [app].
  destruct (filter recognised lines) as [|x hits] eqn:F.
  - rewrite firstn_nil. reflexivity.
  - destruct (Z.to_nat limit) as [|n] eqn:N; [lia|].
    cbn [firstn List.length]. rewrite Nat2Z.inj_succ.
    destruct (Z.eqb_spec (0 + Z.succ (Z.of_nat (List.length (firstn n hits)))) 0);
      [lia | reflexivity].
Qed.

Lemma validate_loop_first limit lines : forall printed,
  (limit <= 1)%Z ->
  validate_loop limit 0 printed lines = validate_loop 1 0 printed lines.
Proof.
  induction lines as [|line rest IH]; intros printed L; [reflexivity|].
  rewrite !validate_loop_recognised. destruct (recognised line); [|auto].
  destruct (Z.leb_spec limit (0 + 1)); [|lia]. reflexivity.
Qed.

Lemma validate_first limit lines :
  (limit <= 1)%Z -> validate limit lines = validate 1 lines.
Proof.
  intros L. unfold validate. rewrite validate_loop_first by exact L. reflexivity.
Qed.

(** X6.  A limit of one or less, zero and the negative ones included, gives
    what the limit one gives: the first recognised line and nothing else, or
    the notice when no line is recognised. *)
Theorem validate_limit_at_most_one limit lines :
  (limit <= 1)%Z ->
  validate limit lines = validate 1 lines
  /\ fst (validate limit lines)
     = match filter recognised lines with
       | [] => [no_match_notice]
       | first :: _ => [first]
       end.
Proof.
  intros L. pose proof (validate_first limit lines L) as E.
  split; [exact E|]. rewrite E, validate_printed by lia.
  destruct (filter recognised lines); reflexivity.
Qed.

Lemma validate_limit_at_most_one_example :
  (-5 <= 1)%Z
  /\ validate (-5) [line_no_timestamp; line_bottleneck; line_retry_bottleneck]
     = ([line_bottleneck], [line_retry_bottleneck])
  /\ validate (-5) [line_no_timestamp; line_bottleneck; line_retry_bottleneck]
     = validate 1 [line_no_timestamp; line_bottleneck; line_retry_bottleneck]
  /\ fst (validate (-5) [line_no_timestamp; line_bottleneck; line_retry_bottleneck])
     = match filter recognised
               [line_no_timestamp; line_bottleneck; line_retry_bottleneck] with
       | [] => [no_match_notice]
       | first :: _ => [first]
       end.
Proof.
  split; [lia|]. split; [vm_compute; reflexivity|].
  apply (validate_limit_at_most_one (-5)
           [line_no_timestamp; line_bottleneck; line_retry_bottleneck]).
  lia.
Defined.



(** ** The lines of the CSV *)

Lemma double_quotes_in s c : In c (double_quotes s) -> In c s \/ c = dquote.
Proof.
  unfold double_quotes. intros I. apply in_flat_map in I.
  destruct I as (x & Ix & I). destruct (N.eqb_spec x dquote) as [->|_].
  - right. destruct I as [<-|[<-|[]]]; reflexivity.
  - left. destruct I as [<-|[]]. exact Ix.
Qed.

Lemma csv_field_in s c : In c (csv_field s) -> In c s \/ c = dquote.
Proof.
  unfold csv_field. destruct (existsb needs_quotes s); [|auto].
  intros [<-|I]; [right; reflexivity|].
  apply in_app_or in I. destruct I as [I|[<-|[]]]; [|right; reflexivity].
  apply double_quotes_in. exact I.
Qed.

Lemma join_in sep fields c :
  In c (join sep fields) -> c = sep \/ exists f, In f fields /\ In c f.
Proof.
  induction fields as [|f [|g fs] IH]; [intros [] | |].
  - cbn [join]. intros I. right. exists f. split; [left; reflexivity | exact I].
  - change (join sep (f :: g :: fs)) with (f ++ sep :: join sep (g :: fs)).
    intros I. apply in_app_or in I. destruct I as [I|[<-|I]].
    + right. exists f. split; [left; reflexivity | exact I].
    + left. reflexivity.
    + destruct (IH I) as [->|(h & Ih & Ic)]; [left; reflexivity|].
      right. exists h. split; [right; exact Ih | exact Ic].
Qed.

Lemma csv_line_in fields c :
  In c (csv_line fields) ->
  c = comma \/ c = dquote \/ exists f, In f fields /\ In c f.
Proof.
  unfold csv_line. intros I. apply join_in in I.
  destruct I as [->|(g & Ig & Ic)]; [left; reflexivity|].
  apply in_map_iff in Ig. destruct Ig as (f & <- & If).
  apply csv_field_in in Ic. destruct Ic as [Ic| ->]; [|right; left; reflexivity].
  right. right. exists f. auto.
Qed.

Lemma str_of_int_in z c : In c (str_of_int z) -> c = chr "-" \/ is_ascii_digit c = true.
Proof.
  assert (D : forall n, In c (str_of_N n) -> is_ascii_digit c = true).
  { intros n I. destruct (str_of_N_spec n) as (F & _).
    rewrite Forall_forall in F. auto. }
  unfold str_of_int. destruct (z <? 0)%Z.
  - intros [<-|I]; [left; reflexivity | right; eauto].
  - intros I. right. eauto.
Qed.

Lemma row_fields_in r f c :
  In f (row_fields r) -> In c f ->
  event_time r = Some f \/ message r = f
  \/ c = chr "-" \/ is_ascii_digit c = true.
Proof.
  unfold row_fields, headers. cbn [map row_get String.eqb Ascii.eqb Bool.eqb].
  assert (G : forall o, In c (cell_text (opt_int o)) ->
            c = chr "-" \/ is_ascii_digit c = true).
  { intros [z|]; cbn [opt_int cell_text]; [apply str_of_int_in | intros []]. }
  intros [<-|[<-|[<-|[<-|[<-|[<-|[<-|[]]]]]]]] I.
  - destruct (event_time r); cbn [opt_str cell_text] in *; [auto | destruct I].
  - right. right. apply (G _ I).
  - right. right. apply (G _ I).
  - right. right. apply (G _ I).
  - right. right. apply (G _ I).
  - right. right. apply (G _ I).
  - right. left. reflexivity.
Qed.

Lemma csv_line_row_no_lf r :
  no_break (message r) ->
  (forall ts, event_time r = Some ts -> no_break ts) ->
  Forall (fun c => c <> LF) (csv_line (row_fields r) ++ [CR]).
Proof.
  intros [_ Nm] Nt. apply Forall_forall. intros c I.
  apply in_app_or in I. destruct I as [I|[<-|[]]]; [|discriminate].
  apply csv_line_in in I.
  destruct I as [->|[->|(f & If & Ic)]]; try discriminate.
  destruct (row_fields_in _ _ _ If Ic) as [E|[E|[->|D]]].
  - intros ->. apply (Nt f E). exact Ic.
  - intros ->. apply Nm. rewrite E. exact Ic.
  - discriminate.
  - intros ->. discriminate.
Qed.

Lemma split_on_row fields rest :
  Forall (fun c => c <> LF) (csv_line fields ++ [CR]) ->
  split_on LF (csv_writerow fields ++ rest)
  = (csv_line fields ++ [CR]) :: split_on LF rest.
Proof.
  intros F. unfold csv_writerow, split_on. fold (csv_line fields).
  replace ((csv_line fields ++ [CR; LF]) ++ rest)
    with ((csv_line fields ++ [CR]) ++ LF :: rest)
    by (rewrite <- !app_assoc; reflexivity).
  rewrite split_on_from_field by exact F. reflexivity.
Qed.

Lemma split_on_rows rows :
  Forall (fun r => no_break (message r)
                   /\ forall ts, event_time r = Some ts -> no_break ts) rows ->
  split_on LF (flat_map (fun r => csv_writerow (row_fields r)) rows)
  = map (fun fields => csv_line fields ++ [CR]) (map row_fields rows) ++ [[]].
Proof.
  induction 1 as [|r rows [Nm Nt] F IH]; [reflexivity|].
  cbn [flat_map map app]. rewrite split_on_row by (apply csv_line_row_no_lf; auto).
  rewrite IH. reflexivity.
Qed.

Lemma header_line_no_lf :
  Forall (fun c => c <> LF) (csv_line (map lit headers) ++ [CR]).
Proof.
  apply Forall_forall. intros c I E. subst c.
  assert (H : existsb (N.eqb LF) (csv_line (map lit headers) ++ [CR]) = false)
    by (vm_compute; reflexivity).
  assert (T : existsb (N.eqb LF) (csv_line (map lit headers) ++ [CR]) = true).
  { apply existsb_exists. exists LF. split; [exact I | apply N.eqb_refl]. }
  congruence.
Qed.

Lemma write_csv_lines rows :
  Forall (fun r => no_break (message r)
                   /\ forall ts, event_time r = Some ts -> no_break ts) rows ->
  split_on LF (write_csv rows)
  = map (fun fields => csv_line fields ++ [CR])
      (map lit headers :: map row_fields rows) ++ [[]]
  /\ count_occ N.eq_dec (write_csv rows) LF = S (List.length rows).
Proof.
  intros F.
  assert (E : split_on LF (write_csv rows)
              = map (fun fields => csv_line fields ++ [CR])
                  (map lit headers :: map row_fields rows) ++ [[]]).
  { unfold write_csv. rewrite split_on_row by apply header_line_no_lf.
    rewrite split_on_rows by exact F. reflexivity. }
  split; [exact E|].
  pose proof (split_on_from_length LF (write_csv rows) []) as L.
  fold (split_on LF (write_csv rows)) in L. rewrite E in L.
  rewrite length_app, length_map in L. cbn [List.length] in L.
  rewrite length_map in L. lia.
Qed.


(** X8.  When no message and no timestamp holds a carriage return or a line
    feed, the text [write_csv] leaves has one line per record after the line
    of the header: cut at its line feeds, it is the header, then the fields
    of each record in their order, each line with its carriage return, and
    nothing after the last line feed; it holds one line feed more than there
    are records. *)
Theorem csv_line_per_record rows :
  Forall (fun r => no_break (message r)
                   /\ forall ts, event_time r = Some ts -> no_break ts) rows ->
  split_on LF (write_csv rows)
  = map (fun fields => csv_line fields ++ [CR])
      (map lit headers :: map row_fields rows) ++ [[]]
  /\ count_occ N.eq_dec (write_csv rows) LF = S (List.length rows).
Proof. apply write_csv_lines. Qed.

Lemma csv_line_per_record_example :
  Forall (fun r => no_break (message r)
                   /\ forall ts, event_time r = Some ts -> no_break ts)
    [row_of line_retry_bottleneck]
  /\ split_on LF (write_csv [row_of line_retry_bottleneck])
     = map (fun fields => csv_line fields ++ [CR])
         (map lit headers :: map row_fields [row_of line_retry_bottleneck])
       ++ [[]]
  /\ count_occ N.eq_dec (write_csv [row_of line_retry_bottleneck]) LF = 2%nat.
Proof.
  assert (B : forall s, existsb (fun c => (c =? CR) || (c =? LF)) s = false ->
              no_break s).
  { intros s H. split; intros I;
      (assert (T : existsb (fun c => (c =? CR) || (c =? LF)) s = true);
       [apply existsb_exists; eexists; split; [exact I | reflexivity]
       | congruence]). }
  assert (F : Forall (fun r => no_break (message r)
                               /\ forall ts, event_time r = Some ts -> no_break ts)
                [row_of line_retry_bottleneck]).
  { constructor; [|constructor]. split.
    - apply B. vm_compute. reflexivity.
    - intros ts E. apply B. vm_compute in E. inversion E. vm_compute. reflexivity. }
  split; [exact F|]. exact (csv_line_per_record _ F).
Defined.

(** ** The lines of a file *)

Lemma utf8_decode_cons b0 r :
  utf8_decode (b0 :: r)
  = if b0 <? 0x80 then b0 :: utf8_decode r
    else if b0 <? 0xC2 then utf8_decode r
    else if b0 <? 0xE0 then
      match r with
      | [] => []
      | b1 :: r1 =>
          if is_cont b1
          then (b0 * 64 + b1 - (0xC0 * 64 + 0x80)) :: utf8_decode r1
          else utf8_decode r
      end
    else if b0 <? 0xF0 then
      match r with
      | [] => []
      | b1 :: r1 =>
          if in_range (second_lo b0) (second_hi b0) b1
          then match r1 with
               | [] => []
               | b2 :: r2 =>
                   if is_cont b2
                   then (b0 * 4096 + b1 * 64 + b2
                         - (0xE0 * 4096 + 0x80 * 64 + 0x80)) :: utf8_decode r2
                   else utf8_decode r1
               end
          else utf8_decode r
      end
    else if b0 <? 0xF5 then
      match r with
      | [] => []
      | b1 :: r1 =>
          if in_range (second_lo b0) (second_hi b0) b1
          then match r1 with
               | [] => []
               | b2 :: r2 =>
                   if is_cont b2
                   then match r2 with
                        | [] => []
                        | b3 :: r3 =>
                            if is_cont b3
                            then (b0 * 262144 + b1 * 4096 + b2 * 64 + b3
                                  - (0xF0 * 262144 + 0x80 * 4096 + 0x80 * 64 + 0x80))
                                 :: utf8_decode r3
                            else utf8_decode r2
                        end
                   else utf8_decode r1
               end
          else utf8_decode r
      end
    else utf8_decode r.
Proof. destruct r as [|b1 [|b2 [|b3 r3]]]; reflexivity. Qed.

Lemma ascii_not_cont a : a < 0x80 -> is_cont a = false.
Proof.
  intros L. unfold is_cont, in_range.
  destruct (N.leb_spec 0x80 a); [lia | reflexivity].
Qed.

Lemma ascii_not_second b0 a :
  a < 0x80 -> in_range (second_lo b0) (second_hi b0) a = false.
Proof.
  intros L. unfold in_range, second_lo.
  destruct (b0 =? 0xE0); [|destruct (b0 =? 0xF0)];
    match goal with |- (?x <=? a) && _ = false =>
      destruct (N.leb_spec x a); [lia | reflexivity] end.
Qed.

Lemma utf8_decode_ascii a y : a < 0x80 -> utf8_decode (a :: y) = a :: utf8_decode y.
Proof.
  intros L. rewrite utf8_decode_cons.
  destruct (N.ltb_spec a 0x80); [reflexivity | lia].
Qed.

(** A byte below 128 ends whatever comes before it: the bytes on its two
    sides are decoded apart. *)
Lemma utf8_decode_split a y : a < 0x80 -> forall n x,
  (List.length x <= n)%nat ->
  utf8_decode (x ++ a :: y) = utf8_decode x ++ a :: utf8_decode y.
Proof.
  intros La. pose proof (ascii_not_cont a La) as Nc.
  induction n as [|n IH]; intros x Len.
  { destruct x; [|simpl in Len; lia]. apply utf8_decode_ascii. exact La. }
  destruct x as [|b0 r]; [apply utf8_decode_ascii; exact La|].
  simpl in Len. cbn [app]. rewrite !utf8_decode_cons.
  pose proof (ascii_not_second b0 a La) as Ns.
  assert (IHr : utf8_decode (r ++ a :: y) = utf8_decode r ++ a :: utf8_decode y)
    by (apply IH; lia).
  destruct (b0 <? 0x80); [rewrite IHr; reflexivity|].
  destruct (b0 <? 0xC2); [exact IHr|].
  destruct r as [|b1 r1].
  { cbn [app]. rewrite Nc, Ns. rewrite utf8_decode_ascii by exact La.
    destruct (b0 <? 0xE0); [reflexivity|].
    destruct (b0 <? 0xF0); [reflexivity|].
    destruct (b0 <? 0xF5); reflexivity. }
  simpl in Len.
  assert (IH1 : utf8_decode (r1 ++ a :: y) = utf8_decode r1 ++ a :: utf8_decode y)
    by (apply IH; lia).
  cbn [app] in *.
  destruct (b0 <? 0xE0).
  { destruct (is_cont b1); [rewrite IH1; reflexivity | exact IHr]. }
  destruct r1 as [|b2 r2].
  { cbn [app]. rewrite Nc. rewrite utf8_decode_ascii by exact La.
    destruct (b0 <? 0xF0).
    - destruct (in_range (second_lo b0) (second_hi b0) b1); [reflexivity | exact IHr].
    - destruct (b0 <? 0xF5); [|exact IHr].
      destruct (in_range (second_lo b0) (second_hi b0) b1); [reflexivity | exact IHr]. }
  simpl in Len.
  assert (IH2 : utf8_decode (r2 ++ a :: y) = utf8_decode r2 ++ a :: utf8_decode y)
    by (apply IH; lia).
  cbn [app] in *.
  destruct (b0 <? 0xF0).
  { destruct (in_range (second_lo b0) (second_hi b0) b1); [|exact IHr].
    destruct (is_cont b2); [rewrite IH2; reflexivity | exact IH1]. }
  destruct (b0 <? 0xF5); [|exact IHr].
  destruct (in_range (second_lo b0) (second_hi b0) b1); [|exact IHr].
  destruct (is_cont b2); [|exact IH1].
  destruct r2 as [|b3 r3].
  { cbn [app]. rewrite Nc. rewrite utf8_decode_ascii by exact La. reflexivity. }
  simpl in Len.
  assert (IH3 : utf8_decode (r3 ++ a :: y) = utf8_decode r3 ++ a :: utf8_decode y)
    by (apply IH; lia).
  cbn [app] in *.
  destruct (is_cont b3); [rewrite IH3; reflexivity | exact IH2].
Qed.

Lemma translate_newlines_no_cr : forall n s,
  (List.length s <= n)%nat -> ~ In CR (translate_newlines s).
Proof.
  induction n as [|n IH]; intros s Len.
  { destruct s; [intros [] | simpl in Len; lia]. }
  destruct s as [|c r]; [intros []|]. simpl in Len. cbn [translate_newlines].
  destruct (N.eqb_spec c CR) as [->|Ne].
  - intros [E|I]; [discriminate|]. destruct r as [|d r']; [destruct I|].
    simpl in Len. destruct (d =? LF); revert I; apply IH; simpl; lia.
  - intros [E|I]; [congruence|]. revert I. apply IH. lia.
Qed.

Lemma translate_newlines_plain s : ~ In CR s -> translate_newlines s = s.
Proof.
  induction s as [|c r IH]; [reflexivity|]. intros Nl. cbn [translate_newlines].
  destruct (N.eqb_spec c CR) as [->|Ne]; [exfalso; apply Nl; left; reflexivity|].
  rewrite IH; [reflexivity|]. intros I. apply Nl. right. exact I.
Qed.

Lemma lstrip_chars_head chars c s :
  existsb (N.eqb c) chars = false -> lstrip_chars chars (c :: s) = c :: s.
Proof. intros H. cbn [lstrip_chars]. rewrite H. reflexivity. Qed.

Lemma rstrip_line cur :
  ~ In LF cur -> rstrip_chars [LF] (rev (LF :: cur)) = rev cur.
Proof.
  intros Nl. unfold rstrip_chars. rewrite rev_involutive.
  cbn [lstrip_chars existsb]. change (LF =? LF) with true. cbn [orb].
  destruct cur as [|c cur]; [reflexivity|].
  rewrite lstrip_chars_head; [reflexivity|].
  cbn [existsb]. destruct (N.eqb_spec c LF) as [->|]; [|reflexivity].
  exfalso. apply Nl. left. reflexivity.
Qed.

Lemma rstrip_last_line cur :
  ~ In LF cur -> rstrip_chars [LF] (rev cur) = rev cur.
Proof.
  intros Nl. unfold rstrip_chars. rewrite rev_involutive.
  destruct cur as [|c cur]; [reflexivity|].
  rewrite lstrip_chars_head; [reflexivity|].
  cbn [existsb]. destruct (N.eqb_spec c LF) as [->|]; [|reflexivity].
  exfalso. apply Nl. left. reflexivity.
Qed.

Lemma drop_last_empty_cons p r :
  r <> [] -> drop_last_empty (p :: r) = p :: drop_last_empty r.
Proof. destruct r; [congruence | reflexivity]. Qed.

Lemma readlines_from_split s : forall cur,
  ~ In LF cur ->
  map (rstrip_chars [LF]) (readlines_from cur s)
  = drop_last_empty (split_on_from LF cur s).
Proof.
  induction s as [|c r IH]; intros cur Nl.
  - cbn [readlines_from split_on_from]. destruct cur as [|a cur]; [reflexivity|].
    cbn [map]. rewrite rstrip_last_line by exact Nl.
    cbn [drop_last_empty]. destruct (rev (a :: cur)) eqn:E; [|reflexivity].
    apply (f_equal (@List.length N)) in E. rewrite length_rev in E. discriminate.
  - cbn [readlines_from split_on_from]. destruct (N.eqb_spec c LF) as [->|Ne].
    + cbn [map]. rewrite rstrip_line by exact Nl.
      rewrite drop_last_empty_cons by apply split_on_from_nonempty.
      rewrite IH; [reflexivity | intros []].
    + apply IH. intros [E|I]; [congruence | auto].
Qed.

Lemma split_on_from_pieces sep s : forall tok p,
  ~ In sep tok -> In p (split_on_from sep tok s) -> ~ In sep p.
Proof.
  induction s as [|c r IH]; intros tok p Nl; cbn [split_on_from].
  - intros [<-|[]] I. apply in_rev in I. auto.
  - destruct (N.eqb_spec c sep) as [->|Ne].
    + intros [<-|Ip].
      * intros I. apply in_rev in I. auto.
      * apply (IH [] p); [intros [] | exact Ip].
    + apply IH. intros [E|I]; [congruence | auto].
Qed.

Lemma drop_last_empty_in pieces p : In p (drop_last_empty pieces) -> In p pieces.
Proof.
  induction pieces as [|q [|q' r] IH].
  - intros [].
  - cbn [drop_last_empty]. destruct q; [intros [] | auto].
  - change (drop_last_empty (q :: q' :: r)) with (q :: drop_last_empty (q' :: r)).
    intros [<-|I]; [left; reflexivity | right; auto].
Qed.

Lemma file_lines_pieces data :
  file_lines data
  = drop_last_empty (split_on LF (translate_newlines (utf8_decode data))).
Proof. unfold file_lines, readlines. apply readlines_from_split. intros []. Qed.

Lemma piece_no_cr (sep : N) s : forall tok p,
  ~ In CR s -> ~ In CR tok -> In p (split_on_from sep tok s) -> ~ In CR p.
Proof.
  induction s as [|c r IH]; intros tok p Ns Nt; cbn [split_on_from].
  - intros [<-|[]] I. apply in_rev in I. auto.
  - assert (Nr : ~ In CR r) by (intros I; apply Ns; right; exact I).
    destruct (c =? sep).
    + intros [<-|Ip].
      * intros I. apply in_rev in I. auto.
      * apply (IH [] p); [exact Nr | intros [] | exact Ip].
    + apply IH; [exact Nr|]. intros [E|I]; [|auto].
      apply Ns. left. exact E.
Qed.

Lemma file_lines_no_break data l : In l (file_lines data) -> no_break l.
Proof.
  rewrite file_lines_pieces. intros I. apply drop_last_empty_in in I. split.
  - revert I. apply piece_no_cr; [|intros []].
    apply (translate_newlines_no_cr _ _ (Nat.le_refl _)).
  - revert I. apply split_on_from_pieces. intros [].
Qed.

Lemma yield_lines_folder ci items :
  yield_lines ci (Folder items)
  = Returns (flat_map (fun f => match f with
                                | File (Some data) => file_lines data
                                | _ => []
                                end)
               (rglob_log ci (Folder items))).
Proof.
  unfold yield_lines. f_equal. apply flat_map_ext. intros [[data|]|its]; reflexivity.
Qed.

Lemma yield_lines_plain ci path lines l :
  yield_lines ci path = Returns lines -> In l lines -> no_break l.
Proof.
  destruct path as [[data|]|items].
  - cbn [yield_lines open_lines]. intros E I. inversion E; subst lines.
    apply (file_lines_no_break data). exact I.
  - discriminate.
  - rewrite yield_lines_folder. intros E I. inversion E; subst lines.
    apply in_flat_map in I. destruct I as ([[data|]|its] & _ & I);
      [|destruct I | destruct I].
    apply (file_lines_no_break data). exact I.
Qed.

(** X9.  No line [yield_lines] yields, from a file or from the files of a
    folder, holds a line feed or a carriage return: the line ends of
    Windows and of the old Macintosh are read as line ends too. *)
Theorem yield_lines_no_break ci path lines l :
  yield_lines ci path = Returns lines -> In l lines -> no_break l.
Proof. apply yield_lines_plain. Qed.

Lemma not_in_test c s : existsb (N.eqb c) s = false -> ~ In c s.
Proof.
  intros H I.
  assert (T : existsb (N.eqb c) s = true).
  { apply existsb_exists. exists c. split; [exact I | apply N.eqb_refl]. }
  congruence.
Qed.

Lemma yield_lines_no_break_example :
  yield_lines false sample_folder
  = Returns [line_retry_bottleneck; line_no_timestamp; []; line_bottleneck;
             BOM :: line_two_retries]
  /\ In (BOM :: line_two_retries)
       [line_retry_bottleneck; line_no_timestamp; []; line_bottleneck;
        BOM :: line_two_retries]
  /\ no_break (BOM :: line_two_retries).
Proof.
  assert (E : yield_lines false sample_folder
              = Returns [line_retry_bottleneck; line_no_timestamp; [];
                         line_bottleneck; BOM :: line_two_retries])
    by (vm_compute; reflexivity).
  assert (I : In (BOM :: line_two_retries)
                [line_retry_bottleneck; line_no_timestamp; []; line_bottleneck;
                 BOM :: line_two_retries])
    by (do 4 right; left; reflexivity).
  split; [exact E|]. split; [exact I|].
  exact (yield_lines_no_break false sample_folder _ _ E I).
Defined.

(** What the decoder gives: a byte below 128 of the data as it is, or a
    scalar value from 128 on. *)
Lemma utf8_decode_char : forall n data,
  (List.length data <= n)%nat ->
  forall c, In c (utf8_decode data) ->
    (c < 0x80 /\ In c data) \/ (0x80 <= c /\ scalar_value c).
Proof.
  induction n as [|n IH]; intros data Len c.
  { destruct data; [intros [] | simpl in Len; lia]. }
  destruct data as [|b0 r]; [intros []|]. simpl in Len.
  assert (IHr : In c (utf8_decode r) ->
                (c < 0x80 /\ In c (b0 :: r)) \/ (0x80 <= c /\ scalar_value c)).
  { intros I. destruct (IH r ltac:(lia) c I) as [[L I']|]; [left|right]; auto.
    split; [exact L | right; exact I']. }
  rewrite utf8_decode_cons.
  destruct (N.ltb_spec b0 0x80) as [A|A].
  { intros [<-|I]; [left; split; [exact A | left; reflexivity] | auto]. }
  destruct (N.ltb_spec b0 0xC2) as [B|B]; [exact IHr|].
  destruct r as [|b1 r1].
  { destruct (b0 <? 0xE0); [intros []|]. destruct (b0 <? 0xF0); [intros []|].
    destruct (b0 <? 0xF5); intros []. }
  simpl in Len.
  assert (IH1 : In c (utf8_decode r1) ->
                (c < 0x80 /\ In c (b0 :: b1 :: r1)) \/ (0x80 <= c /\ scalar_value c)).
  { intros I. destruct (IH r1 ltac:(lia) c I) as [[L I']|]; [left|right]; auto.
    split; [exact L | right; right; exact I']. }
  destruct (N.ltb_spec b0 0xE0) as [C|C].
  { destruct (is_cont b1) eqn:C1; [|exact IHr].
    apply in_range_iff in C1.
    intros [<-|I]; [|auto]. right. unfold scalar_value. lia. }
  pose proof (in_range_iff (second_lo b0) (second_hi b0) b1) as R1.
  destruct (N.ltb_spec b0 0xF0) as [D|D].
  { destruct (in_range (second_lo b0) (second_hi b0) b1); [|exact IHr].
    destruct (proj1 R1 eq_refl) as [Lo Hi].
    destruct r1 as [|b2 r2]; [intros []|]. simpl in Len.
    destruct (is_cont b2) eqn:C2; [|exact IH1].
    apply in_range_iff in C2.
    intros [<-|I].
    - right. unfold scalar_value, second_lo, second_hi in *.
      destruct (N.eqb_spec b0 0xE0); destruct (N.eqb_spec b0 0xED);
        destruct (N.eqb_spec b0 0xF0); destruct (N.eqb_spec b0 0xF4); lia.
    - destruct (IH r2 ltac:(lia) c I) as [[L I']|]; [left|right]; auto.
      split; [exact L | right; right; right; exact I']. }
  destruct (N.ltb_spec b0 0xF5) as [E|E]; [|exact IHr].
  destruct (in_range (second_lo b0) (second_hi b0) b1); [|exact IHr].
  destruct (proj1 R1 eq_refl) as [Lo Hi].
  destruct r1 as [|b2 r2]; [intros []|]. simpl in Len.
  destruct (is_cont b2) eqn:C2; [|exact IH1].
  apply in_range_iff in C2.
  destruct r2 as [|b3 r3]; [intros []|]. simpl in Len.
  destruct (is_cont b3) eqn:C3.
  - apply in_range_iff in C3. intros [<-|I].
    + right. unfold scalar_value, second_lo, second_hi in *.
      destruct (N.eqb_spec b0 0xE0); destruct (N.eqb_spec b0 0xED);
        destruct (N.eqb_spec b0 0xF0); destruct (N.eqb_spec b0 0xF4); lia.
    + destruct (IH r3 ltac:(lia) c I) as [[L I']|]; [left|right]; auto.
      split; [exact L | right; right; right; right; exact I'].
  - intros I. destruct (IH (b3 :: r3) ltac:(simpl; lia) c I) as [[L I']|];
      [left|right]; auto.
    split; [exact L | right; right; right; exact I'].
Qed.

Lemma utf8_decode_without data c :
  c < 0x80 -> ~ In c data -> ~ In c (utf8_decode data).
Proof.
  intros L Nd I.
  destruct (utf8_decode_char _ data (Nat.le_refl _) c I) as [[_ I']|[G _]];
    [auto | lia].
Qed.

Lemma to_crlf_plain s : ~ In LF s -> to_crlf s = s.
Proof.
  induction s as [|c r IH]; [reflexivity|]. intros Nl.
  unfold to_crlf in *. cbn [flat_map].
  destruct (N.eqb_spec c LF) as [->|_]; [exfalso; apply Nl; left; reflexivity|].
  cbn [app]. rewrite IH; [reflexivity|]. intros I. apply Nl. right. exact I.
Qed.

Lemma to_cr_plain s : ~ In LF s -> to_cr s = s.
Proof.
  induction s as [|c r IH]; [reflexivity|]. intros Nl.
  unfold to_cr in *. cbn [map].
  destruct (N.eqb_spec c LF) as [->|_]; [exfalso; apply Nl; left; reflexivity|].
  rewrite IH; [reflexivity|]. intros I. apply Nl. right. exact I.
Qed.

Lemma to_crlf_app a b : to_crlf (a ++ b) = to_crlf a ++ to_crlf b.
Proof. unfold to_crlf. apply flat_map_app. Qed.

Lemma to_cr_app a b : to_cr (a ++ b) = to_cr a ++ to_cr b.
Proof. unfold to_cr. apply map_app. Qed.

Lemma utf8_decode_app a x y :
  a < 0x80 -> utf8_decode (x ++ a :: y) = utf8_decode x ++ a :: utf8_decode y.
Proof. intros L. apply (utf8_decode_split a y L (List.length x)). apply Nat.le_refl. Qed.

Lemma utf8_decode_to_crlf : forall n data,
  (List.length data <= n)%nat ->
  utf8_decode (to_crlf data) = to_crlf (utf8_decode data).
Proof.
  induction n as [|n IH]; intros data Len.
  { destruct data; [reflexivity | simpl in Len; lia]. }
  destruct (in_dec N.eq_dec LF data) as [I|Nl].
  - apply in_split in I. destruct I as (x & y & ->).
    rewrite length_app in Len. simpl in Len.
    rewrite to_crlf_app. change (to_crlf (LF :: y)) with (CR :: LF :: to_crlf y).
    rewrite (utf8_decode_app CR) by reflexivity.
    rewrite (utf8_decode_ascii LF) by reflexivity.
    rewrite (utf8_decode_app LF) by reflexivity.
    rewrite to_crlf_app. change (to_crlf (LF :: utf8_decode y))
      with (CR :: LF :: to_crlf (utf8_decode y)).
    rewrite (IH x), (IH y) by lia. reflexivity.
  - rewrite to_crlf_plain by exact Nl. symmetry. apply to_crlf_plain.
    apply utf8_decode_without; [reflexivity | exact Nl].
Qed.

Lemma utf8_decode_to_cr : forall n data,
  (List.length data <= n)%nat ->
  utf8_decode (to_cr data) = to_cr (utf8_decode data).
Proof.
  induction n as [|n IH]; intros data Len.
  { destruct data; [reflexivity | simpl in Len; lia]. }
  destruct (in_dec N.eq_dec LF data) as [I|Nl].
  - apply in_split in I. destruct I as (x & y & ->).
    rewrite length_app in Len. simpl in Len.
    rewrite to_cr_app. change (to_cr (LF :: y)) with (CR :: to_cr y).
    rewrite (utf8_decode_app CR) by reflexivity.
    rewrite (utf8_decode_app LF) by reflexivity.
    rewrite to_cr_app. change (to_cr (LF :: utf8_decode y))
      with (CR :: to_cr (utf8_decode y)).
    rewrite (IH x), (IH y) by lia. reflexivity.
  - rewrite to_cr_plain by exact Nl. symmetry. apply to_cr_plain.
    apply utf8_decode_without; [reflexivity | exact Nl].
Qed.

Lemma translate_to_crlf t : ~ In CR t -> translate_newlines (to_crlf t) = t.
Proof.
  induction t as [|c r IH]; [reflexivity|]. intros Nc.
  assert (Nr : ~ In CR r) by (intros I; apply Nc; right; exact I).
  unfold to_crlf in *. cbn [flat_map].
  destruct (N.eqb_spec c LF) as [->|Ne].
  - cbn [app translate_newlines]. change (CR =? CR) with true.
    change (LF =? LF) with true. cbn iota. rewrite IH by exact Nr. reflexivity.
  - cbn [app translate_newlines].
    destruct (N.eqb_spec c CR) as [->|_]; [exfalso; apply Nc; left; reflexivity|].
    rewrite IH by exact Nr. reflexivity.
Qed.

Lemma to_cr_head c r : exists d r', to_cr (c :: r) = d :: r' /\ d <> LF.
Proof.
  unfold to_cr. cbn [map]. destruct (N.eqb_spec c LF) as [->|Ne].
  - do 2 eexists. split; [reflexivity | discriminate].
  - do 2 eexists. split; [reflexivity | exact Ne].
Qed.

Lemma translate_to_cr t : ~ In CR t -> translate_newlines (to_cr t) = t.
Proof.
  induction t as [|c r IH]; [reflexivity|]. intros Nc.
  assert (Nr : ~ In CR r) by (intros I; apply Nc; right; exact I).
  specialize (IH Nr).
  change (to_cr (c :: r)) with ((if c =? LF then CR else c) :: to_cr r).
  destruct (N.eqb_spec c LF) as [->|Ne].
  - cbn [translate_newlines]. change (CR =? CR) with true. cbn iota.
    destruct r as [|d r']; [reflexivity|].
    destruct (to_cr_head d r') as (e & r'' & E & Nl). rewrite E in *.
    destruct (N.eqb_spec e LF); [congruence|]. rewrite IH. reflexivity.
  - cbn [translate_newlines].
    destruct (N.eqb_spec c CR) as [->|_]; [exfalso; apply Nc; left; reflexivity|].
    rewrite IH. reflexivity.
Qed.

(** X10.  A file gives the same lines whether its lines end with a line feed,
    with a carriage return and a line feed, or with a carriage return
    alone. *)
Theorem file_lines_line_ends data :
  ~ In CR data ->
  file_lines (to_crlf data) = file_lines data
  /\ file_lines (to_cr data) = file_lines data.
Proof.
  intros Nc.
  assert (Nd : ~ In CR (utf8_decode data))
    by (apply utf8_decode_without; [reflexivity | exact Nc]).
  unfold file_lines. split.
  - rewrite (utf8_decode_to_crlf _ data (Nat.le_refl _)).
    rewrite translate_to_crlf, translate_newlines_plain by exact Nd. reflexivity.
  - rewrite (utf8_decode_to_cr _ data (Nat.le_refl _)).
    rewrite translate_to_cr, translate_newlines_plain by exact Nd. reflexivity.
Qed.

Lemma file_lines_line_ends_example :
  ~ In CR log_bytes
  /\ file_lines (to_crlf log_bytes)
     = [line_retry_bottleneck; line_no_timestamp; []; line_bottleneck]
  /\ file_lines (to_crlf log_bytes) = file_lines log_bytes
  /\ file_lines (to_cr log_bytes) = file_lines log_bytes.
Proof.
  assert (Nc : ~ In CR log_bytes) by (apply not_in_test; vm_compute; reflexivity).
  split; [exact Nc|]. split; [vm_compute; reflexivity|].
  exact (file_lines_line_ends log_bytes Nc).
Defined.

(** ** The lines and the text of a file *)

(** X11.  The lines of a file are the pieces of its text between the line
    feeds, the empty ones included, except an empty piece after a line feed
    at the very end; and the pieces joined by line feeds are the text, so
    nothing of it is lost but the line ends. *)
Theorem file_lines_are_pieces data :
  file_lines data
  = drop_last_empty (split_on LF (translate_newlines (utf8_decode data)))
  /\ join LF (split_on LF (translate_newlines (utf8_decode data)))
     = translate_newlines (utf8_decode data).
Proof.
  split; [apply file_lines_pieces|].
  unfold split_on. rewrite join_split_on_from. reflexivity.
Qed.

Lemma translate_newlines_cut v : forall n u,
  (List.length u <= n)%nat ->
  translate_newlines (u ++ LF :: v)
  = translate_newlines (u ++ [LF]) ++ translate_newlines v.
Proof.
  induction n as [|n IH]; intros u Len.
  { destruct u; [reflexivity | simpl in Len; lia]. }
  destruct u as [|c r]; [reflexivity|]. simpl in Len.
  cbn [app translate_newlines]. destruct (c =? CR).
  - destruct r as [|d r1]; [reflexivity|]. simpl in Len. cbn [app].
    destruct (d =? LF).
    + rewrite (IH r1) by lia. reflexivity.
    + pose proof (IH (d :: r1) ltac:(simpl; lia)) as E. cbn [app] in E.
      rewrite E. reflexivity.
  - rewrite (IH r) by lia. reflexivity.
Qed.

Lemma translate_newlines_ends : forall n u,
  (List.length u <= n)%nat ->
  exists w, translate_newlines (u ++ [LF]) = w ++ [LF].
Proof.
  induction n as [|n IH]; intros u Len.
  { destruct u; [exists []; reflexivity | simpl in Len; lia]. }
  destruct u as [|c r]; [exists []; reflexivity|]. simpl in Len.
  cbn [app translate_newlines]. destruct (c =? CR).
  - destruct r as [|d r1]; [exists []; reflexivity|]. simpl in Len. cbn [app].
    destruct (d =? LF).
    + destruct (IH r1 ltac:(lia)) as [w ->]. exists (LF :: w). reflexivity.
    + destruct (IH (d :: r1) ltac:(simpl; lia)) as [w E]. cbn [app] in E.
      rewrite E. exists (LF :: w). reflexivity.
  - destruct (IH r ltac:(lia)) as [w ->]. exists (c :: w). reflexivity.
Qed.

Lemma readlines_from_cut b : forall a cur,
  readlines_from cur (a ++ LF :: b)
  = readlines_from cur (a ++ [LF]) ++ readlines_from [] b.
Proof.
  induction a as [|c a IH]; intros cur; [reflexivity|].
  cbn [app readlines_from]. destruct (c =? LF).
  - rewrite IH. reflexivity.
  - apply IH.
Qed.

(** X12.  What follows a line feed is read by itself: the lines of a file
    are the lines of its part up to a line feed, followed by the lines of
    the rest.  So bytes that are not UTF-8 in a line, or a line cut short,
    change nothing in the lines after it, and two logs put end to end give
    the lines of the first and then those of the second. *)
Theorem file_lines_after_line_feed x y :
  file_lines (x ++ LF :: y) = file_lines (x ++ [LF]) ++ file_lines y.
Proof.
  unfold file_lines, readlines.
  rewrite !(utf8_decode_app LF) by reflexivity.
  change (utf8_decode []) with (@nil N).
  rewrite (translate_newlines_cut _ _ (utf8_decode x) (Nat.le_refl _)).
  destruct (translate_newlines_ends _ (utf8_decode x) (Nat.le_refl _)) as [w ->].
  rewrite <- app_assoc. cbn [app]. rewrite readlines_from_cut, map_app.
  reflexivity.
Qed.

(** ** The scan command *)

Lemma translate_newlines_in c : forall n s,
  (List.length s <= n)%nat -> In c (translate_newlines s) -> c = LF \/ In c s.
Proof.
  induction n as [|n IH]; intros s Len.
  { destruct s; [intros [] | simpl in Len; lia]. }
  destruct s as [|a r]; [intros []|]. simpl in Len. cbn [translate_newlines].
  destruct (a =? CR).
  - intros [<-|I]; [left; reflexivity|]. destruct r as [|d r1]; [destruct I|].
    simpl in Len. destruct (d =? LF).
    + destruct (IH r1 ltac:(lia) I) as [->|I']; [left; reflexivity|].
      right. right. right. exact I'.
    + destruct (IH (d :: r1) ltac:(simpl; lia) I) as [->|I']; [left; reflexivity|].
      right. right. exact I'.
  - intros [<-|I]; [right; left; reflexivity|].
    destruct (IH r ltac:(lia) I) as [->|I']; [left; reflexivity|].
    right. right. exact I'.
Qed.

Lemma split_on_from_in sep s : forall tok p c,
  In p (split_on_from sep tok s) -> In c p -> In c tok \/ In c s.
Proof.
  induction s as [|a r IH]; intros tok p c; cbn [split_on_from].
  - intros [<-|[]] I. left. apply in_rev. exact I.
  - destruct (a =? sep).
    + intros [<-|Ip] I.
      * left. apply in_rev. exact I.
      * destruct (IH _ _ _ Ip I) as [[]|I']. right. right. exact I'.
    + intros Ip I. destruct (IH _ _ _ Ip I) as [[<-|I']|I'].
      * right. left. reflexivity.
      * left. exact I'.
      * right. right. exact I'.
Qed.

Lemma file_lines_scalar data l c :
  In l (file_lines data) -> In c l -> scalar_value c.
Proof.
  rewrite file_lines_pieces. intros Il Ic. apply drop_last_empty_in in Il.
  destruct (split_on_from_in _ _ _ _ _ Il Ic) as [[]|I].
  apply (translate_newlines_in c _ _ (Nat.le_refl _)) in I.
  destruct I as [->|I]; [left; reflexivity|].
  destruct (utf8_decode_char _ data (Nat.le_refl _) c I) as [[L _]|[_ S]];
    [left; lia | exact S].
Qed.

Lemma yield_lines_scalar ci path lines l c :
  yield_lines ci path = Returns lines -> In l lines -> In c l -> scalar_value c.
Proof.
  destruct path as [[data|]|items].
  - cbn [yield_lines open_lines]. intros E. inversion E; subst lines.
    apply file_lines_scalar.
  - discriminate.
  - rewrite yield_lines_folder. intros E I. inversion E; subst lines.
    apply in_flat_map in I. destruct I as ([[data|]|its] & _ & I);
      [|destruct I | destruct I].
    revert I. apply file_lines_scalar.
Qed.

Lemma message_in line c : In c (message (row_of line)) -> In c line.
Proof.
  cbn [row_of message]. destruct (ts_suffix line) as [prefix E].
  intros I. rewrite E. apply in_or_app. right. exact I.
Qed.

Lemma event_time_in line ts c :
  event_time (row_of line) = Some ts -> In c ts -> In c line.
Proof.
  cbn [row_of event_time].
  destruct (parse_ts_prefix_cases line) as [(n & _ & _ & P) | [_ P]];
    rewrite P; cbn [fst]; [|discriminate].
  intros E I. inversion E; subst ts.
  rewrite <- (firstn_skipn n line). apply in_or_app. left. exact I.
Qed.

Lemma rows_no_break lines :
  Forall no_break lines ->
  Forall (fun r => no_break (message r)
                   /\ forall ts, event_time r = Some ts -> no_break ts)
    (map row_of (filter recognised lines)).
Proof.
  intros F. apply Forall_forall. intros r I.
  apply in_map_iff in I. destruct I as (line & <- & I).
  apply filter_In in I. destruct I as [I _].
  rewrite Forall_forall in F. destruct (F line I) as [Ncr Nlf].
  split; [split|intros ts E; split]; intros J.
  - apply Ncr. apply message_in. exact J.
  - apply Nlf. apply message_in. exact J.
  - apply Ncr. apply (event_time_in line ts); assumption.
  - apply Nlf. apply (event_time_in line ts); assumption.
Qed.

Lemma main_scan_returns ci p out r :
  main_scan ci p out = Returns r ->
  exists lines,
    yield_lines ci (p_entry p) = Returns lines
    /\ csv_text r = write_csv (map row_of (filter recognised lines))
    /\ events r = List.length (filter recognised lines).
Proof.
  unfold main_scan. destruct (yield_lines ci (p_entry p)) as [lines|e]; [|discriminate].
  rewrite parse_events_spec. intros E. inversion E. cbn [csv_text events].
  exists lines. rewrite length_map. auto.
Qed.

(** X13.  When the scan command returns, the CSV it wrote has the header
    line and then one line for each line of the input that is recognised,
    in the order of the input, whatever the logs hold; the number of events
    of the closing message is the number of these lines, one less than the
    number of line feeds of the file. *)
Theorem scan_writes_line_per_event ci p out r :
  main_scan ci p out = Returns r ->
  exists lines,
    yield_lines ci (p_entry p) = Returns lines
    /\ events r = List.length (filter recognised lines)
    /\ split_on LF (csv_text r)
       = map (fun fields => csv_line fields ++ [CR])
           (map lit headers
            :: map row_fields (map row_of (filter recognised lines)))
         ++ [[]]
    /\ count_occ N.eq_dec (csv_text r) LF = S (events r).
Proof.
  intros E. destruct (main_scan_returns _ _ _ _ E) as (lines & Y & T & Ev).
  exists lines. split; [exact Y|]. split; [exact Ev|].
  assert (F : Forall no_break lines).
  { apply Forall_forall. intros l I. apply (yield_lines_plain ci _ _ _ Y I). }
  destruct (write_csv_lines _ (rows_no_break lines F)) as [S C].
  rewrite T, Ev. split; [exact S|]. rewrite C, length_map. reflexivity.
Qed.

Lemma scan_writes_line_per_event_example :
  exists r,
    main_scan false sample_input None = Returns r
    /\ events r = 3%nat
    /\ exists lines,
         yield_lines false (p_entry sample_input) = Returns lines
         /\ events r = List.length (filter recognised lines)
         /\ split_on LF (csv_text r)
            = map (fun fields => csv_line fields ++ [CR])
                (map lit headers
                 :: map row_fields (map row_of (filter recognised lines)))
              ++ [[]]
         /\ count_occ N.eq_dec (csv_text r) LF = S (events r).
Proof.
  destruct (main_scan false sample_input None) as [r|e] eqn:E;
    [|vm_compute in E; discriminate].
  exists r. split; [reflexivity|]. split.
  - vm_compute in E. inversion E. reflexivity.
  - exact (scan_writes_line_per_event false sample_input None r E).
Defined.

Lemma forallb_in {A} (f : A -> bool) l x : forallb f l = true -> In x l -> f x = true.
Proof. intros F I. rewrite forallb_forall in F. auto. Qed.

Lemma write_csv_in rows c :
  In c (write_csv rows) ->
  c < 0x80 \/ exists r f, In r rows /\ In f (row_fields r) /\ In c f.
Proof.
  unfold write_csv. intros I. apply in_app_or in I. destruct I as [I|I].
  - left. apply N.ltb_lt.
    apply (forallb_in (fun c => c <? 0x80) (csv_writerow (map lit headers)));
      [vm_compute; reflexivity | exact I].
  - apply in_flat_map in I. destruct I as (r & Ir & I).
    unfold csv_writerow in I. fold (csv_line (row_fields r)) in I.
    apply in_app_or in I. destruct I as [I|[<-|[<-|[]]]];
      [|left; reflexivity | left; reflexivity].
    apply csv_line_in in I.
    destruct I as [->|[->|(f & If & Ic)]]; [left; reflexivity | left; reflexivity|].
    right. exists r, f. auto.
Qed.

Lemma main_scan_scalar ci p out r :
  main_scan ci p out = Returns r -> Forall scalar_value (csv_text r).
Proof.
  intros E. destruct (main_scan_returns _ _ _ _ E) as (lines & Y & T & _).
  rewrite T. apply Forall_forall. intros c I.
  apply write_csv_in in I. destruct I as [L|(r0 & f & Ir & If & Ic)].
  { left. lia. }
  apply in_map_iff in Ir. destruct Ir as (line & <- & Il).
  apply filter_In in Il. destruct Il as [Il _].
  destruct (row_fields_in _ _ _ If Ic) as [Et|[M|[->|D]]].
  - apply (yield_lines_scalar ci _ _ line c Y Il).
    apply (event_time_in line f); assumption.
  - apply (yield_lines_scalar ci _ _ line c Y Il).
    apply message_in. rewrite M. exact Ic.
  - left. reflexivity.
  - apply ascii_digit_iff in D. left. lia.
Qed.



(** ** A byte order mark *)

Lemma split_on_from_first sep s : forall tok,
  exists x rest, split_on_from sep tok s = (rev tok ++ x) :: rest.
Proof.
  induction s as [|c r IH]; intros tok; cbn [split_on_from].
  - exists [], []. rewrite app_nil_r. reflexivity.
  - destruct (c =? sep).
    + exists [], (split_on_from sep [] r). rewrite app_nil_r. reflexivity.
    + destruct (IH (c :: tok)) as (x & rest & ->). exists (c :: x), rest.
      cbn [rev]. rewrite <- app_assoc. reflexivity.
Qed.

Lemma drop_last_empty_first a p r :
  exists o, drop_last_empty ((a :: p) :: r) = (a :: p) :: o.
Proof. destruct r; eexists; reflexivity. Qed.

Lemma no_timestamp_after c line :
  ts_char c = false -> parse_ts_prefix (c :: line) = (None, c :: line).
Proof.
  intros Nc.
  destruct (parse_ts_prefix_cases (c :: line)) as [(n & R & _) | [_ P]];
    [|exact P].
  exfalso. destruct R as (B & _ & F & _).
  destruct n as [|n]; [lia|]. cbn [firstn] in F. inversion F. congruence.
Qed.

(** X16.  The logs are decoded as [utf-8], which keeps a byte order mark: a
    file that begins with one gives a first line that begins with the
    character U+FEFF, and such a line never has a timestamp, since the mark
    is no timestamp character: its [event_time] is null and its message is
    the whole line, mark included. *)
Theorem bom_hides_first_timestamp rest :
  exists first others,
    file_lines (bom_bytes ++ rest) = (BOM :: first) :: others
    /\ parse_ts_prefix (BOM :: first) = (None, BOM :: first)
    /\ event_time (row_of (BOM :: first)) = None
    /\ message (row_of (BOM :: first)) = BOM :: first.
Proof.
  assert (D : utf8_decode (bom_bytes ++ rest) = BOM :: utf8_decode rest)
    by reflexivity.
  rewrite file_lines_pieces, D.
  change (translate_newlines (BOM :: utf8_decode rest))
    with (BOM :: translate_newlines (utf8_decode rest)).
  change (split_on LF (BOM :: translate_newlines (utf8_decode rest)))
    with (split_on_from LF [BOM] (translate_newlines (utf8_decode rest))).
  destruct (split_on_from_first LF (translate_newlines (utf8_decode rest)) [BOM])
    as (x & pieces & ->).
  cbn [rev app]. destruct (drop_last_empty_first BOM x pieces) as [o ->].
  exists x, o. split; [reflexivity|].
  assert (P : parse_ts_prefix (BOM :: x) = (None, BOM :: x))
    by (apply no_timestamp_after; vm_compute; reflexivity).
  split; [exact P|]. cbn [row_of event_time message]. rewrite P. auto.
Qed.

(** ** Folders *)


Lemma yield_lines_items ci items :
  yield_lines ci (Folder items)
  = Returns (flat_map entry_lines
               (map snd (filter (fun it => fnmatch_log ci (fst it)) items))
             ++ flat_map entry_lines
                  (flat_map (fun it => rglob_log ci (snd it)) items)).
Proof.
  rewrite yield_lines_folder. cbn [rglob_log]. rewrite flat_map_app. reflexivity.
Qed.

(** X17.  In a folder, [yield_lines] takes its lines from the files whose
    name ends with [.log] and that can be read, and from nothing else: a file
    with another name, or one that cannot be opened, changes nothing by being
    there, and the name of a sub-folder does not count, only its files. *)
Theorem folder_reads_logs_only ci a b name :
  (forall data, fnmatch_log ci name = false ->
     yield_lines ci (Folder (a ++ (name, File data) :: b))
     = yield_lines ci (Folder (a ++ b)))
  /\ yield_lines ci (Folder (a ++ (name, File None) :: b))
     = yield_lines ci (Folder (a ++ b))
  /\ (forall name' sub,
        yield_lines ci (Folder (a ++ (name, Folder sub) :: b))
        = yield_lines ci (Folder (a ++ (name', Folder sub) :: b))).
Proof.
  assert (G : forall n e,
            flat_map entry_lines
              (map snd (filter (fun it => fnmatch_log ci (fst it)) [(n, e)])) = [] ->
            yield_lines ci (Folder (a ++ (n, e) :: b))
            = Returns (flat_map entry_lines
                         (map snd (filter (fun it => fnmatch_log ci (fst it))
                                     (a ++ b)))
                       ++ flat_map entry_lines
                            (flat_map (fun it => rglob_log ci (snd it)) a)
                       ++ flat_map entry_lines (rglob_log ci e)
                       ++ flat_map entry_lines
                            (flat_map (fun it => rglob_log ci (snd it)) b))).
  { intros n e Own. rewrite yield_lines_items. f_equal.
    change ((n, e) :: b) with ([(n, e)] ++ b).
    rewrite !filter_app, !map_app, !flat_map_app. rewrite Own.
    cbn [flat_map fst snd app]. rewrite app_nil_r. reflexivity. }
  assert (Base : yield_lines ci (Folder (a ++ b))
                 = Returns (flat_map entry_lines
                              (map snd (filter (fun it => fnmatch_log ci (fst it))
                                          (a ++ b)))
                            ++ flat_map entry_lines
                                 (flat_map (fun it => rglob_log ci (snd it)) a)
                            ++ []
                            ++ flat_map entry_lines
                                 (flat_map (fun it => rglob_log ci (snd it)) b))).
  { rewrite yield_lines_items, flat_map_app, flat_map_app. reflexivity. }
  split; [|split].
  - intros data Nm. rewrite Base. apply (G name (File data)).
    cbn [filter fst]. rewrite Nm. reflexivity.
  - rewrite Base. apply (G name (File None)).
    cbn [filter fst]. destruct (fnmatch_log ci name); reflexivity.
  - intros name' sub. rewrite !G; [reflexivity | |].
    + cbn [filter fst]. destruct (fnmatch_log ci name'); reflexivity.
    + cbn [filter fst]. destruct (fnmatch_log ci name); reflexivity.
Qed.

Lemma folder_reads_logs_only_example :
  fnmatch_log false (lit "notes.txt") = false
  /\ yield_lines false
       (Folder ([(lit "a.log", File (Some log_bytes))]
                ++ (lit "notes.txt", File (Some (lit "retries: 9"))) :: []))
     = Returns [line_retry_bottleneck; line_no_timestamp; []; line_bottleneck]
  /\ yield_lines false
       (Folder ([(lit "a.log", File (Some log_bytes))]
                ++ (lit "notes.txt", File (Some (lit "retries: 9"))) :: []))
     = yield_lines false (Folder ([(lit "a.log", File (Some log_bytes))] ++ [])).
Proof.
  split; [reflexivity|]. split; [vm_compute; reflexivity|].
  apply (proj1 (folder_reads_logs_only false [(lit "a.log", File (Some log_bytes))]
                  [] (lit "notes.txt"))).
  reflexivity.
Defined.

(** ** The name of the CSV *)








(** ** Letter case *)

Lemma cased_spec c :
  cased c = true <->
  (0x41 <= c <= 0x5A) \/ (0x61 <= c <= 0x7A) \/ c = 0x130 \/ c = 0x131
  \/ c = 0x17F \/ c = 0x212A.
Proof.
  unfold cased. rewrite !orb_true_iff, !in_range_iff, !N.eqb_eq. tauto.
Qed.

Lemma fold_case_spec c :
  (0x41 <= c <= 0x5A /\ fold_case c = c + 32)
  \/ ((c = 0x130 \/ c = 0x131) /\ fold_case c = 0x69)
  \/ (c = 0x17F /\ fold_case c = 0x73)
  \/ (c = 0x212A /\ fold_case c = 0x6B)
  \/ (cased c = false /\ fold_case c = c)
  \/ (0x61 <= c <= 0x7A /\ fold_case c = c).
Proof.
  unfold fold_case.
  destruct (in_range 0x41 0x5A c) eqn:R1.
  { apply in_range_iff in R1. auto. }
  destruct (N.eqb_spec c 0x130); [cbn [orb]; auto|].
  destruct (N.eqb_spec c 0x131); [cbn [orb]; auto 6|]. cbn [orb].
  destruct (N.eqb_spec c 0x17F); [auto 6|].
  destruct (N.eqb_spec c 0x212A); [auto 6|].
  destruct (in_range 0x61 0x7A c) eqn:R2.
  { apply in_range_iff in R2. auto 10. }
  right. right. right. right. left. split; [|reflexivity].
  unfold cased. rewrite R1, R2.
  destruct (N.eqb_spec c 0x130); [congruence|].
  destruct (N.eqb_spec c 0x131); [congruence|].
  destruct (N.eqb_spec c 0x17F); [congruence|].
  destruct (N.eqb_spec c 0x212A); [congruence|]. reflexivity.
Qed.

Lemma folds_alike_cases a b :
  folds_alike a b -> a = b \/ (cased a = true /\ cased b = true).
Proof.
  unfold folds_alike. intros E.
  destruct (cased a) eqn:Ca; destruct (cased b) eqn:Cb; auto; left.
  - apply cased_spec in Ca.
    assert (Nb : ~ cased b = true) by congruence. rewrite cased_spec in Nb.
    destruct (fold_case_spec a) as [[? Fa]|[[? Fa]|[[? Fa]|[[? Fa]|[[? Fa]|[? Fa]]]]]];
      destruct (fold_case_spec b)
        as [[? Fb]|[[? Fb]|[[? Fb]|[[? Fb]|[[? Fb]|[? Fb]]]]]]; lia.
  - apply cased_spec in Cb.
    assert (Na : ~ cased a = true) by congruence. rewrite cased_spec in Na.
    destruct (fold_case_spec a) as [[? Fa]|[[? Fa]|[[? Fa]|[[? Fa]|[[? Fa]|[? Fa]]]]]];
      destruct (fold_case_spec b)
        as [[? Fb]|[[? Fb]|[[? Fb]|[[? Fb]|[[? Fb]|[? Fb]]]]]]; lia.
  - destruct (fold_case_spec a) as [[? Fa]|[[? Fa]|[[? Fa]|[[? Fa]|[[? Fa]|[? Fa]]]]]];
      destruct (fold_case_spec b)
        as [[? Fb]|[[? Fb]|[[? Fb]|[[? Fb]|[[? Fb]|[? Fb]]]]]];
      try congruence;
      match goal with
      | H : _ <= ?x <= _ |- _ =>
          assert (cased x = true) by (apply cased_spec; lia); congruence
      | H : ?x = _ \/ ?x = _ |- _ =>
          assert (cased x = true) by (apply cased_spec; lia); congruence
      | H : ?x = _ |- _ =>
          assert (cased x = true) by (apply cased_spec; lia); congruence
      end.
Qed.

Lemma in_ranges_covers t lo hi c :
  existsb (fun r => (fst r <=? lo) && (hi <=? snd r)) t = true ->
  lo <= c <= hi -> in_ranges t c = true.
Proof.
  intros E B. apply existsb_exists in E. destruct E as ([l h] & I & C).
  cbn [fst snd] in C. apply andb_true_iff in C. destruct C as [C1 C2].
  apply N.leb_le in C1, C2.
  apply in_ranges_iff. exists l, h. split; [exact I | lia].
Qed.

Lemma cased_word c : cased c = true -> is_word c = true.
Proof.
  intros C. apply cased_spec in C. unfold is_word. apply orb_true_iff. left.
  destruct C as [B|[B|[->|[->|[->| ->]]]]].
  - apply (in_ranges_covers _ 0x41 0x5A); [vm_compute; reflexivity | exact B].
  - apply (in_ranges_covers _ 0x61 0x7A); [vm_compute; reflexivity | exact B].
  - vm_compute. reflexivity.
  - vm_compute. reflexivity.
  - vm_compute. reflexivity.
  - vm_compute. reflexivity.
Qed.

Lemma cased_not_space c : cased c = true -> is_space c = false.
Proof.
  intros C. apply cased_spec in C.
  destruct (is_space c) eqn:S; [|reflexivity]. exfalso.
  unfold is_space in S. apply in_ranges_iff in S.
  destruct S as (lo & hi & I & B). unfold space_ranges in I.
  repeat (destruct I as [E|I]; [inversion E; subst lo hi; lia|]). destruct I.
Qed.

Lemma cased_not_decimal c : cased c = true -> is_decimal c = false.
Proof.
  intros C. apply cased_spec in C.
  destruct (is_decimal c) eqn:D; [|reflexivity]. exfalso.
  destruct C as [B|[B|[->|[->|[->| ->]]]]].
  - apply is_decimal_iff in D. destruct D as [d D].
    apply decimal_value_spec in D. destruct D as (D9 & z & Iz & ->).
    apply decimal_zeros_ascii in Iz. lia.
  - apply is_decimal_iff in D. destruct D as [d D].
    apply decimal_value_spec in D. destruct D as (D9 & z & Iz & ->).
    apply decimal_zeros_ascii in Iz. lia.
  - vm_compute in D. discriminate.
  - vm_compute in D. discriminate.
  - vm_compute in D. discriminate.
  - vm_compute in D. discriminate.
Qed.

Lemma cased_other c x : cased c = true -> cased x = false -> (c =? x) = false.
Proof. intros C X. apply N.eqb_neq. intros ->. congruence. Qed.

Lemma is_word_alike a b : folds_alike a b -> is_word a = is_word b.
Proof.
  intros S. destruct (folds_alike_cases a b S) as [->|[Ca Cb]]; [reflexivity|].
  rewrite (cased_word a Ca), (cased_word b Cb). reflexivity.
Qed.

Lemma is_space_alike a b : folds_alike a b -> is_space a = is_space b.
Proof.
  intros S. destruct (folds_alike_cases a b S) as [->|[Ca Cb]]; [reflexivity|].
  rewrite (cased_not_space a Ca), (cased_not_space b Cb). reflexivity.
Qed.

Lemma blind_uncased cs :
  (forall c, cased c = true -> in_cset cs c = false) -> class_blind cs.
Proof.
  intros H a b S. destruct (folds_alike_cases a b S) as [->|[Ca Cb]];
    [reflexivity|].
  rewrite (H a Ca), (H b Cb). reflexivity.
Qed.

Lemma blind_space : class_blind [CSpace].
Proof.
  apply blind_uncased. intros c C. unfold in_cset. cbn [existsb in_citem].
  rewrite (cased_not_space c C). reflexivity.
Qed.

Lemma blind_digit : class_blind [CDigit].
Proof.
  apply blind_uncased. intros c C. unfold in_cset. cbn [existsb in_citem].
  rewrite (cased_not_decimal c C). reflexivity.
Qed.

Lemma blind_digit_dot : class_blind [CDigit; CChar (chr ".")].
Proof.
  apply blind_uncased. intros c C. unfold in_cset. cbn [existsb in_citem].
  rewrite (cased_not_decimal c C), (cased_other c (chr ".") C eq_refl).
  reflexivity.
Qed.

Lemma blind_any : class_blind [CAny].
Proof.
  intros a b S. destruct (folds_alike_cases a b S) as [->|[Ca Cb]];
    [reflexivity|].
  unfold in_cset. cbn [existsb in_citem].
  rewrite (cased_other a 0xA Ca eq_refl), (cased_other b 0xA Cb eq_refl).
  reflexivity.
Qed.

Lemma blind_colon_equal : class_blind [CChar (chr ":"); CChar (chr "=")].
Proof.
  apply blind_uncased. intros c C. unfold in_cset. cbn [existsb in_citem].
  rewrite (cased_other c (chr ":") C eq_refl), (cased_other c (chr "=") C eq_refl).
  reflexivity.
Qed.

Lemma blind_patterns p :
  In p [BOTTLE; XFER; WAN; RETRY] -> ignorecase p = true /\ blind (re p).
Proof.
  pose proof blind_space. pose proof blind_digit. pose proof blind_digit_dot.
  pose proof blind_any. pose proof blind_colon_equal.
  intros [<-|[<-|[<-|[<-|[]]]]]; (split; [reflexivity|]);
    cbn [re BOTTLE XFER WAN RETRY blind]; unfold xfer_size, xfer_dur, xfer_spd,
      two_digits, ws_star, digit_dot_plus, lazy_any; cbn [blind]; tauto.
Qed.

Lemma alike_sym s t : alike s t -> alike t s.
Proof.
  unfold alike. induction 1; constructor; auto.
  unfold folds_alike in *. congruence.
Qed.

Lemma alike_last p q w v :
  alike_before p q -> alike w v -> alike_before (last_char p w) (last_char q v).
Proof.
  intros B A. revert p q B. unfold last_char.
  induction A as [|a b w v S A IH]; intros p q B; [exact B|].
  cbn [fold_left]. apply IH. exact S.
Qed.

Lemma alike_word_at p q : alike_before p q -> is_word_at p = is_word_at q.
Proof.
  destruct p as [a|]; destruct q as [b|]; cbn [alike_before is_word_at];
    try tauto. apply is_word_alike.
Qed.

Lemma alike_head s t : alike s t -> alike_before (hd_error s) (hd_error t).
Proof. destruct 1; cbn [hd_error alike_before]; auto. Qed.

Lemma alike_class cs w v :
  class_blind cs -> alike w v ->
  Forall (fun a => in_cset cs a = true) w ->
  Forall (fun a => in_cset cs a = true) v.
Proof.
  intros Bl A. induction A as [|a b w v S A IH]; intros F; [constructor|].
  inversion F; subst. constructor; [|auto].
  rewrite <- (Bl a b S). assumption.
Qed.

Lemma alike_lit l w v :
  alike w v ->
  Forall2 (fun a b => char_eqb true a b = true) l w ->
  Forall2 (fun a b => char_eqb true a b = true) l v.
Proof.
  intros A. revert l. induction A as [|a b w v S A IH]; intros l F.
  - inversion F. constructor.
  - inversion F; subst. constructor; [|auto].
    unfold char_eqb, folds_alike in *. rewrite <- S. assumption.
Qed.

(** A match of an expression made of classes blind to the case carries over
    to a text that folds alike. *)
Lemma matches_alike r prev w t c c' :
  matches true r prev w t c c' -> blind r ->
  forall q v u d,
    alike_before prev q -> alike w v -> alike t u ->
    exists d', matches true r q v u d d'.
Proof.
  induction 1; cbn [blind]; intros Bl q v u d Bp Aw At.
  - eexists. constructor. apply (alike_lit l w v); assumption.
  - inversion Aw as [|a0 b w0 v0 S A0]; subst. inversion A0; subst.
    eexists. constructor. rewrite <- (Bl a b S). assumption.
  - eexists. constructor.
    + apply (alike_class cs w v); assumption.
    + rewrite <- (Forall2_length Aw). assumption.
    + rewrite <- (Forall2_length Aw). assumption.
  - destruct (IHmatches Bl q v u d Bp Aw At) as [d' M].
    eexists. apply M_Opt_some. exact M.
  - inversion Aw; subst. eexists. apply M_Opt_none.
  - destruct Bl as [B1 B2].
    apply Forall2_app_inv_l in Aw. destruct Aw as (v1 & v2 & A1 & A2 & ->).
    destruct (IHmatches1 B1 q v1 (v2 ++ u) d Bp A1) as [d1 M1].
    { apply Forall2_app; assumption. }
    destruct (IHmatches2 B2 (last_char q v1) v2 u d1) as [d2 M2];
      [apply alike_last; assumption | assumption | assumption |].
    eexists. eapply M_Seq; eassumption.
  - destruct Bl as [B1 B2].
    destruct (IHmatches B1 q v u d Bp Aw At) as [d' M].
    eexists. apply M_Alt_l. exact M.
  - destruct Bl as [B1 B2].
    destruct (IHmatches B2 q v u d Bp Aw At) as [d' M].
    eexists. apply M_Alt_r. exact M.
  - destruct (IHmatches Bl q v u d Bp Aw At) as [d' M].
    eexists. apply M_Grp. exact M.
  - inversion Aw; subst. destruct q; [destruct Bp|].
    eexists. constructor.
  - inversion Aw; subst. eexists. constructor.
    rewrite <- (alike_word_at _ _ Bp), <- (alike_word_at _ _ (alike_head _ _ At)).
    assumption.
Qed.

Lemma found_alike p s1 s2 :
  In p [BOTTLE; XFER; WAN; RETRY] -> alike s1 s2 ->
  found p s1 = true -> found p s2 = true.
Proof.
  intros Ip A F. destruct (blind_patterns p Ip) as [Ci Bl].
  apply found_iff in F. destruct F as (pre & w & post & c & -> & O).
  apply Forall2_app_inv_l in A. destruct A as (pre2 & r2 & Ap & A & ->).
  apply Forall2_app_inv_l in A. destruct A as (w2 & post2 & Aw & Apo & ->).
  unfold occurrence in O. rewrite Ci in O.
  destruct (matches_alike _ _ _ _ _ _ O Bl (last_char None pre2) w2 post2 [])
    as [c2 M]; [apply (alike_last None None); [exact I | exact Ap] | | |];
    try assumption.
  apply found_iff. exists pre2, w2, post2, c2. split; [reflexivity|].
  unfold occurrence. rewrite Ci. exact M.
Qed.

Lemma any_match_alike s1 s2 : alike s1 s2 -> any_match s1 = any_match s2.
Proof.
  intros A.
  assert (G : forall a b, alike a b -> any_match a = true -> any_match b = true).
  { intros a b Aab H. unfold any_match in *. apply existsb_exists in H.
    destruct H as (p & Ip & F). apply existsb_exists. exists p.
    split; [exact Ip|]. apply (found_alike p a b); assumption. }
  destruct (any_match s1) eqn:E1; destruct (any_match s2) eqn:E2; try reflexivity.
  - rewrite (G s1 s2 A E1) in E2. discriminate.
  - rewrite (G s2 s1 (alike_sym _ _ A) E2) in E1. discriminate.
Qed.

Lemma alike_iff s t : alike s t <-> map fold_case s = map fold_case t.
Proof.
  split.
  - induction 1 as [|a b s t S A IH]; [reflexivity|]. cbn [map]. congruence.
  - revert t. induction s as [|a s IH]; intros [|b t] E; try discriminate.
    + constructor.
    + cbn [map] in E. inversion E. constructor; [assumption | apply IH; assumption].
Qed.

Lemma cased_not_ts c : cased c = true -> ts_char c = false.
Proof.
  intros C. unfold ts_char. rewrite (cased_not_space c C).
  apply cased_spec in C.
  destruct (in_range (chr "0") (chr "9") c) eqn:R.
  { apply in_range_iff in R. change (chr "0") with 0x30 in R.
    change (chr "9") with 0x39 in R. lia. }
  destruct (N.eqb_spec c (chr ":")) as [E|_]; [change (chr ":") with 0x3A in E; lia|].
  destruct (N.eqb_spec c (chr ".")) as [E|_]; [change (chr ".") with 0x2E in E; lia|].
  destruct (N.eqb_spec c (chr "-")) as [E|_]; [change (chr "-") with 0x2D in E; lia|].
  reflexivity.
Qed.

Lemma ts_char_alike a b : folds_alike a b -> ts_char a = true -> a = b.
Proof.
  intros S T. destruct (folds_alike_cases a b S) as [E|[Ca _]]; [exact E|].
  rewrite (cased_not_ts a Ca) in T. discriminate.
Qed.

Lemma alike_firstn n : forall s t, alike s t -> alike (firstn n s) (firstn n t).
Proof.
  induction n as [|n IH]; intros s t A; [constructor|].
  destruct A; cbn [firstn]; constructor; [assumption | apply IH; assumption].
Qed.

Lemma alike_skipn n : forall s t, alike s t -> alike (skipn n s) (skipn n t).
Proof.
  induction n as [|n IH]; intros s t A; [exact A|].
  destruct A; cbn [skipn]; [constructor | apply IH; assumption].
Qed.

Lemma alike_lstrip s t : alike s t -> alike (lstrip s) (lstrip t).
Proof.
  induction 1 as [|a b s t S A IH]; [constructor|]. cbn [lstrip].
  rewrite <- (is_space_alike a b S). destruct (is_space a); [exact IH|].
  constructor; assumption.
Qed.

Lemma alike_ts_chars s t :
  alike s t -> Forall (fun c => ts_char c = true) s -> s = t.
Proof.
  induction 1 as [|a b s t S A IH]; intros F; [reflexivity|].
  inversion F; subst. f_equal; [apply ts_char_alike; assumption | auto].
Qed.

Lemma alike_nth n : forall s t c,
  alike s t -> nth_error s n = Some c ->
  exists d, nth_error t n = Some d /\ folds_alike c d.
Proof.
  induction n as [|n IH]; intros s t c A; destruct A as [|a b s t S A];
    cbn [nth_error]; try discriminate.
  - intros E. inversion E; subst. eauto.
  - apply IH. exact A.
Qed.

Lemma ts_run_alike s t n : alike s t -> ts_run s n -> ts_run t n.
Proof.
  intros A (B & Len & F & c & Nth & Sp).
  pose proof (alike_ts_chars _ _ (alike_firstn n _ _ A) F) as E.
  destruct (alike_nth n _ _ c A Nth) as (d & Nd & S).
  split; [exact B|]. rewrite <- E. split; [exact Len|]. split; [exact F|].
  exists d. split; [exact Nd|]. rewrite <- (is_space_alike c d S). exact Sp.
Qed.

Lemma parse_ts_prefix_alike s t :
  alike s t ->
  fst (parse_ts_prefix s) = fst (parse_ts_prefix t)
  /\ alike (snd (parse_ts_prefix s)) (snd (parse_ts_prefix t)).
Proof.
  intros A. pose proof (alike_sym _ _ A) as A'.
  destruct (parse_ts_prefix_cases s) as [(n & R & Mx & ->) | [Nr ->]];
    destruct (parse_ts_prefix_cases t) as [(m & R' & Mx' & ->) | [Nr' ->]];
    cbn [fst snd].
  - assert (n = m).
    { pose proof (Mx' n (ts_run_alike _ _ _ A R)).
      pose proof (Mx m (ts_run_alike _ _ _ A' R')). lia. }
    subst m. split.
    + f_equal. apply alike_ts_chars; [apply alike_firstn; exact A|].
      destruct R as (_ & _ & F & _). exact F.
    + apply alike_lstrip. apply alike_skipn. exact A.
  - exfalso. apply (Nr' n). apply (ts_run_alike s); assumption.
  - exfalso. apply (Nr m). apply (ts_run_alike t); assumption.
  - split; [reflexivity | exact A].
Qed.

(** X19.  The four patterns are compiled with [re.I]: two lines that differ
    by the case of their letters only are recognised alike, by validate mode
    and by [parse_events]; they have the same timestamp, and messages that
    differ by the case of their letters only. *)
Theorem recognition_ignores_case line1 line2 :
  map fold_case line1 = map fold_case line2 ->
  recognised line1 = recognised line2
  /\ fst (parse_ts_prefix line1) = fst (parse_ts_prefix line2)
  /\ map fold_case (snd (parse_ts_prefix line1))
     = map fold_case (snd (parse_ts_prefix line2)).
Proof.
  intros E. apply alike_iff in E.
  destruct (parse_ts_prefix_alike _ _ E) as [T M].
  split; [|split; [exact T | apply alike_iff; exact M]].
  unfold recognised. apply any_match_alike. exact M.
Qed.

Lemma recognition_ignores_case_example :
  map fold_case line_capitals = map fold_case line_retry_bottleneck
  /\ recognised line_capitals = true
  /\ recognised line_capitals = recognised line_retry_bottleneck
  /\ fst (parse_ts_prefix line_capitals)
     = fst (parse_ts_prefix line_retry_bottleneck)
  /\ map fold_case (snd (parse_ts_prefix line_capitals))
     = map fold_case (snd (parse_ts_prefix line_retry_bottleneck)).
Proof.
  assert (E : map fold_case line_capitals = map fold_case line_retry_bottleneck)
    by (vm_compute; reflexivity).
  split; [exact E|]. split; [vm_compute; reflexivity|].
  exact (recognition_ignores_case line_capitals line_retry_bottleneck E).
Defined.

(** ** The retry count *)

Lemma decimal_word c : is_decimal c = true -> is_word c = true.
Proof.
  intros D. apply is_decimal_iff in D. destruct D as [d D].
  apply decimal_value_spec in D. destruct D as (D9 & z & Iz & ->).
  unfold is_word. apply orb_true_iff. left.
  assert (C : forallb (fun z => existsb (fun r => (fst r <=? z) && (z + 9 <=? snd r))
                                  alnum_ranges) decimal_zeros = true)
    by (vm_compute; reflexivity).
  rewrite forallb_forall in C. specialize (C z Iz).
  apply (in_ranges_covers _ z (z + 9)); [exact C | lia].
Qed.

Lemma matches_wordb_inv ci prev w t c c' :
  matches ci WordB prev w t c c' ->
  w = [] /\ c' = c /\ xorb (is_word_at prev) (is_word_at (hd_error t)) = true.
Proof. intros M. inversion M; subst. auto. Qed.

Lemma last_char_digits p g :
  digits g -> is_word_at (last_char p g) = true.
Proof.
  intros [Ne F]. revert p. unfold last_char.
  induction g as [|a g IH]; [congruence|]. intros p. cbn [fold_left].
  inversion F; subst. destruct g as [|b g'].
  - cbn [fold_left is_word_at]. apply decimal_word. assumption.
  - apply IH; [discriminate | assumption].
Qed.

Lemma matches_alt_inv ci r1 r2 prev w t c c' :
  matches ci (Alt r1 r2) prev w t c c' ->
  matches ci r1 prev w t c c' \/ matches ci r2 prev w t c c'.
Proof. intros M. inversion M; subst; auto. Qed.

Lemma retry_word_head prev w t c c' :
  matches true (Alt (Lit (lit "retry")) (Lit (lit "retries"))) prev w t c c' ->
  forall rest, is_word_at (hd_error (w ++ rest)) = true.
Proof.
  assert (G : forall l w, Forall2 (fun a b => char_eqb true a b = true)
                            (chr "r" :: l) w ->
              forall rest, is_word_at (hd_error (w ++ rest)) = true).
  { intros l w0 F rest. inversion F as [|a b l0 w1 E F0]; subst.
    cbn [app hd_error is_word_at]. unfold char_eqb in E. apply N.eqb_eq in E.
    rewrite <- (is_word_alike (chr "r") b E). vm_compute. reflexivity. }
  intros M. apply matches_alt_inv in M.
  destruct M as [M|M]; apply matches_lit_inv in M; destruct M as [F _];
    exact (G _ _ F).
Qed.

(** X20.  The retry pattern stands between two word boundaries: wherever it
    matches, the character before the match and the character after the
    digits are no word characters (no letter, digit or underscore), and the
    group holds the digits at the end of the match.  So the count recorded is
    never the head of a longer number, and [retry] is never the tail of a
    longer word. *)
Theorem retry_count_is_whole pre w post c :
  occurrence RETRY pre w post c ->
  exists k g,
    w = k ++ g /\ c = [("retries", g)] /\ digits g
    /\ is_word_at (last_char None pre) = false
    /\ is_word_at (hd_error post) = false.
Proof.
  unfold occurrence, RETRY. cbn [re ignorecase]. intros M.
  split_by matches_seq_inv M.
  apply matches_wordb_inv in M0. destruct M0 as (-> & -> & B1).
  split_by matches_seq_inv M.
  pose proof (retry_word_head _ _ _ _ _ M0) as Hd.
  plain_by matches_no_group M0.
  split_by matches_seq_inv M. plain_by matches_no_group M0.
  split_by matches_seq_inv M. plain_by matches_no_group M0.
  split_by matches_seq_inv M. plain_by matches_no_group M0.
  split_by matches_seq_inv M.
  apply matches_wordb_inv in M. destruct M as (-> & -> & B2).
  apply matches_grp_inv in M0. destruct M0 as (c2 & -> & M0).
  apply rep_digits in M0. destruct M0 as [D ->].
  rewrite (last_char_digits _ _ D) in B2.
  rewrite <- app_assoc in B1. rewrite Hd in B1.
  exists (w ++ w1 ++ w0 ++ w2), w3.
  split; [|split; [reflexivity|split; [exact D|]]].
  - cbn [app]. rewrite app_nil_r. rewrite <- !app_assoc. reflexivity.
  - split.
    + destruct (is_word_at (last_char None pre)); [discriminate | reflexivity].
    + destruct (is_word_at (hd_error post)); [discriminate | reflexivity].
Qed.

Lemma retry_count_is_whole_example :
  exists pre w post,
    line_retries = pre ++ w ++ post
    /\ occurrence RETRY pre w post [("retries", lit "35")]
    /\ exists k g,
         w = k ++ g /\ [("retries", lit "35")] = [("retries", g)] /\ digits g
         /\ is_word_at (last_char None pre) = false
         /\ is_word_at (hd_error post) = false.
Proof.
  destruct (re_search RETRY line_retries) as [m|] eqn:S;
    [|vm_compute in S; discriminate].
  destruct (re_search_some _ _ _ S) as (pre & w & post & E & O & _).
  assert (G : m_groups m = [("retries", lit "35")]).
  { vm_compute in S. inversion S. reflexivity. }
  rewrite G in O. exists pre, w, post.
  split; [exact E|]. split; [exact O|].
  exact (retry_count_is_whole pre w post _ O).
Defined.

(** ** The text written and read in UTF-8 *)

Lemma utf8_decode_two b0 b1 rest :
  0xC2 <= b0 -> b0 < 0xE0 -> 0x80 <= b1 <= 0xBF ->
  utf8_decode (b0 :: b1 :: rest)
  = (b0 * 64 + b1 - (0xC0 * 64 + 0x80)) :: utf8_decode rest.
Proof.
  intros L0 H0 B1. rewrite utf8_decode_cons.
  destruct (N.ltb_spec b0 0x80); [lia|].
  destruct (N.ltb_spec b0 0xC2); [lia|].
  destruct (N.ltb_spec b0 0xE0); [|lia].
  apply in_range_iff in B1. fold (is_cont b1) in B1. rewrite B1. reflexivity.
Qed.

Lemma utf8_decode_three b0 b1 b2 rest :
  0xE0 <= b0 -> b0 < 0xF0 ->
  second_lo b0 <= b1 <= second_hi b0 -> 0x80 <= b2 <= 0xBF ->
  utf8_decode (b0 :: b1 :: b2 :: rest)
  = (b0 * 4096 + b1 * 64 + b2 - (0xE0 * 4096 + 0x80 * 64 + 0x80))
    :: utf8_decode rest.
Proof.
  intros L0 H0 B1 B2. rewrite utf8_decode_cons.
  destruct (N.ltb_spec b0 0x80); [lia|].
  destruct (N.ltb_spec b0 0xC2); [lia|].
  destruct (N.ltb_spec b0 0xE0); [lia|].
  destruct (N.ltb_spec b0 0xF0); [|lia].
  apply in_range_iff in B1. rewrite B1.
  apply in_range_iff in B2. fold (is_cont b2) in B2. rewrite B2. reflexivity.
Qed.

Lemma utf8_decode_four b0 b1 b2 b3 rest :
  0xF0 <= b0 -> b0 < 0xF5 ->
  second_lo b0 <= b1 <= second_hi b0 -> 0x80 <= b2 <= 0xBF -> 0x80 <= b3 <= 0xBF ->
  utf8_decode (b0 :: b1 :: b2 :: b3 :: rest)
  = (b0 * 262144 + b1 * 4096 + b2 * 64 + b3
     - (0xF0 * 262144 + 0x80 * 4096 + 0x80 * 64 + 0x80))
    :: utf8_decode rest.
Proof.
  intros L0 H0 B1 B2 B3. rewrite utf8_decode_cons.
  destruct (N.ltb_spec b0 0x80); [lia|].
  destruct (N.ltb_spec b0 0xC2); [lia|].
  destruct (N.ltb_spec b0 0xE0); [lia|].
  destruct (N.ltb_spec b0 0xF0); [lia|].
  destruct (N.ltb_spec b0 0xF5); [|lia].
  apply in_range_iff in B1. rewrite B1.
  apply in_range_iff in B2. fold (is_cont b2) in B2. rewrite B2.
  apply in_range_iff in B3. fold (is_cont b3) in B3. rewrite B3. reflexivity.
Qed.

Lemma second_bounds b0 :
  (b0 = 0xE0 /\ second_lo b0 = 0xA0 /\ second_hi b0 = 0xBF)
  \/ (b0 = 0xED /\ second_lo b0 = 0x80 /\ second_hi b0 = 0x9F)
  \/ (b0 = 0xF0 /\ second_lo b0 = 0x90 /\ second_hi b0 = 0xBF)
  \/ (b0 = 0xF4 /\ second_lo b0 = 0x80 /\ second_hi b0 = 0x8F)
  \/ (b0 <> 0xE0 /\ b0 <> 0xED /\ b0 <> 0xF0 /\ b0 <> 0xF4
      /\ second_lo b0 = 0x80 /\ second_hi b0 = 0xBF).
Proof.
  unfold second_lo, second_hi.
  destruct (N.eqb_spec b0 0xE0) as [->|]; [left; auto|].
  destruct (N.eqb_spec b0 0xED) as [->|]; [right; left; auto|].
  destruct (N.eqb_spec b0 0xF0) as [->|]; [right; right; left; auto|].
  destruct (N.eqb_spec b0 0xF4) as [->|]; [right; right; right; left; auto|].
  right. right. right. right. auto 10.
Qed.

Lemma decode_encode_char_cases c rest :
  match encode_char c with
  | Some b => utf8_decode (b ++ rest) = c :: utf8_decode rest
  | None => True
  end.
Proof.
  unfold encode_char.
  destruct (N.ltb_spec c 0x80) as [A|A].
  { apply utf8_decode_ascii. exact A. }
  destruct (N.ltb_spec c 0x800) as [B|B].
  { remember (0xC0 + c / 64) as b0 eqn:E0.
    remember (0x80 + c mod 64) as b1 eqn:E1.
    change ([b0; b1] ++ rest) with (b0 :: b1 :: rest).
    rewrite utf8_decode_two by euclid. f_equal. euclid. }
  destruct (N.ltb_spec c 0x10000) as [C|C].
  { destruct (in_range 0xD800 0xDFFF c) eqn:S; [exact I|].
    assert (Ns : c < 0xD800 \/ 0xDFFF < c).
    { destruct (N.lt_ge_cases c 0xD800) as [L|L]; [left; exact L|].
      destruct (N.le_gt_cases c 0xDFFF) as [L'|L']; [|right; exact L'].
      assert (T : in_range 0xD800 0xDFFF c = true) by (apply in_range_iff; lia).
      congruence. }
    remember (0xE0 + c / 4096) as b0 eqn:E0.
    remember (0x80 + (c / 64) mod 64) as b1 eqn:E1.
    remember (0x80 + c mod 64) as b2 eqn:E2.
    change ([b0; b1; b2] ++ rest) with (b0 :: b1 :: b2 :: rest).
    rewrite utf8_decode_three.
    - f_equal. euclid.
    - euclid.
    - euclid.
    - destruct (second_bounds b0)
        as [(X & -> & ->)|[(X & -> & ->)|[(X & -> & ->)|[(X & -> & ->)
            |(X1 & X2 & X3 & X4 & -> & ->)]]]]; euclid.
    - euclid. }
  destruct (N.ltb_spec c 0x110000) as [D|D]; [|exact I].
  remember (0xF0 + c / 262144) as b0 eqn:E0.
  remember (0x80 + (c / 4096) mod 64) as b1 eqn:E1.
  remember (0x80 + (c / 64) mod 64) as b2 eqn:E2.
  remember (0x80 + c mod 64) as b3 eqn:E3.
  change ([b0; b1; b2; b3] ++ rest) with (b0 :: b1 :: b2 :: b3 :: rest).
  rewrite utf8_decode_four.
  - f_equal. euclid.
  - euclid.
  - euclid.
  - destruct (second_bounds b0)
      as [(X & -> & ->)|[(X & -> & ->)|[(X & -> & ->)|[(X & -> & ->)
          |(X1 & X2 & X3 & X4 & -> & ->)]]]]; euclid.
  - euclid.
  - euclid.
Qed.

Lemma decode_encode_char c b rest :
  encode_char c = Some b -> utf8_decode (b ++ rest) = c :: utf8_decode rest.
Proof.
  intros E. pose proof (decode_encode_char_cases c rest) as H.
  rewrite E in H. exact H.
Qed.

Lemma encode_char_scalar c : scalar_value c -> exists b, encode_char c = Some b.
Proof.
  intros S. unfold encode_char, scalar_value in *.
  destruct (c <? 0x80); [eauto|]. destruct (c <? 0x800); [eauto|].
  destruct (N.ltb_spec c 0x10000).
  - destruct (in_range 0xD800 0xDFFF c) eqn:R; [|eauto].
    apply in_range_iff in R. lia.
  - destruct (N.ltb_spec c 0x110000); [eauto | lia].
Qed.

Lemma utf8_decode_encode s :
  Forall scalar_value s ->
  exists bytes, utf8_encode s = Some bytes /\ utf8_decode bytes = s.
Proof.
  induction 1 as [|c s Sc F (bs & E & D)]; [exists []; auto|].
  destruct (encode_char_scalar c Sc) as [b Eb].
  exists (b ++ bs). cbn [utf8_encode]. rewrite Eb, E. split; [reflexivity|].
  rewrite (decode_encode_char c b bs Eb), D. reflexivity.
Qed.

(** X14.  The CSV of a scan can always be written in UTF-8, whatever bytes
    the logs hold: the decoding of the logs drops what is not UTF-8 and gives
    no surrogate, so the encoding of the text does not fail, and the bytes
    written decode to the text again. *)
Theorem scan_text_is_encodable ci p out r :
  main_scan ci p out = Returns r ->
  exists bytes,
    utf8_encode (csv_text r) = Some bytes /\ utf8_decode bytes = csv_text r.
Proof.
  intros E. apply utf8_decode_encode. apply (main_scan_scalar ci p out). exact E.
Qed.

Lemma scan_text_is_encodable_example :
  exists r,
    main_scan false sample_input None = Returns r
    /\ exists bytes,
         utf8_encode (csv_text r) = Some bytes /\ utf8_decode bytes = csv_text r.
Proof.
  destruct (main_scan false sample_input None) as [r|e] eqn:E;
    [|vm_compute in E; discriminate].
  exists r. split; [reflexivity|].
  exact (scan_text_is_encodable false sample_input None r E).
Defined.

Lemma lines_text_plain lines :
  Forall (fun l => Forall scalar_value l /\ no_break l) lines ->
  Forall scalar_value (flat_map (fun l => l ++ [LF]) lines)
  /\ ~ In CR (flat_map (fun l => l ++ [LF]) lines)
  /\ drop_last_empty (split_on LF (flat_map (fun l => l ++ [LF]) lines)) = lines.
Proof.
  induction 1 as [|l ls [Sc [Ncr Nlf]] F (S & C & D)].
  - split; [constructor|]. split; [intros []|reflexivity].
  - cbn [flat_map]. split; [|split].
    + apply Forall_app. split; [|exact S].
      apply Forall_app. split; [exact Sc|]. constructor; [|constructor].
      left. reflexivity.
    + intros I. apply in_app_or in I. destruct I as [I|I]; [|auto].
      apply in_app_or in I. destruct I as [I|[I|[]]]; [auto | discriminate].
    + rewrite <- app_assoc. cbn [app]. unfold split_on.
      rewrite split_on_from_field.
      * cbn [rev app]. rewrite drop_last_empty_cons by apply split_on_from_nonempty.
        f_equal. exact D.
      * apply Forall_forall. intros x I E. subst x. auto.
Qed.

(** X21.  A log that is valid UTF-8 is read as it is: when the bytes are the
    encoding of lines without line breaks, each followed by a line feed,
    [yield_lines] gives exactly these lines; nothing is dropped, and empty
    lines are kept. *)
Theorem lines_in_utf8_are_read ci lines bytes :
  Forall (fun l => Forall scalar_value l /\ no_break l) lines ->
  utf8_encode (flat_map (fun l => l ++ [LF]) lines) = Some bytes ->
  file_lines bytes = lines
  /\ yield_lines ci (File (Some bytes)) = Returns lines.
Proof.
  intros F E. destruct (lines_text_plain lines F) as (S & C & D).
  destruct (utf8_decode_encode _ S) as (b & Eb & Db).
  rewrite E in Eb. inversion Eb; subst b.
  assert (L : file_lines bytes = lines).
  { rewrite file_lines_pieces, Db, translate_newlines_plain by exact C. exact D. }
  split; [exact L|]. cbn [yield_lines open_lines]. rewrite L. reflexivity.
Qed.

Lemma lines_in_utf8_are_read_example :
  Forall (fun l => Forall scalar_value l /\ no_break l) utf8_lines
  /\ utf8_encode (flat_map (fun l => l ++ [LF]) utf8_lines)
     = Some (lit "retries: 3 caf"
             ++ [0xC3; 0xA9; 0x0A; 0xE2; 0x82; 0xAC; 0xF0; 0x9F; 0x98; 0x80; 0x0A])
  /\ file_lines
       (lit "retries: 3 caf"
        ++ [0xC3; 0xA9; 0x0A; 0xE2; 0x82; 0xAC; 0xF0; 0x9F; 0x98; 0x80; 0x0A])
     = utf8_lines
  /\ yield_lines false
       (File (Some (lit "retries: 3 caf"
                    ++ [0xC3; 0xA9; 0x0A; 0xE2; 0x82; 0xAC; 0xF0; 0x9F; 0x98; 0x80;
                        0x0A])))
     = Returns utf8_lines.
Proof.
  assert (Sc : forall l, forallb (fun c => (c <? 0xD800)
                                          || ((0xE000 <=? c) && (c <=? 0x10FFFF))) l
                         = true -> Forall scalar_value l).
  { intros l H. apply Forall_forall. intros c I.
    apply (forallb_in _ _ _ H) in I. apply orb_true_iff in I.
    destruct I as [I|I]; [left; apply N.ltb_lt; exact I|].
    apply andb_true_iff in I. destruct I as [I1 I2].
    right. split; [apply N.leb_le; exact I1 | apply N.leb_le; exact I2]. }
  assert (Nb : forall l, existsb (N.eqb CR) l = false ->
                         existsb (N.eqb LF) l = false -> no_break l).
  { intros l H1 H2. split; apply not_in_test; assumption. }
  assert (F : Forall (fun l => Forall scalar_value l /\ no_break l) utf8_lines).
  { constructor; [|constructor; [|constructor]];
      (split; [apply Sc; vm_compute; reflexivity
              | apply Nb; vm_compute; reflexivity]). }
  assert (E : utf8_encode (flat_map (fun l => l ++ [LF]) utf8_lines)
              = Some (lit "retries: 3 caf"
                      ++ [0xC3; 0xA9; 0x0A; 0xE2; 0x82; 0xAC; 0xF0; 0x9F; 0x98;
                          0x80; 0x0A]))
    by (vm_compute; reflexivity).
  split; [exact F|]. split; [exact E|].
  exact (lines_in_utf8_are_read false utf8_lines _ F E).
Defined.
